(** * Belaynish bot: job polling, progress notifier and provider fallback

    A shallow embedding of the asynchronous job layer of [src/index.js]:

    - [pollReplicatePrediction]: the polling loop with its deadline;
    - [createReplicateProgressEditorFactory]: the throttled progress
      notifier (percent extraction, emission decision, message delivery);
    - the [/ai chat] and [/ai media] branches of [bot.command('ai')]: the
      provider fallback chains;
    - the parsing of the [/ai] command, its [translate], [tts],
      [replicate] and admin branches, and [isAdmin];
    - [getMemory], [saveMemory], [clearMemory] and the memory part of a
      chat turn;
    - [callHfSpace].

    JavaScript numbers are IEEE 754 binary64 values, embedded as Rocq's
    primitive floats; [Date.now()] readings are integers (milliseconds) and
    are embedded in [Z]; JavaScript strings are sequences of UTF-16 code
    units, embedded as lists of code units where the code inspects their
    characters (log lines) and as [string] where it only copies or compares
    them (status words, messages).  What the outside world does (the
    clock, how a remote call, a send or an edit settles, and when) is
    an input of the model.

    The notifier's [onProgress] is asynchronous and the poller does not
    await it.  [Notifier.onProgress] is one invocation whose send and
    edit settle before the next invocation starts; [Overlap] has the
    invocations that overlap, driven by a schedule of invocations and
    settlements, and the schedule [Overlap.in_turn] gives back
    [Notifier.feed].

    The command handler returns its last send without awaiting it, so a
    rejected send leaves the handler whatever its [catch] blocks do.
    [Chain.handler] gives the message handed to that send and what was
    done before; [Chain.settle] gives how the handler's promise
    settles.  A send the handler does await is a step that can throw. *)

From Stdlib Require Import ZArith List Bool Lia String Ascii Sorted.
From Stdlib Require Import PrimFloat SpecFloat FloatOps Uint63.
From Stdlib Require FloatAxioms.
Import ListNotations.

Open Scope Z_scope.

(* ------------------------------------------------------------------ *)
(** * JavaScript values used by the code *)
(* ------------------------------------------------------------------ *)

Module JS.

(** ** Numbers *)

Definition number := float.

(** The number with integer value [z] (exact for |z| < 2^53). *)
Definition of_Z (z : Z) : number :=
  if z <? 0 then PrimFloat.opp (PrimFloat.of_uint63 (Uint63.of_Z (- z)))
  else PrimFloat.of_uint63 (Uint63.of_Z z).

(** [Math.round(x)]: the integer closest to [x], ties towards +infinity;
    NaN, infinities and zeros are returned unchanged, and a value in
    [-0.5, 0) gives -0.  A finite [x] is [±m·2^e]; for [e < 0] the result
    is [floor((2x + 1) / 2)], computed exactly on integers. *)
Definition Math_round (x : number) : number :=
  match Prim2SF x with
  | S754_finite s m e =>
      if 0 <=? e then x
      else
        let sm := if s then Z.neg m else Z.pos m in
        let n := Z.shiftr (2 * sm + 2 ^ (- e)) (1 - e) in
        if (n =? 0) && s then PrimFloat.neg_zero else of_Z n
  | _ => x
  end.

Definition is_nan (x : number) : bool := negb (PrimFloat.eqb x x).

(** [Math.max(a, b)] and [Math.min(a, b)]: NaN when an argument is NaN. *)
Definition Math_max (a b : number) : number :=
  if is_nan a || is_nan b then PrimFloat.nan
  else if PrimFloat.ltb a b then b else a.

Definition Math_min (a b : number) : number :=
  if is_nan a || is_nan b then PrimFloat.nan
  else if PrimFloat.ltb b a then b else a.

(** The nearest integer to [n / d], ties to even ([0 <= n], [0 < d]). *)
Definition div_nearest_even (n d : Z) : Z :=
  let q := n / d in
  match 2 * (n mod d) ?= d with
  | Lt => q
  | Gt => q + 1
  | Eq => if Z.even q then q else q + 1
  end.

(** The number closest to the rational [n / d] ([0 <= n], [0 < d]), as the
    conversion of a decimal literal to a Number value rounds it: to the
    nearest binary64 value, ties to even, overflowing to Infinity. *)
Definition of_ratio (n d : Z) : number :=
  if n =? 0 then PrimFloat.zero
  else
    let e0 := Z.log2 n - Z.log2 d in
    let ge := if 0 <=? e0 then d * 2 ^ e0 <=? n else d <=? n * 2 ^ (- e0) in
    let e := if ge then e0 else e0 - 1 in
    let q := Z.max (e - 52) (-1074) in
    let m := if 0 <=? q then div_nearest_even n (d * 2 ^ q)
             else div_nearest_even (n * 2 ^ (- q)) d in
    FloatOps.Z.ldexp (PrimFloat.of_uint63 (Uint63.of_Z m)) q.

(** ** Strings as code-unit sequences *)

Definition char := N.
Definition jsstring := list char.

(** The code units of an ASCII literal. *)
Definition lit (s : string) : jsstring :=
  List.map N_of_ascii (list_ascii_of_string s).

Definition is_digit (c : char) : bool := ((48 <=? c) && (c <=? 57))%N.

(** [\s]: the white space and line terminator code units. *)
Definition is_space (c : char) : bool :=
  ((9 <=? c) && (c <=? 13) || (c =? 32) || (c =? 160) || (c =? 5760)
   || (8192 <=? c) && (c <=? 8202) || (c =? 8232) || (c =? 8233)
   || (c =? 8239) || (c =? 8287) || (c =? 12288) || (c =? 65279))%N.

Definition digit_val (c : char) : Z := Z.of_N c - 48.

(** The value of a digit string, most significant digit first. *)
Definition digits_val (ds : jsstring) : Z :=
  fold_left (fun acc c => 10 * acc + digit_val c) ds 0.

(** The longest prefix of digits, and the rest. *)
Fixpoint span_digits (s : jsstring) : jsstring * jsstring :=
  match s with
  | c :: s' =>
      if is_digit c then
        let '(ds, rest) := span_digits s' in (c :: ds, rest)
      else ([], s)
  | [] => ([], [])
  end.

(** [parseInt(s, 10)] on a string that starts with a digit (what the
    capture [(\d{1,3})] holds): the value of its leading digits. *)
Definition parseInt (s : jsstring) : number :=
  match span_digits s with
  | ([], _) => PrimFloat.nan
  | (ds, _) => of_Z (digits_val ds)
  end.

(** [parseFloat(s)] on a string over [0-9.] (what the capture [([0-9.]+)]
    holds; no sign, exponent or white space occurs in it): the longest
    prefix [digits], [digits.], [digits.digits] or [.digits] read as a
    decimal literal, NaN when there is none. *)
Definition parseFloat (s : jsstring) : number :=
  let '(ip, rest) := span_digits s in
  let fp := match rest with
            | 46%N :: rest' => fst (span_digits rest')
            | _ => []
            end in
  match ip, fp with
  | [], [] => PrimFloat.nan
  | _, _ => of_ratio (digits_val (ip ++ fp)) (10 ^ Z.of_nat (List.length fp))
  end.

(** The Number value of a decimal literal such as [0.42], as
    [JSON.parse] reads it from a response body. *)
Definition decimal (s : string) : number := parseFloat (lit s).

(** ** The regular expressions of the notifier

    Both patterns are sequences of character classes under a greedy
    quantifier, with one capture group.  [Item p lo hi cap] is the class
    [p] repeated between [lo] and [hi] times ([None]: unbounded); [cap]
    marks the captured item. *)

Record item := Item {
  cls : char -> bool;
  lo : nat;
  hi : option nat;
  cap : bool
}.

Definition regex := list item.

(** The length of the longest prefix of [s] in class [p]. *)
Fixpoint run (p : char -> bool) (s : jsstring) : nat :=
  match s with
  | c :: s' => if p c then S (run p s') else 0
  | [] => 0
  end.

(** Backtracking over the repetition count [lo + k], [lo + k - 1], ...,
    [lo]: the first count the continuation accepts. *)
Fixpoint descend {A} (f : nat -> option A) (lo k : nat) : option A :=
  match f (lo + k)%nat with
  | Some r => Some r
  | None => match k with
            | O => None
            | S k' => descend f lo k'
            end
  end.

(** Match [re] at the start of [s]; the result is the capture. *)
Fixpoint match_here (re : regex) (s : jsstring) (c : jsstring)
  : option jsstring :=
  match re with
  | [] => Some c
  | it :: re' =>
      let avail := run (cls it) s in
      let most := match hi it with
                  | Some h => Nat.min h avail
                  | None => avail
                  end in
      if (most <? lo it)%nat then None
      else descend
             (fun n => match_here re' (skipn n s)
                         (if cap it then firstn n s else c))
             (lo it) (most - lo it)
  end.

(** [s.match(re)] for a pattern without the [g] flag: the leftmost match;
    the result is the text of capture group 1. *)
Fixpoint regex_match (re : regex) (s : jsstring) : option jsstring :=
  match match_here re s [] with
  | Some c => Some c
  | None => match s with
            | [] => None
            | _ :: s' => regex_match re s'
            end
  end.

(** What it means for [re] to match a prefix of [s]: each item takes
    some number of characters of its class, within its bounds; the last
    argument is the text the captured item took. *)
Inductive matches : regex -> jsstring -> jsstring -> jsstring -> Prop :=
| matches_nil s c : matches [] s c c
| matches_item it re s c c' n :
    (lo it <= n)%nat ->
    (forall h, hi it = Some h -> (n <= h)%nat) ->
    (n <= List.length s)%nat ->
    forallb (cls it) (firstn n s) = true ->
    matches re (skipn n s) (if cap it then firstn n s else c) c' ->
    matches (it :: re) s c c'.

(** [re] matches somewhere in [s], capturing [c]. *)
Definition occurs (re : regex) (s c : jsstring) : Prop :=
  exists k, (k <= List.length s)%nat /\ matches re (skipn k s) [] c.

(** The leftmost place where [re] matches in [s], capturing [c]. *)
Definition first_occurrence (re : regex) (s c : jsstring) : Prop :=
  exists k, (k <= List.length s)%nat /\ matches re (skipn k s) [] c /\
            forall j c', (j < k)%nat -> ~ matches re (skipn j s) [] c'.

Definition one (p : char -> bool) : item := Item p 1 (Some 1%nat) false.

Definition chr (a : ascii) : char -> bool := N.eqb (N_of_ascii a).

(** A letter under the [i] flag: either case. *)
Definition chr_i (lower upper : ascii) : char -> bool :=
  fun c => chr lower c || chr upper c.

(** [/(\d{1,3})\s?%/] *)
Definition re_percent : regex :=
  [ Item is_digit 1 (Some 3%nat) true;
    Item is_space 0 (Some 1%nat) false;
    one (chr "%") ].

(** [/progress[:=]\s*([0-9.]+)/i] *)
Definition re_progress : regex :=
  [ one (chr_i "p" "P"); one (chr_i "r" "R"); one (chr_i "o" "O");
    one (chr_i "g" "G"); one (chr_i "r" "R"); one (chr_i "e" "E");
    one (chr_i "s" "S"); one (chr_i "s" "S");
    one (fun c => chr ":" c || chr "=" c);
    Item is_space 0 None false;
    Item (fun c => is_digit c || chr "." c) 1 None true ].

End JS.

(* ------------------------------------------------------------------ *)
(** * Exceptions and effects *)
(* ------------------------------------------------------------------ *)

Module Eff.

(** A JavaScript [Error]: the code only ever reads its [message]. *)
Record Error := mkError { message : string }.

(** The completion of a call: a value, or a thrown (rejected) error. *)
Inductive result (A : Type) : Type :=
| Ok (a : A)
| Throw (e : Error).
Arguments Ok {A} a.
Arguments Throw {A} e.

(** Computations over a store [St] that may throw.  What a computation
    did to the store before throwing stays done, as in JavaScript. *)
Definition M (St A : Type) : Type := St -> result A * St.

Definition ret {St A} (a : A) : M St A := fun s => (Ok a, s).

Definition bind {St A B} (m : M St A) (k : A -> M St B) : M St B :=
  fun s => match m s with
           | (Ok a, s') => k a s'
           | (Throw e, s') => (Throw e, s')
           end.

(** [try { m } catch (e) { h e }] *)
Definition try_catch {St A} (m : M St A) (h : Error -> M St A) : M St A :=
  fun s => match m s with
           | (Ok a, s') => (Ok a, s')
           | (Throw e, s') => h e s'
           end.

(** [await p], for a promise that settles as [r]. *)
Definition await {St A} (r : result A) : M St A := fun s => (r, s).

Definition modify {St} (f : St -> St) : M St unit := fun s => (Ok tt, f s).

Declare Scope eff_scope.
Delimit Scope eff_scope with eff.
Notation "x <- m ;; k" := (bind m (fun x => k))
  (at level 61, m at next level, right associativity) : eff_scope.
Notation "m ;; k" := (bind m (fun _ => k))
  (at level 61, right associativity) : eff_scope.

End Eff.

(* ------------------------------------------------------------------ *)
(** * Replicate predictions and the polling loop *)
(* ------------------------------------------------------------------ *)

Module Replicate.
Import Eff.

(** An array element of [res.logs]: a string, or some other value of
    which only the truthiness matters. *)
Inductive log_entry :=
| LogString (s : JS.jsstring)
| LogOther (truthy : bool).

(** The fields of a prediction object ([resp.data], a non-null object)
    that the code reads:
    - [status]: [res.status];
    - [progress]: [Some p] iff [typeof res.progress === 'number'];
    - [metrics_progress]: [Some p] iff [res.metrics] is truthy and
      [typeof res.metrics.progress === 'number'];
    - [logs]: [Some l] iff [res.logs] is an array, [l] its elements;
    - [output]: the elements of [res.output] when it is an array, [[]]
      otherwise (so that [safeFirst] is the head). *)
Record payload := mkPayload {
  status : string;
  progress : option JS.number;
  metrics_progress : option JS.number;
  logs : option (list log_entry);
  output : list string
}.

(** A progress callback with store [St]; [W] is what the outside world
    hands to one invocation (clock reading, outcome of its I/O).  It may
    throw, keeping whatever it did to its store. *)
Definition callback (W St : Type) : Type := W -> payload -> M St unit.

(** What the world supplies to one loop iteration: the [Date.now()]
    reading at the top of the loop, how [replicateGet] settles, and the
    callback's share. *)
Record tick (W : Type) := mkTick {
  clock : Z;
  fetched : result payload;
  cb_world : W
}.
Arguments mkTick {W}.
Arguments clock {W}.
Arguments fetched {W}.
Arguments cb_world {W}.

(** How a run ended; [Pending] when the script of ticks is used up with
    the loop still going. *)
Inductive outcome :=
| Returned (res : payload)
| Thrown (e : Error)
| Pending.

Record run := mkRun {
  result_of : outcome;
  fetches : nat;  (* calls of [replicateGet] made *)
}.

Section Poller.

(** [REPLICATE_POLL_TIMEOUT_SEC], an integer number of seconds. *)
Variable REPLICATE_POLL_TIMEOUT_SEC : Z.
(** [JSON.stringify] on prediction objects. *)
Variable JSON_stringify : payload -> string.

Definition timed_out : Error := mkError "Replicate polling timed out".
Definition job_failed (res : payload) : Error :=
  mkError ("Replicate job failed: " ++ JSON_stringify res).

(** [elapsed > REPLICATE_POLL_TIMEOUT_SEC] for
    [elapsed = (Date.now() - start) / 1000]: on integer milliseconds and
    an integer number of seconds, [Date.now() - start] exceeds a
    thousand times the timeout. *)
Definition deadline_passed (start now : Z) : bool :=
  REPLICATE_POLL_TIMEOUT_SEC * 1000 <? now - start.

Section Loop.
Context {W St : Type}.
Variable onProgress : option (callback W St).

(** [try { onProgress(res); } catch (e) { /* ignore progress errors */ }] *)
Definition notify (w : W) (res : payload) (s : St) : St :=
  match onProgress with
  | Some cb => snd (cb w res s)
  | None => s
  end.

Fixpoint poll_loop (start : Z) (script : list (tick W)) (s : St) (n : nat)
  : run * St :=
  match script with
  | [] => (mkRun Pending n, s)
  | t :: rest =>
      if deadline_passed start (clock t) then (mkRun (Thrown timed_out) n, s)
      else
        match fetched t with
        | Throw e => (mkRun (Thrown e) (S n), s)
        | Ok res =>
            let s' := notify (cb_world t) res s in
            if (status res =? "succeeded")%string then
              (mkRun (Returned res) (S n), s')
            else if (status res =? "failed")%string then
              (mkRun (Thrown (job_failed res)) (S n), s')
            else poll_loop start rest s' (S n)
        end
  end.

(** [pollReplicatePrediction(predictionId, onProgress)], entered when the
    clock reads [start]. *)
Definition pollReplicatePrediction (start : Z) (script : list (tick W)) (s : St)
  : run * St :=
  poll_loop start script s 0.

End Loop.
End Poller.

(** A status that keeps the loop going. *)
Definition in_flight (res : payload) : bool :=
  negb (status res =? "succeeded")%string && negb (status res =? "failed")%string.

(** A tick whose fetch succeeds with a status that keeps the loop going. *)
Definition keeps_polling {W} (t : tick W) : Prop :=
  exists res, fetched t = Ok res /\ in_flight res = true.

(** Every iteration takes at least [interval] milliseconds: the [i]-th
    clock reading is at least [i] intervals after [start]. *)
Definition advancing {W} (interval start : Z) (script : list (tick W))
  : Prop :=
  forall i t, nth_error script i = Some t ->
              start + Z.of_nat i * interval <= clock t.

(** A tick whose clock is read [timeout] seconds after [start] at the
    latest. *)
Definition before_deadline {W} (timeout start : Z) (t : tick W) : Prop :=
  clock t - start <= timeout * 1000.

End Replicate.

(* ------------------------------------------------------------------ *)
(** * The progress notifier *)
(* ------------------------------------------------------------------ *)

Module Notifier.
Import Eff Replicate.
Local Open Scope eff_scope.

(** ** Percent extraction *)

(** [res.logs[res.logs.length - 1] || '']: the last element, replaced by
    the empty string when it is missing or falsy. *)
Definition lastLog (ls : list log_entry) : log_entry :=
  match List.last (List.map Some ls) None with
  | None => LogString []
  | Some (LogString []) => LogString []
  | Some (LogOther false) => LogString []
  | Some e => e
  end.

(** The percent read from a log line, [None] when neither pattern
    matches. *)
Definition percent_of_log (line : JS.jsstring) : option JS.number :=
  match JS.regex_match JS.re_percent line with
  | Some m1 => Some (JS.Math_min 100%float (JS.Math_max 0%float (JS.parseInt m1)))
  | None =>
      match JS.regex_match JS.re_progress line with
      | Some m2 =>
          let p := JS.parseFloat m2 in
          let p := if PrimFloat.leb p 1%float then JS.Math_round (p * 100)%float
                   else p in
          Some (JS.Math_min 100%float (JS.Math_max 0%float (JS.Math_round p)))
      | None => None
      end
  end.

(** The value of [percent] after the extraction block; [None] is [null]
    (so [typeof percent === 'number'] is [Some _]). *)
Definition extractPercent (res : payload) : option JS.number :=
  match progress res with
  | Some p => Some (JS.Math_round (p * 100)%float)
  | None =>
      match metrics_progress res with
      | Some p => Some (JS.Math_round (p * 100)%float)
      | None =>
          match logs res with
          | Some ls =>
              match lastLog ls with
              | LogString line => percent_of_log line
              | LogOther _ => None
              end
          | None => None
          end
      end
  end.

(** ** State, messages and effects *)

(** The message object [ctx.reply] resolves to. *)
Record Message := mkMessage { message_id : Z }.

(** The text [withPrefix(`Processing: ${pctText}`)], where [pctText] is
    [`${percent}%`] for a number and ['processing...'] otherwise: it is
    kept as the percent it shows. *)
Inductive text :=
| Processing (percent : option JS.number).

(** What one notifier does to the outside, with how each call settled. *)
Inductive event :=
| Reply (t : text) (r : result Message)
| EditMessageText (message_id : Z) (t : text) (r : result unit)
| Warn (msg : string).

(** The variables the closure captures. *)
Record vars := mkVars {
  lastPercent : JS.number;
  lastSentTime : Z;
  progressMsg : option Message
}.

Definition initial : vars :=
  {| lastPercent := (-1)%float; lastSentTime := 0; progressMsg := None |}.

Definition MIN_DELTA : JS.number := 5%float.
Definition MIN_INTERVAL_MS : Z := 15000.

(** The closure's variables and the trace of what it did so far. *)
Definition store : Type := vars * list event.

(** What the world supplies to one invocation: the [Date.now()] reading,
    how the [ctx.reply] of this invocation settles and how
    [editMessageText] settles, if they are called. *)
Record world := mkWorld {
  now : Z;
  reply : result Message;
  edit : result unit
}.

Definition read : M store vars := fun s => (Ok (fst s), s).
Definition write (f : vars -> vars) : M store unit :=
  modify (fun s : store => (f (fst s), snd s)).
Definition emit (e : event) : M store unit :=
  modify (fun s : store => (fst s, snd s ++ [e])).

Definition ctx_reply (w : world) (t : text) : M store Message :=
  emit (Reply t (reply w)) ;; await (reply w).
Definition editMessageText (w : world) (id : Z) (t : text) : M store unit :=
  emit (EditMessageText id t (edit w)) ;; await (edit w).
Definition console_warn (msg : string) : M store unit := emit (Warn msg).

Definition set_lastSentTime (t : Z) (v : vars) : vars :=
  {| lastPercent := lastPercent v; lastSentTime := t;
     progressMsg := progressMsg v |}.
Definition set_progressMsg (m : Message) (v : vars) : vars :=
  {| lastPercent := lastPercent v; lastSentTime := lastSentTime v;
     progressMsg := Some m |}.
Definition set_lastPercent (p : JS.number) (v : vars) : vars :=
  {| lastPercent := p; lastSentTime := lastSentTime v;
     progressMsg := progressMsg v |}.

(** ** [onProgress] *)

Definition shouldUpdate (v : vars) (percent : option JS.number) (now : Z)
  : bool :=
  match percent with
  | Some p => PrimFloat.leb MIN_DELTA (p - lastPercent v)%float
  | None => false
  end
  || (MIN_INTERVAL_MS <=? now - lastSentTime v).

(** The body of the outer [try]. *)
Definition onProgress_body (w : world) (res : payload) : M store unit :=
  let percent := extractPercent res in
  v <- read ;;
  if negb (shouldUpdate v percent (now w)) then ret tt
  else
    write (set_lastSentTime (now w)) ;;
    let text := Processing percent in
    match progressMsg v with
    | None =>
        sent <- ctx_reply w text ;;
        write (set_progressMsg sent)
    | Some m =>
        try_catch (editMessageText w (message_id m) text)
                  (fun _ => _ <- ctx_reply w text ;; ret tt)
    end ;;
    match percent with
    | Some p => write (set_lastPercent p)
    | None => ret tt
    end.

(** The function the factory returns, for an invocation whose send and
    edit settle, as [w] says, before the next invocation starts.  The
    poller does not await it (line 209): for invocations that start
    while an earlier send or edit is pending see [Overlap], where the
    same lines are cut at their [await]s. *)
Definition onProgress : callback world store :=
  fun w res =>
    try_catch (onProgress_body w res)
              (fun e => console_warn (message e)).

(** [onProgress] with its control flow spelled out: the variables after
    one invocation and the events it adds to the trace (see
    [onProgress_step] for the agreement). *)
Definition step (w : world) (res : payload) (v : vars) : vars * list event :=
  let percent := extractPercent res in
  if shouldUpdate v percent (now w) then
    let text := Processing percent in
    let v1 := set_lastSentTime (now w) v in
    let bump := fun v' => match percent with
                          | Some p => set_lastPercent p v'
                          | None => v'
                          end in
    match progressMsg v with
    | None =>
        match reply w with
        | Ok sent => (bump (set_progressMsg sent v1), [Reply text (Ok sent)])
        | Throw e => (v1, [Reply text (Throw e); Warn (message e)])
        end
    | Some m =>
        let id := message_id m in
        match edit w with
        | Ok u => (bump v1, [EditMessageText id text (Ok u)])
        | Throw e =>
            match reply w with
            | Ok sent =>
                (bump v1, [EditMessageText id text (Throw e);
                           Reply text (Ok sent)])
            | Throw e' =>
                (v1, [EditMessageText id text (Throw e);
                      Reply text (Throw e'); Warn (message e')])
            end
        end
    end
  else (v, []).

Definition fresh : store := (initial, []).

(** [createReplicateProgressEditorFactory(ctx)]: the callback, over
    variables of its own in their initial state. *)
Definition createReplicateProgressEditorFactory
  : callback world store * store :=
  (onProgress, fresh).

(** One notifier fed a sequence of invocations, each settled before
    the next ([Overlap.in_turn] is this schedule). *)
Fixpoint feed (ticks : list (world * payload)) (s : store) : store :=
  match ticks with
  | [] => s
  | (w, res) :: rest => feed rest (snd (onProgress w res s))
  end.

(** ** Reading a trace *)

(** The text a call put in front of the user, when it succeeded. *)
Definition delivered (e : event) : option text :=
  match e with
  | Reply t (Ok _) => Some t
  | EditMessageText _ t (Ok _) => Some t
  | _ => None
  end.

(** The notifications the user saw. *)
Definition notifications (tr : list event) : list text :=
  flat_map (fun e => match delivered e with
                     | Some t => [t]
                     | None => []
                     end) tr.

(** The known percent values among them, in order. *)
Definition emitted_percents (tr : list event) : list JS.number :=
  flat_map (fun t => match t with
                     | Processing (Some p) => [p]
                     | Processing None => []
                     end) (notifications tr).

(** The percent values the payloads of a run carry, in order. *)
Definition known_percents (ticks : list (world * payload)) : list JS.number :=
  flat_map (fun t => match extractPercent (snd t) with
                     | Some p => [p]
                     | None => []
                     end) ticks.

(** Every value is at most every later one ([<=] on numbers). *)
Definition non_decreasing (l : list JS.number) : Prop :=
  StronglySorted (fun a b => PrimFloat.leb a b = true) l.


(** The clock readings of a run do not go back. *)
Definition clock_monotone (ticks : list (world * payload)) : Prop :=
  StronglySorted (fun a b => now (fst a) <= now (fst b)) ticks.

(** A call that tries to show a text, whatever its outcome. *)
Definition is_send (e : event) : bool :=
  match e with
  | Reply _ _ | EditMessageText _ _ _ => true
  | Warn _ => false
  end.

(** The message ids [editMessageText] was called on, in order. *)
Definition edit_targets (tr : list event) : list Z :=
  flat_map (fun e => match e with
                     | EditMessageText id _ _ => [id]
                     | _ => []
                     end) tr.

End Notifier.

(* ------------------------------------------------------------------ *)
(** * The provider fallback chains of [/ai] *)
(* ------------------------------------------------------------------ *)

Module Chain.
Import Eff Replicate.
Local Open Scope eff_scope.
Local Open Scope string_scope.

Definition nl : string := String (ascii_of_nat 10) EmptyString.

Definition withPrefix (txt : string) : string :=
  "Belaynish" ++ nl ++ nl ++ txt.

(** The truthiness of a string. *)
Definition truthy (s : string) : bool := negb (s =? "").

(** [!answer], for [answer] that is [null] or a string. *)
Definition no_answer (answer : option string) : bool :=
  match answer with
  | Some s => negb (truthy s)
  | None => true
  end.

(** [safeFirst(arr)], on the elements of [arr]; [None] is [null]. *)
Definition safeFirst (arr : list string) : option string :=
  match arr with
  | x :: _ => Some x
  | [] => None
  end.

(** [x || alt], for [x] that is [null] or a string. *)
Definition or_else (x alt : option string) : option string :=
  match x with
  | Some s => if truthy s then Some s else alt
  | None => alt
  end.

(** The remote calls the two branches make. *)
Inductive callee :=
| HfSpace           (* callHfSpace *)
| HfApi             (* callHfApi *)
| ReplicateCreate   (* callReplicateCreate *)
| ReplicatePoll     (* pollReplicatePrediction *)
| Wiki              (* wikiSummary *)
| Duck              (* duckDuck *)
| Runway            (* callRunway *)
| Stability         (* callStabilityImage *)
| Pixabay.          (* pixabaySearch *)

(** What goes to the requester. *)
Inductive answer_msg :=
| Text (s : string)                      (* ctx.reply *)
| Photo (src : string) (caption : string)  (* ctx.replyWithPhoto *)
| Video (src : string) (caption : string)  (* ctx.replyWithVideo *)
| Document (src : string).                 (* ctx.replyWithDocument *)

Inductive event :=
| Call (f : callee)
| Warn (tag msg : string)     (* console.warn(tag, e.message) *)
| Say (m : answer_msg).       (* an awaited ctx.reply before the end *)

Definition trace := list event.

Definition record (e : event) : M trace unit :=
  modify (fun t : trace => (t ++ [e])%list).

(** [await f(...)], for a call that settles as [r]. *)
Definition call {A} (f : callee) (r : result A) : M trace A :=
  record (Call f) ;; await r.

Definition console_warn (tag : string) (e : Error) : M trace unit :=
  record (Warn tag (message e)).

(** [await ctx.reply(m)] before the end of a branch, for a send that
    settles as [r]. *)
Definition say (m : answer_msg) (r : result unit) : M trace unit :=
  record (Say m) ;; await r.

(** The object [callReplicateCreate] resolves to: [id] when truthy, and
    the elements of [output] when it is an array. *)
Record created := mkCreated {
  id : option string;
  created_output : list string
}.

Section Handlers.

Variable JSON_stringify : payload -> string.

(** ** [/ai chat] *)

(** Which providers the environment configures:
    [hfModelUrl] is [HF_MODEL_MAP[modelKey] || HF_MODEL_MAP.default] and
    [repModel] is [process.env[repKey]], each true when set. *)
Record chat_env := mkChatEnv {
  HF_SPACE_URL : bool;
  HUGGINGFACE_API_KEY : bool;
  hfModelUrl : bool;
  REPLICATE_API_KEY : bool;
  repModel : bool
}.

(** How each call settles if it is made.  [wikiSummary] and [duckDuck]
    catch their own errors and always resolve to a string. *)
Record chat_world := mkChatWorld {
  hfSpace : result string;
  hfApi : result string;
  repCreate : result created;
  repPoll : result payload;
  wiki : string;
  duck : string
}.

(** The body of the chat branch from [let answer = null] on. *)
Definition chat_body (env : chat_env) (w : chat_world) : M trace answer_msg :=
  let answer : option string := None in
  answer <-
    (if HF_SPACE_URL env then
       try_catch (a <- call HfSpace (hfSpace w) ;; ret (Some a))
                 (fun e => console_warn "HF Space error:" e ;; ret answer)
     else ret answer) ;;
  answer <-
    (if no_answer answer && HUGGINGFACE_API_KEY env then
       if hfModelUrl env then
         try_catch (a <- call HfApi (hfApi w) ;; ret (Some a))
                   (fun e => console_warn "HF API error:" e ;; ret answer)
       else ret answer
     else ret answer) ;;
  answer <-
    (if no_answer answer && REPLICATE_API_KEY env then
       try_catch
         (if repModel env then
            c <- call ReplicateCreate (repCreate w) ;;
            match id c with
            | Some _ =>
                polled <- call ReplicatePoll (repPoll w) ;;
                ret (or_else (safeFirst (output polled))
                            (Some (JSON_stringify polled)))
            | None =>
                match created_output c with
                | x :: _ => ret (Some x)
                | [] => ret (Some "Replicate job started (no immediate output).")
                end
            end
          else ret answer)
         (fun e => console_warn "Replicate chat error:" e ;; ret answer)
     else ret answer) ;;
  answer <-
    (if no_answer answer then
       w' <- call Wiki (Ok (wiki w)) ;;
       d <- call Duck (Ok (duck w)) ;;
       ret (Some (w' ++ nl ++ nl ++ "Duck summary:" ++ nl ++ d))
     else ret answer) ;;
  ret (Text (withPrefix (match answer with Some a => a | None => "" end))).

(** The outer [try]/[catch] of the command handler around a branch.
    Every branch ends with [return ctx.reply(...)] (or
    [replyWithPhoto], ...), and so does the [catch]: the result is the
    message whose send the handler returns.  The send itself is not
    awaited inside the [try]; see [settle].  The typing notifications
    of [withTyping] (line 379) are sent and forgotten: they never reach
    the handler's result and are left out. *)
Definition handler (body : M trace answer_msg) : M trace answer_msg :=
  try_catch body
    (fun err =>
       ret (Text (withPrefix
         ("Error: " ++ (if truthy (message err) then message err
                        else "Error"))))).

(** The chat branch: the message it hands to [ctx.reply], and what it
    did before. *)
Definition chat (env : chat_env) (w : chat_world) : result answer_msg * trace :=
  handler (chat_body env w) [].

(** ** [/ai media] *)

Definition runwayModes : list string :=
  ["t2i"; "t2v"; "i2v"; "v2v"; "upscale"; "act"].
Definition repModes : list string :=
  ["flux"; "fixface"; "caption"; "burncaption"; "recon3d"].

Definition includes (l : list string) (s : string) : bool :=
  existsb (String.eqb s) l.

(** [media_repModel]: the model the [switch] selects is set. *)
Record media_env := mkMediaEnv {
  RUNWAY_API_KEY : bool;
  media_REPLICATE_API_KEY : bool;
  media_repModel : bool;
  STABILITY_KEY : bool;
  PIXABAY_KEY : bool
}.

(** How each call settles if it is made: [runway] resolves to
    [safeFirst(res.output) || res.output] when truthy, [stability] to
    the image buffer, [pixabay] to the [largeImageURL]s of the hits;
    [media_started] is how the awaited send of the text 'Started job on
    Replicate, polling until done...' settles. *)
Record media_world := mkMediaWorld {
  runway : result (option string);
  media_repCreate : result created;
  media_repPoll : result payload;
  stability : result string;
  pixabay : result (list string);
  media_started : result unit
}.

(** How a Replicate output is sent back, by mode. *)
Definition send_replicate_output (sub out input : string) : answer_msg :=
  if (sub =? "flux") || (sub =? "fixface") then Photo out (withPrefix input)
  else if sub =? "recon3d" then Document out
  else if sub =? "caption" then Text (withPrefix out)
  else Video out (withPrefix input).

(** The fallback for [t2i]; [None] when the code falls through. *)
Definition t2i_fallback (env : media_env) (w : media_world) (input : string)
  : M trace (option answer_msg) :=
  r <-
    (if STABILITY_KEY env then
       try_catch
         (buff <- call Stability (stability w) ;;
          ret (Some (Photo buff (withPrefix input))))
         (fun e => console_warn "Stability error" e ;; ret None)
     else ret None) ;;
  match r with
  | Some m => ret (Some m)
  | None =>
      if PIXABAY_KEY env then
        try_catch
          (hits <- call Pixabay (pixabay w) ;;
           match hits with
           | url :: _ => ret (Some (Photo url (withPrefix input)))
           | [] => ret None
           end)
          (fun e => console_warn "Pixabay error" e ;; ret None)
      else ret None
  end.

(** The body of the media branch; [sub] is the lower-cased mode and
    [input] the rest of the command ([payload] in the source). *)
Definition media_body (env : media_env) (w : media_world) (sub input : string)
  : M trace answer_msg :=
  if negb (truthy sub) || negb (truthy input) then
    ret (Text (withPrefix
      "Usage: /ai media <mode> <input>. Type /ai help for modes."))
  else if includes runwayModes sub && RUNWAY_API_KEY env then
    try_catch
      (out <- call Runway (runway w) ;;
       match out with
       | None => ret (Text (withPrefix "Runway returned no output yet."))
       | Some o =>
           if sub =? "t2i" then ret (Photo o (withPrefix input))
           else ret (Video o (withPrefix input))
       end)
      (fun e => ret (Text (withPrefix ("Runway media error: " ++ message e))))
  else if includes repModes sub && media_REPLICATE_API_KEY env then
    try_catch
      (if negb (media_repModel env) then
         ret (Text (withPrefix "Replicate model not set for this mode."))
       else
         c <- call ReplicateCreate (media_repCreate w) ;;
         match id c with
         | Some _ =>
             say (Text (withPrefix
                    "Started job on Replicate, polling until done..."))
                 (media_started w) ;;
             polled <- call ReplicatePoll (media_repPoll w) ;;
             match or_else (safeFirst (output polled)) None with
             | None => ret (Text (withPrefix
                 "Replicate finished but produced no output."))
             | Some out => ret (send_replicate_output sub out input)
             end
         | None =>
             match or_else (safeFirst (created_output c)) None with
             | Some out => ret (send_replicate_output sub out input)
             | None => ret (Text (withPrefix
                 "Replicate started job; check dashboard."))
             end
         end)
      (fun e => ret (Text (withPrefix
         ("Replicate media error: " ++ message e))))
  else
    r <- (if sub =? "t2i" then t2i_fallback env w input else ret None) ;;
    match r with
    | Some m => ret m
    | None => ret (Text (withPrefix
        "No provider configured for that media mode or provider returned no output."))
    end.

(** The media branch: the message it hands to [ctx.reply] (or
    [replyWithPhoto], ...), and what it did before. *)
Definition media (env : media_env) (w : media_world) (sub input : string)
  : result answer_msg * trace :=
  handler (media_body env w sub input) [].

End Handlers.

(** How the promise of the handler settles.  The last send is returned
    without [await] (lines 494, 634, 697, ...), so neither [catch] sees
    its rejection: the handler settles as that send does.  [sent m] is
    how the send of [m] settles. *)
Definition settle (sent : answer_msg -> result unit)
  (r : result answer_msg * trace) : result unit :=
  match fst r with
  | Ok m => sent m
  | Throw e => Throw e
  end.

(** The reply the chat branch ends with when no provider answered. *)
Definition last_resort (w : chat_world) : answer_msg :=
  Text (withPrefix (wiki w ++ nl ++ nl ++ "Duck summary:" ++ nl ++ duck w)).








(** The calls a trace holds, in order. *)
Definition calls (t : trace) : list callee :=
  flat_map (fun e => match e with Call f => [f] | _ => [] end) t.

(** The warnings a trace holds, in order. *)
Definition warnings (t : trace) : list (string * string) :=
  flat_map (fun e => match e with Warn tag msg => [(tag, msg)] | _ => [] end) t.

(** ** A fallback chain in the words of the specification *)










End Chain.

(* ------------------------------------------------------------------ *)
(** * Sample inputs *)
(* ------------------------------------------------------------------ *)

Module Sample.
Import Eff Replicate Notifier.
Local Open Scope string_scope.

Definition stringify (res : payload) : string := "{}".

(** [{status: 'processing', progress: p}] *)
Definition running_at (p : string) : payload :=
  mkPayload "processing" (Some (JS.decimal p)) None None [].

(** [{status: 'processing'}] *)
Definition quiet : payload := mkPayload "processing" None None None [].

(** [{status: 'processing', logs: [..., line]}] *)
Definition logging (earlier : list string) (line : string) : payload :=
  mkPayload "processing" None None
    (Some (List.map (fun l => LogString (JS.lit l)) earlier
           ++ [LogString (JS.lit line)])%list) [].

(** [{status: 'succeeded', output: ['https://out/1.png']}] *)
Definition succeeded : payload :=
  mkPayload "succeeded" None None None ["https://out/1.png"].

(** [{status: 'failed'}] *)
Definition failed : payload := mkPayload "failed" None None None [].

(** An invocation at time [t] whose send and edit both succeed, a send
    resolving to the message with id [id]. *)
Definition delivering (t id : Z) : world :=
  mkWorld t (Ok (mkMessage id)) (Ok tt).


(** The polling script that fetches the payloads of [ticks] at their
    clock readings and hands each invocation its world. *)
Definition polling (ticks : list (world * payload)) : list (tick world) :=
  List.map (fun t => mkTick (now (fst t)) (Ok (snd t)) (fst t)) ticks.

End Sample.

(* ------------------------------------------------------------------ *)
(** * What a polling run and a notifier leave behind *)
(* ------------------------------------------------------------------ *)

Module PollTrace.
Import Eff Replicate.

(** The store a callback leaves after the first [k] ticks of a script:
    it is applied, in order, to each payload that was fetched. *)
Definition notified {W St} (cb : option (callback W St))
  (ticks : list (tick W)) (s : St) : St :=
  fold_left (fun st t => match fetched t with
                         | Ok res => notify cb (cb_world t) res st
                         | Throw _ => st
                         end) ticks s.

(** A tick that lets the loop go on to the next one. *)
Definition continuing {W} (timeout start : Z) (t : tick W) : Prop :=
  before_deadline timeout start t /\ keeps_polling t.

End PollTrace.

Module NotifierCount.
Import Eff Notifier.

(** The messages sent as new messages, and the edits that were
    rejected. *)
Definition new_messages (tr : list event) : nat :=
  List.length (filter (fun e => match e with
                                | Reply _ (Ok _) => true
                                | _ => false
                                end) tr).
Definition failed_edits (tr : list event) : nat :=
  List.length (filter (fun e => match e with
                                | EditMessageText _ _ (Throw _) => true
                                | _ => false
                                end) tr).
End NotifierCount.

(* ------------------------------------------------------------------ *)
(** * Invocations of the notifier that overlap *)
(* ------------------------------------------------------------------ *)

Module Overlap.
Import Eff Replicate Notifier.

(** The poller calls [onProgress(res)] and does not await it (line
    209).  An invocation runs to its first [await], the send or the
    edit it starts, and goes on when that call settles, which can be
    after later invocations have started: those read the variables as
    the suspended one left them. *)

(** What a suspended invocation waits for, with the [percent] it goes
    on with. *)
Inductive awaited :=
| FirstSend (percent : option JS.number)          (* line 265 *)
| Edit (target : Z) (percent : option JS.number)  (* line 270 *)
| FallbackSend (percent : option JS.number).      (* line 273 *)

(** The variables of the closure, the suspended invocations by their
    number, the number of invocations so far, and what has settled. *)
Record state := mkState {
  closure : vars;
  suspended : list (nat * awaited);
  invoked : nat;
  log : list event
}.

(** What happens to a notifier: it is invoked, or the send or the edit
    of its invocation number [k] settles. *)
Inductive occurrence :=
| Invoke (now : Z) (res : payload)
| SendSettles (k : nat) (r : result Message)
| EditSettles (k : nat) (r : result unit).

Definition waiting_for (k : nat) (s : state) : option awaited :=
  match find (fun p => Nat.eqb (fst p) k) (suspended s) with
  | Some p => Some (snd p)
  | None => None
  end.

Definition resumed (k : nat) (s : state) : list (nat * awaited) :=
  filter (fun p => negb (Nat.eqb (fst p) k)) (suspended s).

(** [if (typeof percent === 'number') lastPercent = percent] *)
Definition bump (percent : option JS.number) (v : vars) : vars :=
  match percent with
  | Some p => set_lastPercent p v
  | None => v
  end.

(** One occurrence.  An invocation runs lines 233 to 265 or 270 at
    once; a settling send or edit runs the rest of its invocation, up to
    the next [await] or the end.  A settlement nothing waits for changes
    nothing. *)
Definition occur (o : occurrence) (s : state) : state :=
  match o with
  | Invoke now res =>
      let percent := extractPercent res in
      let v := closure s in
      if shouldUpdate v percent now then
        mkState (set_lastSentTime now v)
          (suspended s
           ++ [(invoked s,
                match progressMsg v with
                | None => FirstSend percent
                | Some m => Edit (message_id m) percent
                end)])
          (S (invoked s)) (log s)
      else mkState v (suspended s) (S (invoked s)) (log s)
  | SendSettles k r =>
      match waiting_for k s with
      | Some (FirstSend percent) =>
          match r with
          | Ok sent =>
              mkState (bump percent (set_progressMsg sent (closure s)))
                (resumed k s) (invoked s)
                (log s ++ [Reply (Processing percent) (Ok sent)])
          | Throw e =>
              mkState (closure s) (resumed k s) (invoked s)
                (log s ++ [Reply (Processing percent) (Throw e);
                           Warn (message e)])
          end
      | Some (FallbackSend percent) =>
          match r with
          | Ok sent =>
              mkState (bump percent (closure s)) (resumed k s) (invoked s)
                (log s ++ [Reply (Processing percent) (Ok sent)])
          | Throw e =>
              mkState (closure s) (resumed k s) (invoked s)
                (log s ++ [Reply (Processing percent) (Throw e);
                           Warn (message e)])
          end
      | _ => s
      end
  | EditSettles k r =>
      match waiting_for k s with
      | Some (Edit target percent) =>
          match r with
          | Ok u =>
              mkState (bump percent (closure s)) (resumed k s) (invoked s)
                (log s ++ [EditMessageText target (Processing percent) (Ok u)])
          | Throw e =>
              mkState (closure s) (resumed k s ++ [(k, FallbackSend percent)])
                (invoked s)
                (log s ++ [EditMessageText target (Processing percent)
                             (Throw e)])
          end
      | _ => s
      end
  end.

Definition run (schedule : list occurrence) (s : state) : state :=
  fold_left (fun st o => occur o st) schedule s.

(** The percent a suspended invocation goes on with. *)
Definition percent_of (a : awaited) : option JS.number :=
  match a with
  | FirstSend p | Edit _ p | FallbackSend p => p
  end.

(** A notifier with nothing suspended, before its invocation [k]. *)
Definition idle (k : nat) (s : store) : state := mkState (fst s) [] k (snd s).

(** The schedule in which the edit and the send of every invocation
    settle before the next invocation: what [world] says of each. *)
Fixpoint in_turn (k : nat) (ticks : list (world * payload))
  : list occurrence :=
  match ticks with
  | [] => []
  | (w, res) :: rest =>
      Invoke (now w) res :: EditSettles k (edit w) :: SendSettles k (reply w)
      :: in_turn (S k) rest
  end.

(** The run from the variables [v] in which every invocation settles
    in turn. *)
Definition settling (ticks : list (world * payload)) (v : vars) : state :=
  run (in_turn 0 ticks) (idle 0 (v, [])).

(** A message is recorded, no suspended invocation is about to record
    another, and every suspended edit is aimed at it. *)
Definition settled_on (m : Message) (s : state) : Prop :=
  progressMsg (closure s) = Some m /\
  Forall (fun p => match snd p with
                   | FirstSend _ => False
                   | Edit target _ => target = message_id m
                   | FallbackSend _ => True
                   end) (suspended s).

(** The suspended invocations that wait for a fallback send. *)
Definition fallbacks (s : state) : nat :=
  List.length (filter (fun p => match snd p with
                                | FallbackSend _ => true
                                | _ => false
                                end) (suspended s)).

(** The known percents a run shows when its invocations settle in
    turn, each with the clock reading of its invocation. *)
Fixpoint shown (ticks : list (world * payload)) (v : vars)
  : list (Z * JS.number) :=
  match ticks with
  | [] => []
  | (w, res) :: rest =>
      List.map (fun p => (now w, p)) (emitted_percents (snd (step w res v)))
      ++ shown rest (fst (step w res v))
  end.

(** The second percent is at least 5 above the first, or comes at least
    15000 ms after it. *)
Definition spaced (a b : Z * JS.number) : Prop :=
  PrimFloat.leb MIN_DELTA (snd b - snd a)%float = true \/
  MIN_INTERVAL_MS <= fst b - fst a.

End Overlap.

(* ------------------------------------------------------------------ *)
(** * String operations of the command handler *)
(* ------------------------------------------------------------------ *)

Module Text.
Import JS.

Definition space : char := 32%N.

(** [s.split(sep)] for a one-character separator: the pieces between
    the separators, empty pieces included; never an empty array. *)
Fixpoint split (sep : char) (s : jsstring) : list jsstring :=
  match s with
  | [] => [[]]
  | c :: s' =>
      if (c =? sep)%N then [] :: split sep s'
      else match split sep s' with
           | piece :: rest => (c :: piece) :: rest
           | [] => [[c]]
           end
  end.

(** [arr.join(sep)] *)
Fixpoint join (sep : char) (arr : list jsstring) : jsstring :=
  match arr with
  | [] => []
  | [x] => x
  | x :: rest => x ++ sep :: join sep rest
  end.

(** [s.trimStart()], [s.trimEnd()], [s.trim()]: white space and line
    terminators are removed, the same characters as [\s]. *)
Fixpoint trimStart (s : jsstring) : jsstring :=
  match s with
  | c :: s' => if is_space c then trimStart s' else s
  | [] => []
  end.
Definition trimEnd (s : jsstring) : jsstring := rev (trimStart (rev s)).
Definition trim (s : jsstring) : jsstring := trimEnd (trimStart s).

(** [s === t] on strings. *)
Fixpoint eqb (s t : jsstring) : bool :=
  match s, t with
  | [], [] => true
  | a :: s', b :: t' => (a =? b)%N && eqb s' t'
  | _, _ => false
  end.

(** The truthiness of a string. *)
Definition truthy (s : jsstring) : bool :=
  match s with [] => false | _ :: _ => true end.

(** [withPrefix(txt)] on code units. *)
Definition withPrefix (txt : jsstring) : jsstring :=
  lit "Belaynish" ++ [10%N; 10%N] ++ txt.

End Text.

(* ------------------------------------------------------------------ *)
(** * The conversation memory *)
(* ------------------------------------------------------------------ *)

Module Memory.
Import Eff JS.

(** One remembered message, [{role, content}]. *)
Record entry := mkEntry { role : jsstring; content : jsstring }.
Definition history := list entry.

(** The two stores: the Redis database (text under a key) and the
    in-process [memCache] (a history under a key).  Entries are taken
    not to expire between the calls that are looked at ([MEMORY_TTL]
    is not modelled); [memCache] hands out copies, so a history read
    from it is a value of its own. *)
Record stores := mkStores {
  redis_db : jsstring -> option jsstring;
  memCache : jsstring -> option history;
  warnings : list (string * string)
}.

Definition update {V} (f : jsstring -> option V) (k : jsstring) (v : option V)
  : jsstring -> option V :=
  fun k' => if Text.eqb k k' then v else f k'.

(** [`memory:${chatId}`] *)
Definition key_of (chatId : jsstring) : jsstring := lit "memory:" ++ chatId.

Section Functions.

(** [usingRedis && redis] *)
Variable usingRedis : bool.
(** [JSON.stringify] and [JSON.parse] on histories; parsing may throw.
    A stored text that parses to something other than an array of
    entries is outside the model. *)
Variable JSON_stringify : history -> jsstring.
Variable JSON_parse : jsstring -> result history.

(** A Redis command either is carried out or is rejected: [down] is the
    error of a rejected one (connection lost, server error). *)
Definition redis_get (down : option Error) (key : jsstring)
  : M stores (option jsstring) :=
  fun s => match down with
           | Some e => (Throw e, s)
           | None => (Ok (redis_db s key), s)
           end.

Definition redis_set (down : option Error) (key value : jsstring)
  : M stores unit :=
  fun s => match down with
           | Some e => (Throw e, s)
           | None => (Ok tt, mkStores (update (redis_db s) key (Some value))
                                      (memCache s) (warnings s))
           end.

Definition redis_del (down : option Error) (key : jsstring) : M stores unit :=
  fun s => match down with
           | Some e => (Throw e, s)
           | None => (Ok tt, mkStores (update (redis_db s) key None)
                                      (memCache s) (warnings s))
           end.

Definition cache_get (key : jsstring) : M stores (option history) :=
  fun s => (Ok (memCache s key), s).
Definition cache_set (key : jsstring) (h : history) : M stores unit :=
  fun s => (Ok tt, mkStores (redis_db s) (update (memCache s) key (Some h))
                            (warnings s)).
Definition cache_del (key : jsstring) : M stores unit :=
  fun s => (Ok tt, mkStores (redis_db s) (update (memCache s) key None)
                            (warnings s)).

Definition console_warn (tag : string) (e : Error) : M stores unit :=
  fun s => (Ok tt, mkStores (redis_db s) (memCache s)
                            (warnings s ++ [(tag, message e)])).

Local Open Scope eff_scope.

(** [x || []] *)
Definition or_empty (x : option history) : history :=
  match x with Some h => h | None => [] end.

(** [getMemory(chatId)]; [None] from the [try] block stands for falling
    out of it after the [catch]. *)
Definition getMemory (down : option Error) (chatId : jsstring)
  : M stores history :=
  let key := key_of chatId in
  r <- (if usingRedis then
          try_catch
            (v <- redis_get down key ;;
             match v with
             | Some (c :: t) => h <- await (JSON_parse (c :: t)) ;; ret (Some h)
             | _ => ret (Some [])
             end)
            (fun e => console_warn "Redis get failed:" e ;; ret None)
        else ret None) ;;
  match r with
  | Some h => ret h
  | None => v <- cache_get key ;; ret (or_empty v)
  end.

(** [saveMemory(chatId, history)] *)
Definition saveMemory (down : option Error) (chatId : jsstring) (h : history)
  : M stores unit :=
  let key := key_of chatId in
  done <- (if usingRedis then
             try_catch
               (redis_set down key (JSON_stringify h) ;; ret true)
               (fun e => console_warn "Redis set failed:" e ;; ret false)
           else ret false) ;;
  if done then ret tt else cache_set key h.

(** [clearMemory(chatId)] *)
Definition clearMemory (down : option Error) (chatId : jsstring)
  : M stores unit :=
  let key := key_of chatId in
  done <- (if usingRedis then
             try_catch
               (redis_del down key ;; ret true)
               (fun e => console_warn "Redis del failed:" e ;; ret false)
           else ret false) ;;
  if done then ret tt else cache_del key.

(** The memory part of the chat branch: the history is read, the prompt
    is pushed, the context is built from it, the answer is pushed and
    the history is saved.  [chain context prompt] is the answer the
    provider chain between the two ends with. *)
Definition context_of (mem : history) : jsstring :=
  Text.join 10%N (List.map (fun m => role m ++ lit ": " ++ content m) mem).

Definition chat_turn (down_get down_set : option Error)
  (chain : jsstring -> jsstring -> jsstring) (chatId prompt : jsstring)
  : M stores jsstring :=
  mem <- getMemory down_get chatId ;;
  let mem := mem ++ [mkEntry (lit "user") prompt] in
  let context := context_of mem in
  let answer := chain context prompt in
  let mem := mem ++ [mkEntry (lit "assistant") answer] in
  saveMemory down_set chatId mem ;;
  ret (Text.withPrefix answer).

(** What a read that Redis answers resolves to, by the text stored. *)
Definition stored (v : option jsstring) (h : history) : Prop :=
  match v with
  | Some (c :: t) => JSON_parse (c :: t) = Ok h
  | _ => h = []
  end.

(** Redis is not in use, or it carries out the two commands. *)
Definition healthy (down1 down2 : option Error) : Prop :=
  usingRedis = false \/ (down1 = None /\ down2 = None).

(** The text written for a history reads back as the history. *)
Definition readable (h : history) : Prop :=
  JSON_stringify h <> [] /\ JSON_parse (JSON_stringify h) = Ok h.

End Functions.

Definition empty : stores := mkStores (fun _ => None) (fun _ => None) [].

End Memory.

(* ------------------------------------------------------------------ *)
(** * Calling a Hugging Face Space *)
(* ------------------------------------------------------------------ *)

Module HfSpace.
Import Eff JS Text.
Local Open Scope eff_scope.

(** The body of a response, [resp.data]: an object with its [data]
    array (the elements as [String] renders them) and its
    [generated_text], a string, or anything else. *)
Inductive response :=
| Json (data : option (list jsstring)) (generated_text : option jsstring)
| Plain (s : jsstring)
| Other.

(** [spaceUrl.replace(/\/$/, '')] *)
Definition strip_slash (url : jsstring) : jsstring :=
  match rev url with
  | c :: r => if (c =? 47)%N then rev r else url
  | [] => url
  end.

(** What the three [if]s of the loop body return on a response;
    [None] when none of them fires. *)
Definition output_of (r : response) : option jsstring :=
  match r with
  | Json (Some (x :: _)) _ => Some x
  | Json _ (Some (c :: t)) => Some (c :: t)
  | Plain (c :: t) => Some (c :: t)
  | _ => None
  end.

(** The requests made, by URL, in order. *)
Definition requests := list jsstring.

Definition axios_post (post : jsstring -> result response) (url : jsstring)
  : M requests response :=
  modify (fun t : requests => t ++ [url]) ;; await (post url).

Definition candidates (base : jsstring) : list jsstring :=
  [base ++ lit "/run/predict"; base ++ lit "/api/predict"; base].

(** The [for] loop over the candidates and the [throw] after it. *)
Fixpoint try_each (post : jsstring -> result response) (urls : list jsstring)
  : M requests jsstring :=
  match urls with
  | [] => await (Throw (mkError "HF Space did not return output"))
  | url :: rest =>
      r <- try_catch (resp <- axios_post post url ;; ret (output_of resp))
                     (fun _ => ret None) ;;
      match r with
      | Some out => ret out
      | None => try_each post rest
      end
  end.

(** [callHfSpace(prompt, spaceUrl)]; [post url] is how the request to
    [url] settles. *)
Definition callHfSpace (post : jsstring -> result response)
  (spaceUrl : option jsstring) : M requests jsstring :=
  match spaceUrl with
  | Some (c :: u) => try_each post (candidates (strip_slash (c :: u)))
  | _ => await (Throw (mkError "HF_SPACE_URL not configured"))
  end.

(** The candidate answers: its request resolves to a response that
    holds an output. *)
Definition answers (post : jsstring -> result response) (url : jsstring)
  (out : jsstring) : Prop :=
  exists resp, post url = Ok resp /\ output_of resp = Some out.

Definition unusable (post : jsstring -> result response) (url : jsstring)
  : Prop :=
  match post url with
  | Ok resp => output_of resp = None
  | Throw _ => True
  end.

End HfSpace.

(* ------------------------------------------------------------------ *)
(** * The [/ai] command: parsing and the small branches *)
(* ------------------------------------------------------------------ *)

Module Command.
Import Eff JS Text.
Local Open Scope eff_scope.

(** The typing indicator ([showTyping], [withTyping]) swallows its own
    errors and changes nothing of what the handler computes; it is left
    out.  A reply is the text handed to [ctx.reply]. *)

(** [ctx.message?.text || ''], trimmed *)
Definition raw_of (text : option jsstring) : jsstring :=
  trim (match text with Some t => t | None => [] end).

(** [raw.split(' ').slice(1)] *)
Definition parts_of (text : option jsstring) : list jsstring :=
  tl (split space (raw_of text)).

(** [parts.slice(1).join(' ').trim()] *)
Definition rest_of (parts : list jsstring) : jsstring :=
  trim (join space (tl parts)).

(** [parts.slice(2).join(' ')] *)
Definition tail_of (parts : list jsstring) : jsstring :=
  join space (skipn 2 parts).

(** [!parts[1]]: absent or empty *)
Definition second (parts : list jsstring) : option jsstring :=
  match nth_error parts 1 with
  | Some (c :: t) => Some (c :: t)
  | _ => None
  end.

(** The branch of the handler a message is answered by. *)
Inductive branch :=
| Usage | Help | Chat | Wiki | Duck | Translate | Tts | Media
| ReplicateDirect | Post | ClearMemory | ExportMemory | Unknown.

Section Parsing.

Variable toLowerCase : jsstring -> jsstring.

Definition dispatch (text : option jsstring) : branch :=
  match parts_of text with
  | [] => Usage
  | p0 :: _ =>
      let mode := toLowerCase p0 in
      if eqb mode (lit "help") then Help
      else if eqb mode (lit "chat") then Chat
      else if eqb mode (lit "wiki") then Wiki
      else if eqb mode (lit "duck") then Duck
      else if eqb mode (lit "translate") then Translate
      else if eqb mode (lit "tts") then Tts
      else if eqb mode (lit "media") then Media
      else if eqb mode (lit "replicate") then ReplicateDirect
      else if eqb mode (lit "post") then Post
      else if eqb mode (lit "clear_memory") then ClearMemory
      else if eqb mode (lit "export_memory") then ExportMemory
      else Unknown
  end.

(** ** [/ai chat]: the model name and the prompt *)

(** [HF_MODEL_MAP[key]] is truthy. *)
Variable HF_MODEL_MAP : jsstring -> bool.

Inductive chat_request :=
| ChatUsage          (* 'Provide prompt: /ai chat [model] <prompt>' *)
| ChatNoPrompt       (* 'Provide prompt after model name.' *)
| ChatPrompt (modelKey prompt : jsstring).

Definition chat_request_of (rest : jsstring) : chat_request :=
  if negb (truthy rest) then ChatUsage
  else
    let tokens := split space rest in
    let '(modelKey, prompt) :=
      if (1 <? List.length tokens)%nat
         && HF_MODEL_MAP (toLowerCase (hd [] tokens))
      then (toLowerCase (hd [] tokens), join space (tl tokens))
      else (lit "llama2", rest) in
    if negb (truthy prompt) then ChatNoPrompt
    else ChatPrompt modelKey prompt.

(** ** [/ai translate] *)

(** [translateUnofficial(text, to)]; [lib] is how the library call
    settles, to [r.text] when it resolves. *)
Definition translateUnofficial (lib : jsstring -> jsstring -> result jsstring)
  (text to : jsstring) : jsstring :=
  match lib text to with
  | Ok t => t
  | Throw _ => text
  end.

(** The language and the text the branch hands on. *)
Definition translate_args (rest : jsstring) : jsstring * jsstring :=
  let toks := split space rest in
  if (1 <? List.length toks)%nat && (List.length (hd [] toks) <=? 3)%nat
  then (hd [] toks, join space (tl toks))
  else (lit "en", rest).

(** The reply of the translate branch. *)
Definition translate (lib : jsstring -> jsstring -> result jsstring)
  (rest : jsstring) : jsstring :=
  if negb (truthy rest) then
    withPrefix (lit "Usage: /ai translate [lang] <text>")
  else
    let '(to, text) := translate_args rest in
    withPrefix (translateUnofficial lib text to).

End Parsing.

(** ** The admin commands *)

(** The truthiness of a number. *)
Definition truthy_number (x : number) : bool :=
  negb (is_nan x) && negb (PrimFloat.eqb x 0).

(** [ADMIN_IDS.includes(x)] compares as [===] does, but for [NaN]. *)
Definition includes (ids : list number) (x : number) : bool :=
  existsb (fun y => PrimFloat.eqb x y || (is_nan x && is_nan y)) ids.

Section Admin.

(** [OWNER_ID] is [null] or a number; [ADMIN_IDS] an array of numbers. *)
Variable OWNER_ID : option number.
Variable ADMIN_IDS : list number.

Definition isAdmin (userId : number) : bool :=
  if negb (truthy_number userId) then false
  else if match OWNER_ID with
          | Some owner => truthy_number owner && PrimFloat.eqb userId owner
          | None => false
          end
  then true
  else includes ADMIN_IDS userId.

(** What the admin commands act on: the memory, and the messages sent
    with [bot.telegram.sendMessage], by channel. *)
Record bot_state := mkBot {
  memory : Memory.stores;
  posted : list (jsstring * jsstring)
}.

Definition on_memory {A} (m : M Memory.stores A) : M bot_state A :=
  fun s => let (r, st) := m (memory s) in (r, mkBot st (posted s)).

(** [await bot.telegram.sendMessage(channel, text, ...)], rejected with
    [failure] when that is an error. *)
Definition sendMessage (failure : option Error) (channel text : jsstring)
  : M bot_state unit :=
  fun s => match failure with
           | Some e => (Throw e, s)
           | None => (Ok tt, mkBot (memory s) (posted s ++ [(channel, text)]))
           end.

Variable usingRedis : bool.
Variable JSON_stringify : Memory.history -> jsstring.
Variable JSON_parse : jsstring -> result Memory.history.
(** [String(x)] *)
Variable String_of : number -> jsstring.

Definition admin_only : jsstring := withPrefix (lit "Admin only command.").

(** The [post] branch; the result is the text replied. *)
Definition post (failure : option Error) (userId : number)
  (parts : list jsstring) : M bot_state jsstring :=
  if negb (isAdmin userId) then ret admin_only
  else
    let message := tail_of parts in
    match second parts with
    | Some channel =>
        if negb (truthy message) then
          ret (withPrefix
            (lit "Usage: /ai post <@channel_or_channelusername> <message>"))
        else
          try_catch
            (sendMessage failure channel (withPrefix message) ;;
             ret (withPrefix (lit "Posted to " ++ channel)))
            (fun e => ret (withPrefix
               (lit "Failed to post: " ++ lit (Eff.message e))))
    | None =>
        ret (withPrefix
          (lit "Usage: /ai post <@channel_or_channelusername> <message>"))
    end.

(** [parts[1] || String(ctx.from.id)] *)
Definition target_of (userId : number) (parts : list jsstring) : jsstring :=
  match second parts with
  | Some t => t
  | None => String_of userId
  end.

(** The [clear_memory] branch. *)
Definition clear_memory (down : option Error) (userId : number)
  (parts : list jsstring) : M bot_state jsstring :=
  if negb (isAdmin userId) then ret admin_only
  else
    let target := target_of userId parts in
    on_memory (Memory.clearMemory usingRedis down target) ;;
    ret (withPrefix (lit "Cleared memory for " ++ target)).

(** The [export_memory] branch. *)
Definition export_memory (down : option Error) (userId : number)
  (parts : list jsstring) : M bot_state jsstring :=
  if negb (isAdmin userId) then ret admin_only
  else
    let target := target_of userId parts in
    mem <- on_memory (Memory.getMemory usingRedis JSON_parse down target) ;;
    ret (withPrefix (lit "Memory for " ++ target ++ lit ":" ++ [10%N]
                     ++ firstn 4000 (JSON_stringify mem))).

End Admin.

End Command.

(* ------------------------------------------------------------------ *)
(** * [/ai tts] and [/ai replicate] *)
(* ------------------------------------------------------------------ *)

Module Speech.
Import Eff Replicate.
Local Open Scope eff_scope.
Local Open Scope string_scope.

Inductive callee :=
| ElevenTTS         (* elevenTTS *)
| ReplicateCreate   (* callReplicateCreate *)
| ReplicatePoll.    (* pollReplicatePrediction *)

Inductive reply :=
| Voice (audio : string)   (* ctx.replyWithVoice *)
| Text (s : string).       (* ctx.reply *)

Inductive event :=
| Call (f : callee)
| Warn (tag msg : string).

Definition trace := list event.

Definition call {A} (f : callee) (r : result A) : M trace A :=
  modify (fun t : trace => (t ++ [Call f])%list) ;; await r.

Definition console_warn (tag : string) (e : Error) : M trace unit :=
  modify (fun t : trace => (t ++ [Warn tag (message e)])%list).










End Speech.

Module Direct.
Import Eff Replicate Chain.
Local Open Scope eff_scope.
Local Open Scope string_scope.

(** How each call settles if it is made; [direct_started] is the
    awaited send of the 'Replicate job started' text (line 647). *)
Record direct_world := mkDirectWorld {
  direct_repCreate : result created;
  direct_repPoll : result payload;
  direct_started : result unit
}.

(** [safeFirst(arr) || alt] *)
Definition first_or (arr : list string) (alt : string) : string :=
  match safeFirst arr with
  | Some s => if truthy s then s else alt
  | None => alt
  end.

Section Branch.

Variable JSON_stringify : payload -> string.
Variable JSON_stringify_created : created -> string.
(** [process.env[name]], when it is set. *)
Variable process_env : string -> option string.

Definition usage : answer_msg :=
  Text (withPrefix "Usage: /ai replicate <ENV_VAR_NAME> <prompt>").

(** The body of the replicate branch; [repEnv] is [parts[1]] and
    [promptText] the rest of the command. *)
Definition replicate_body (w : direct_world) (repEnv : option string)
  (promptText : string) : M trace answer_msg :=
  match repEnv with
  | None => ret usage
  | Some name =>
      if negb (truthy name) || negb (truthy promptText) then ret usage
      else
        match or_else (process_env name) None with
        | None => ret (Text (withPrefix
            ("No replicate model found in env as " ++ name)))
        | Some _ =>
            try_catch
              (c <- call ReplicateCreate (direct_repCreate w) ;;
               match id c with
               | Some _ =>
                   say (Text (withPrefix
                          "Replicate job started, polling until done..."))
                       (direct_started w) ;;
                   polled <- call ReplicatePoll (direct_repPoll w) ;;
                   ret (Text (withPrefix
                     (first_or (output polled) (JSON_stringify polled))))
               | None =>
                   match or_else (safeFirst (created_output c)) None with
                   | Some out => ret (Text (withPrefix out))
                   | None => ret (Text (withPrefix
                       ("Replicate responded: "
                        ++ substring 0 3000 (JSON_stringify_created c))))
                   end
               end)
              (fun e => ret (Text (withPrefix
                 ("Replicate error: " ++ message e))))
        end
  end.

(** The replicate branch: the message whose send the handler returns
    (lines 641, 643, 651, 653, 655, 658, without [await]), and what it
    did before; [settle] gives how the handler's promise settles. *)
Definition replicate (w : direct_world) (repEnv : option string)
  (promptText : string) : result answer_msg * trace :=
  handler (replicate_body w repEnv promptText) [].

End Branch.

(** The job fails with [e]: the creation is rejected, or the prediction
    is created with an id and the send of the 'job started' text is
    rejected, or that send goes through and polling throws. *)
Definition direct_fails (w : direct_world) (e : Error) : Prop :=
  direct_repCreate w = Throw e \/
  (exists c i, direct_repCreate w = Ok c /\ id c = Some i /\
     (direct_started w = Throw e \/
      (direct_started w = Ok tt /\ direct_repPoll w = Throw e))).

End Direct.

(* ------------------------------------------------------------------ *)
(** * Sample text functions *)
(* ------------------------------------------------------------------ *)

Module SampleText.
Import JS.

(** [toLowerCase] on the letters A to Z; other code units are kept. *)
Definition lower (s : jsstring) : jsstring :=
  List.map (fun c => if (65 <=? c)%N && (c <=? 90)%N then (c + 32)%N else c) s.

End SampleText.

(* ================================================================== *)
(** * Properties *)
(* ================================================================== *)

Import Eff.
Open Scope list_scope.

(* ------------------------------------------------------------------ *)
(** ** The pattern matcher *)
(* ------------------------------------------------------------------ *)

Section RegexFacts.
Import JS.

Lemma run_spec p s : forall n,
  (n <= run p s)%nat <->
  (n <= List.length s)%nat /\ forallb p (firstn n s) = true.
Proof.
  induction s as [|c s IH]; intros n.
  - cbn. split.
    + intros H. assert (n = 0%nat) by lia. subst. auto.
    + intros [H _]. exact H.
  - destruct n as [|n].
    + cbn. split; [intros _; split; [lia | reflexivity] | lia].
    + cbn [run firstn forallb List.length]. destruct (p c); cbn [andb].
      * rewrite <- Nat.succ_le_mono, IH. rewrite <- Nat.succ_le_mono. tauto.
      * split; [lia | intros [_ H]; discriminate H].
Qed.

Lemma descend_sound {A} (f : nat -> option A) lo k : forall r,
  descend f lo k = Some r ->
  exists n, (lo <= n <= lo + k)%nat /\ f n = Some r.
Proof.
  induction k as [|k IH]; intros r H; cbn [descend] in H.
  - destruct (f (lo + 0)%nat) eqn:E; [|discriminate H].
    injection H as <-. exists (lo + 0)%nat. split; [lia | exact E].
  - destruct (f (lo + S k)%nat) eqn:E.
    + injection H as <-. exists (lo + S k)%nat. split; [lia | exact E].
    + destruct (IH r H) as [n [Hn Hf]]. exists n. split; [lia | exact Hf].
Qed.

Lemma descend_complete {A} (f : nat -> option A) lo k : forall n r,
  (lo <= n <= lo + k)%nat -> f n = Some r ->
  exists r', descend f lo k = Some r'.
Proof.
  induction k as [|k IH]; intros n r Hn Hf; cbn [descend].
  - assert (n = (lo + 0)%nat) by lia. subst. rewrite Hf. eauto.
  - destruct (f (lo + S k)%nat) eqn:E; [eauto|].
    apply (IH n r); [|exact Hf].
    assert (n <> (lo + S k)%nat) by (intros ->; congruence). lia.
Qed.

Lemma match_here_sound re : forall s c c',
  match_here re s c = Some c' -> matches re s c c'.
Proof.
  induction re as [|it re IH]; intros s c c' H; cbn [match_here] in H.
  - injection H as <-. constructor.
  - destruct (_ <? lo it)%nat eqn:E; [discriminate H|].
    apply Nat.ltb_ge in E.
    apply descend_sound in H. destruct H as [n [Hn Hf]].
    assert (Hrun : (n <= run (cls it) s)%nat /\
                   forall h, hi it = Some h -> (n <= h)%nat).
    { destruct (hi it) as [h|].
      - split; [lia|]. intros h' [= <-]. lia.
      - split; [lia|]. intros h' [=]. }
    destruct Hrun as [Hrun Hhi]. apply run_spec in Hrun.
    destruct Hrun as [Hlen Hall].
    apply (matches_item it re s c c' n);
      [lia | exact Hhi | exact Hlen | exact Hall | apply IH, Hf].
Qed.

Lemma match_here_complete re : forall s c c',
  matches re s c c' -> exists c'', match_here re s c = Some c''.
Proof.
  induction re as [|it re IH]; intros s c c' H; inversion H; subst;
    cbn [match_here].
  - eauto.
  - match goal with
    | Hm : matches re _ _ _ |- _ => destruct (IH _ _ _ Hm) as [c'' Hc]
    end.
    assert (Hrun : (n <= run (cls it) s)%nat) by (apply run_spec; auto).
    set (most := match hi it with
                 | Some h => Nat.min h (run (cls it) s)
                 | None => run (cls it) s
                 end).
    assert (Hmost : (n <= most)%nat).
    { subst most. destruct (hi it) as [h|] eqn:Eh; [|exact Hrun].
      match goal with Hh : forall h, _ = Some h -> _ |- _ =>
        specialize (Hh h eq_refl) end. lia. }
    destruct (most <? lo it)%nat eqn:E.
    + apply Nat.ltb_lt in E. lia.
    + apply (descend_complete _ (lo it) (most - lo it) n c''); [lia | exact Hc].
Qed.

(** [regex_match] finds a match exactly when there is one. *)
Lemma regex_match_sound re s : forall c,
  regex_match re s = Some c -> occurs re s c.
Proof.
  induction s as [|a s IH]; intros c H; cbn [regex_match] in H.
  - destruct (match_here re [] []) eqn:E; [|discriminate H].
    injection H as <-. exists 0%nat. split; [cbn; lia|].
    apply match_here_sound, E.
  - destruct (match_here re (a :: s) []) eqn:E.
    + injection H as <-. exists 0%nat. split; [cbn; lia|].
      apply match_here_sound, E.
    + destruct (IH c H) as [k [Hk Hm]]. exists (S k).
      split; [cbn; lia | exact Hm].
Qed.

Lemma regex_match_complete re s : forall c,
  occurs re s c -> exists c', regex_match re s = Some c'.
Proof.
  induction s as [|a s IH]; intros c [k [Hk Hm]]; cbn [regex_match].
  - assert (k = 0%nat) by (cbn in Hk; lia). subst. cbn [skipn] in Hm.
    destruct (match_here_complete _ _ _ _ Hm) as [c' ->]. eauto.
  - destruct (match_here re (a :: s) []) eqn:E; [eauto|].
    destruct k as [|k].
    + destruct (match_here_complete _ _ _ _ Hm) as [c' Hc].
      cbn [skipn] in Hc. congruence.
    + apply (IH c). exists k. split; [cbn in Hk; lia | exact Hm].
Qed.

(** The match it finds is the leftmost one. *)
Lemma regex_match_leftmost re s : forall c,
  regex_match re s = Some c -> first_occurrence re s c.
Proof.
  induction s as [|a s IH]; intros c H; cbn [regex_match] in H.
  - destruct (match_here re [] []) as [c0|] eqn:E; [|discriminate H].
    injection H as <-. exists 0%nat.
    split; [cbn; lia | split; [apply match_here_sound, E | intros n c' Hn; lia]].
  - destruct (match_here re (a :: s) []) as [c0|] eqn:E.
    + injection H as <-. exists 0%nat.
      split; [cbn; lia | split; [apply match_here_sound, E | intros n c' Hn; lia]].
    + destruct (IH c H) as [k (Hk & Hm & Hleft)]. exists (S k).
      split; [cbn; lia | split; [exact Hm|]].
      intros n c' Hn Hc. destruct n as [|n'].
      * destruct (match_here_complete _ _ _ _ Hc) as [c'' Hc''].
        cbn [skipn] in Hc''. congruence.
      * apply (Hleft n' c'); [lia | exact Hc].
Qed.

Lemma first_occurrence_occurs re s c :
  first_occurrence re s c -> occurs re s c.
Proof. intros [k (Hk & Hm & _)]. exists k. auto. Qed.

Lemma regex_match_none re s :
  regex_match re s = None <-> forall c, ~ occurs re s c.
Proof.
  split.
  - intros H c Hc. destruct (regex_match_complete _ _ _ Hc) as [c' E].
    congruence.
  - intros H. destruct (regex_match re s) eqn:E; [|reflexivity].
    exfalso. exact (H _ (regex_match_sound _ _ _ E)).
Qed.

End RegexFacts.

(* ------------------------------------------------------------------ *)
(** ** The polling loop *)
(* ------------------------------------------------------------------ *)

Section PollerFacts.
Import Replicate.

Variable TIMEOUT : Z.
Variable stringify : payload -> string.


Lemma in_flight_status (res : payload) :
  in_flight res = true ->
  (status res =? "succeeded")%string = false /\
  (status res =? "failed")%string = false.
Proof.
  unfold in_flight. intros H.
  apply andb_true_iff in H. destruct H as [H1 H2].
  apply negb_true_iff in H1. apply negb_true_iff in H2. auto.
Qed.

Lemma deadline_passed_false (start now : Z) :
  now - start <= TIMEOUT * 1000 ->
  deadline_passed TIMEOUT start now = false.
Proof. intros H. unfold deadline_passed. apply Z.ltb_ge. exact H. Qed.

Lemma deadline_passed_true (start now : Z) :
  TIMEOUT * 1000 < now - start ->
  deadline_passed TIMEOUT start now = true.
Proof. intros H. unfold deadline_passed. apply Z.ltb_lt. exact H. Qed.

Section WithCallback.
Context {W St : Type}.
Variable cb : option (callback W St).

(** One iteration over an in-flight payload read before the deadline
    moves on to the rest of the script. *)
Lemma loop_in_flight start (t : tick W) rest s n res :
  deadline_passed TIMEOUT start (clock t) = false ->
  fetched t = Ok res -> in_flight res = true ->
  poll_loop TIMEOUT stringify cb start (t :: rest) s n
  = poll_loop TIMEOUT stringify cb start rest (notify cb (cb_world t) res s) (S n).
Proof.
  intros Hd Hf Hi. cbn [poll_loop]. rewrite Hd, Hf.
  destruct (in_flight_status res Hi) as [-> ->]. reflexivity.
Qed.

(** A run over in-flight ticks ends at the first tick past the
    deadline, before any fetch of that iteration. *)
Lemma loop_deadline start pre : forall (t : tick W) post s n,
  Forall keeps_polling pre ->
  TIMEOUT * 1000 < clock t - start ->
  result_of (fst (poll_loop TIMEOUT stringify cb start (pre ++ t :: post) s n)) = Thrown timed_out /\
  (fetches (fst (poll_loop TIMEOUT stringify cb start (pre ++ t :: post) s n)) <= n + List.length pre)%nat.
Proof.
  induction pre as [|u pre IH]; intros t post s n Hpre Ht.
  - cbn [app poll_loop]. rewrite (deadline_passed_true _ _ Ht).
    cbn. split; [reflexivity | lia].
  - inversion Hpre as [|? ? [res [Hf Hi]] Hrest]; subst.
    cbn [app]. destruct (deadline_passed TIMEOUT start (clock u)) eqn:Hd.
    + cbn [poll_loop]. rewrite Hd. cbn. split; [reflexivity | lia].
    + rewrite (loop_in_flight _ _ _ _ _ _ Hd Hf Hi).
      destruct (IH t post (notify cb (cb_world u) res s) (S n) Hrest Ht)
        as [H1 H2].
      split; [exact H1 | cbn [List.length]; lia].
Qed.

(** A run over in-flight ticks read before the deadline ends at the
    first failing fetch, with that error, the callback's store being
    what the earlier ticks left. *)
Lemma loop_fetch_error start pre : forall (t : tick W) post s n e,
  Forall (fun u => before_deadline TIMEOUT start u /\ keeps_polling u) pre ->
  before_deadline TIMEOUT start t ->
  fetched t = Throw e ->
  poll_loop TIMEOUT stringify cb start (pre ++ t :: post) s n
  = (mkRun (Thrown e) (S (n + List.length pre)),
     snd (poll_loop TIMEOUT stringify cb start pre s n)).
Proof.
  induction pre as [|u pre IH]; intros t post s n e Hpre Hd Hf.
  - cbn [app poll_loop]. rewrite (deadline_passed_false _ _ Hd), Hf.
    cbn. f_equal. f_equal. lia.
  - inversion Hpre as [|? ? [Hu [res [Hfu Hi]]] Hrest]; subst.
    cbn [app].
    rewrite !(loop_in_flight _ _ _ _ _ _ (deadline_passed_false _ _ Hu) Hfu Hi).
    rewrite (IH t post _ (S n) e Hrest Hd Hf).
    cbn [List.length]. f_equal. f_equal. lia.
Qed.

(** Every unsuccessful ending is one of three: the deadline, an explicit
    [failed] status, or a failed fetch. *)
Lemma loop_thrown start script : forall s n e,
  result_of (fst (poll_loop TIMEOUT stringify cb start script s n)) = Thrown e ->
  e = timed_out \/
  (exists t res, In t script /\ fetched t = Ok res /\
                 status res = "failed"%string /\ e = job_failed stringify res) \/
  (exists t, In t script /\ fetched t = Throw e).
Proof.
  induction script as [|t rest IH]; intros s n e H.
  - discriminate H.
  - cbn [poll_loop] in H.
    destruct (deadline_passed TIMEOUT start (clock t)).
    + cbn in H. injection H as <-. left. reflexivity.
    + destruct (fetched t) as [res|e'] eqn:Hf.
      * destruct (status res =? "succeeded")%string; [discriminate H|].
        destruct (status res =? "failed")%string eqn:Hs.
        -- cbn in H. injection H as <-. right. left.
           exists t, res. apply String.eqb_eq in Hs.
           repeat split; auto. left. reflexivity.
        -- destruct (IH _ _ _ H) as [H1 | [(t' & res' & Hin & H2) | (t' & Hin & H2)]].
           ++ left. exact H1.
           ++ right. left. exists t', res'. split; [right; exact Hin | exact H2].
           ++ right. right. exists t'. split; [right; exact Hin | exact H2].
      * cbn in H. injection H as <-. right. right.
        exists t. split; [left; reflexivity | exact Hf].
Qed.

End WithCallback.

(** The run does not depend on the callback: whatever it does to its
    store and whether or not it throws, the loop goes on to the status
    check. *)
Lemma loop_ignores_callback {W St1 St2 : Type}
  (cb1 : option (callback W St1)) (cb2 : option (callback W St2))
  start script : forall s1 s2 n,
  fst (poll_loop TIMEOUT stringify cb1 start script s1 n) = fst (poll_loop TIMEOUT stringify cb2 start script s2 n).
Proof.
  induction script as [|t rest IH]; intros s1 s2 n.
  - reflexivity.
  - cbn [poll_loop].
    destruct (deadline_passed TIMEOUT start (clock t)); [reflexivity|].
    destruct (fetched t) as [res|e]; [|reflexivity].
    destruct (status res =? "succeeded")%string; [reflexivity|].
    destruct (status res =? "failed")%string; [reflexivity|].
    apply IH.
Qed.

End PollerFacts.

(* ------------------------------------------------------------------ *)
(** ** The notifier *)
(* ------------------------------------------------------------------ *)

Section NotifierFacts.
Import Replicate Notifier.

(** [onProgress] never throws, only appends to the trace, and agrees
    with [step]. *)
Lemma onProgress_step w res v tr :
  onProgress w res (v, tr)
  = (Ok tt, (fst (step w res v), tr ++ snd (step w res v))).
Proof.
  unfold onProgress, onProgress_body, step, ctx_reply, editMessageText,
    console_warn, emit, write, read, modify, await, ret, try_catch, bind.
  cbn [fst snd].
  destruct (shouldUpdate v (extractPercent res) (now w)); cbn [negb fst snd].
  2: { rewrite app_nil_r. reflexivity. }
  destruct (progressMsg v) as [m|]; cbn [fst snd].
  - destruct (edit w) as [[]|e]; cbn [fst snd].
    + destruct (extractPercent res); reflexivity.
    + destruct (reply w) as [sent|e']; cbn [fst snd];
        rewrite <- ?app_assoc; cbn [app].
      * destruct (extractPercent res); reflexivity.
      * reflexivity.
  - destruct (reply w) as [sent|e]; cbn [fst snd];
      rewrite <- ?app_assoc; cbn [app].
    + destruct (extractPercent res); reflexivity.
    + reflexivity.
Qed.

(** A run from a store with a trace is the run from the empty trace,
    behind that trace. *)
Lemma feed_trace ticks : forall v tr,
  feed ticks (v, tr)
  = (fst (feed ticks (v, [])), tr ++ snd (feed ticks (v, []))).
Proof.
  induction ticks as [|[w res] rest IH]; intros v tr.
  - cbn. rewrite app_nil_r. reflexivity.
  - cbn [feed]. rewrite !onProgress_step. cbn [snd fst app].
    rewrite (IH _ (tr ++ _)), (IH _ (snd (step w res v))).
    cbn [fst snd]. rewrite app_assoc. reflexivity.
Qed.

Lemma feed_cons w res rest v :
  feed ((w, res) :: rest) (v, [])
  = (fst (feed rest (fst (step w res v), [])),
     snd (step w res v) ++ snd (feed rest (fst (step w res v), []))).
Proof.
  cbn [feed]. rewrite onProgress_step. cbn [snd fst app].
  apply feed_trace.
Qed.

(** While the prediction is in flight and the deadline has not passed,
    the polling loop feeds its payloads to the notifier one by one. *)
Lemma poll_feeds_notifier timeout stringify start ticks : forall s n,
  Forall (fun t => in_flight (snd t) = true /\
                   now (fst t) - start <= timeout * 1000) ticks ->
  poll_loop timeout stringify (Some onProgress) start (Sample.polling ticks) s n
  = (mkRun Pending (n + List.length ticks), feed ticks s).
Proof.
  induction ticks as [|[w res] rest IH]; intros s n H.
  - cbn. rewrite Nat.add_0_r. reflexivity.
  - inversion H as [|? ? [Hi Hd] Hrest]; subst. cbn [fst snd] in Hi, Hd.
    cbn [Sample.polling List.map fst snd].
    rewrite (loop_in_flight timeout stringify (Some onProgress) start
               (mkTick (now w) (Ok res) w) _ s n res
               (deadline_passed_false timeout start (now w) Hd)
               eq_refl Hi).
    fold (Sample.polling rest). rewrite (IH _ (S n) Hrest).
    cbn [notify cb_world feed List.length]. f_equal. f_equal. lia.
Qed.

End NotifierFacts.

Section NotifierInvariants.
Import Replicate Notifier.

Lemma notifications_app a b :
  notifications (a ++ b) = notifications a ++ notifications b.
Proof. unfold notifications. apply flat_map_app. Qed.

Lemma emitted_percents_app a b :
  emitted_percents (a ++ b) = emitted_percents a ++ emitted_percents b.
Proof.
  unfold emitted_percents. rewrite notifications_app. apply flat_map_app.
Qed.

(** One invocation shows the requester at most one text, the one for the
    percent of its payload, and only when the emission test passes. *)
Lemma step_notifications w res v :
  notifications (snd (step w res v)) = [] \/
  (shouldUpdate v (extractPercent res) (now w) = true /\
   notifications (snd (step w res v)) = [Processing (extractPercent res)]).
Proof.
  unfold step.
  destruct (shouldUpdate v (extractPercent res) (now w)); [|left; reflexivity].
  destruct (progressMsg v) as [m|].
  - destruct (edit w) as [u|e].
    + right. split; reflexivity.
    + destruct (reply w) as [sent|e']; [right; split; reflexivity | left; reflexivity].
  - destruct (reply w) as [sent|e]; [right; split; reflexivity | left; reflexivity].
Qed.

Lemma step_emitted_percents w res v :
  emitted_percents (snd (step w res v)) = [] \/
  exists p, extractPercent res = Some p /\
            emitted_percents (snd (step w res v)) = [p].
Proof.
  unfold emitted_percents.
  destruct (step_notifications w res v) as [-> | [_ ->]]; [left; reflexivity|].
  destruct (extractPercent res) as [p|]; [right; exists p; split; reflexivity|].
  left. reflexivity.
Qed.

(** An unknown percent leaves [lastPercent] alone. *)
Lemma step_unknown_lastPercent w res v :
  extractPercent res = None ->
  lastPercent (fst (step w res v)) = lastPercent v.
Proof.
  intros H. unfold step. rewrite H.
  destruct (shouldUpdate v None (now w)); [|reflexivity].
  destruct (progressMsg v); [destruct (edit w)|]; destruct (reply w); reflexivity.
Qed.

(** A recorded message is never replaced. *)
Lemma step_progressMsg_kept w res v m :
  progressMsg v = Some m -> progressMsg (fst (step w res v)) = Some m.
Proof.
  intros H. unfold step. rewrite H.
  destruct (shouldUpdate v (extractPercent res) (now w)); [|exact H].
  destruct (edit w); [|destruct (reply w)];
    destruct (extractPercent res); exact H.
Qed.



Lemma edit_targets_app a b :
  edit_targets (a ++ b) = edit_targets a ++ edit_targets b.
Proof. unfold edit_targets. apply flat_map_app. Qed.


(** What the run emits is drawn, in order, from what the payloads
    carry. *)
Lemma emitted_among_known ticks : forall v p,
  In p (emitted_percents (snd (feed ticks (v, [])))) ->
  In p (known_percents ticks).
Proof.
  induction ticks as [|[w res] rest IH]; intros v p H.
  - destruct H.
  - rewrite feed_cons in H. cbn [snd] in H.
    rewrite emitted_percents_app in H. apply in_app_or in H.
    unfold known_percents. cbn [flat_map snd]. apply in_or_app.
    destruct H as [H|H].
    + left. destruct (step_emitted_percents w res v) as [E | [q [Hq E]]];
        rewrite E in H; [destruct H|]. rewrite Hq. exact H.
    + right. exact (IH _ _ H).
Qed.

Lemma emitted_sorted (R : JS.number -> JS.number -> Prop) ticks : forall v,
  StronglySorted R (known_percents ticks) ->
  StronglySorted R (emitted_percents (snd (feed ticks (v, [])))).
Proof.
  induction ticks as [|[w res] rest IH]; intros v H.
  - constructor.
  - rewrite feed_cons. cbn [snd]. rewrite emitted_percents_app.
    unfold known_percents in H. cbn [flat_map snd] in H.
    destruct (step_emitted_percents w res v) as [E | [q [Hq E]]]; rewrite E.
    + cbn [app]. apply IH.
      destruct (extractPercent res); [|exact H].
      inversion H; assumption.
    + rewrite Hq in H. cbn [app] in H. inversion H as [|? ? Hs Hall]; subst.
      cbn [app]. constructor; [apply IH, Hs|].
      apply Forall_forall. intros x Hx.
      apply emitted_among_known in Hx.
      rewrite Forall_forall in Hall. exact (Hall x Hx).
Qed.

End NotifierInvariants.

Section NotifierCounting.
Import Replicate Notifier.





End NotifierCounting.

(* ------------------------------------------------------------------ *)
(** ** Invocations that overlap *)
(* ------------------------------------------------------------------ *)

Section OverlapFacts.
Import Replicate Notifier NotifierCount Overlap.

Lemma new_messages_app a b :
  new_messages (a ++ b) = (new_messages a + new_messages b)%nat.
Proof. unfold new_messages. rewrite filter_app, length_app. reflexivity. Qed.

Lemma failed_edits_app a b :
  failed_edits (a ++ b) = (failed_edits a + failed_edits b)%nat.
Proof. unfold failed_edits. rewrite filter_app, length_app. reflexivity. Qed.

Lemma run_app a b s : run (a ++ b) s = run b (run a s).
Proof. unfold run. apply fold_left_app. Qed.

Lemma waiting_for_single k a j tr v :
  waiting_for k (mkState v [(k, a)] j tr) = Some a.
Proof. unfold waiting_for. cbn. now rewrite Nat.eqb_refl. Qed.

Lemma resumed_single k a j tr v :
  resumed k (mkState v [(k, a)] j tr) = [].
Proof. unfold resumed. cbn. now rewrite Nat.eqb_refl. Qed.

(** An invocation whose edit and send settle before anything else
    happens is one [step]. *)
Lemma in_turn_step w res k v tr :
  run [Invoke (now w) res; EditSettles k (edit w); SendSettles k (reply w)]
      (idle k (v, tr))
  = idle (S k) (fst (step w res v), tr ++ snd (step w res v)).
Proof.
  unfold run, idle, step. cbn [fold_left occur fst snd closure suspended invoked log app].
  destruct (shouldUpdate v (extractPercent res) (now w)).
  2: { cbn. unfold idle. now rewrite app_nil_r. }
  destruct (progressMsg v) as [m|].
  - rewrite waiting_for_single.
    destruct (edit w) as [u|e].
    + rewrite resumed_single. cbn [closure suspended invoked log].
      unfold waiting_for. cbn. unfold bump.
      destruct (extractPercent res); reflexivity.
    + rewrite resumed_single. cbn [closure suspended invoked log app].
      rewrite waiting_for_single, resumed_single.
      destruct (reply w) as [sent|e']; cbn [closure suspended invoked log fst snd];
        unfold bump; rewrite <- ?app_assoc;
        destruct (extractPercent res); reflexivity.
  - rewrite waiting_for_single. cbn [closure suspended invoked log].
    rewrite waiting_for_single, resumed_single.
    destruct (reply w) as [sent|e]; cbn [closure suspended invoked log fst snd];
      unfold bump; destruct (extractPercent res); reflexivity.
Qed.

(** The run of the schedule in which every invocation settles in turn
    is [feed]. *)
Lemma run_in_turn ticks : forall k s,
  run (in_turn k ticks) (idle k s)
  = idle (k + List.length ticks) (feed ticks s).
Proof.
  induction ticks as [|[w res] rest IH]; intros k [v tr].
  - cbn. now rewrite Nat.add_0_r.
  - change (in_turn k ((w, res) :: rest))
      with ([Invoke (now w) res; EditSettles k (edit w); SendSettles k (reply w)]
            ++ in_turn (S k) rest).
    rewrite run_app, in_turn_step, IH. cbn [feed List.length].
    rewrite onProgress_step. cbn [snd]. f_equal. lia.
Qed.

Lemma waiting_for_In k a s :
  waiting_for k s = Some a -> In (k, a) (suspended s).
Proof.
  unfold waiting_for. destruct (find _ (suspended s)) as [[j b]|] eqn:E;
    [|discriminate].
  intros [= <-]. apply find_some in E. destruct E as [Hin Hk].
  cbn in Hk. apply Nat.eqb_eq in Hk. now subst.
Qed.

Lemma fallbacks_resumed k s v j tr :
  (fallbacks (mkState v (resumed k s) j tr) <= fallbacks s)%nat.
Proof.
  unfold fallbacks, resumed. cbn [suspended].
  induction (suspended s) as [|[i a] l IH]; [cbn; lia|].
  cbn [filter fst snd]. destruct (negb (i =? k)%nat); cbn [filter snd];
    destruct a; cbn [List.length]; lia.
Qed.

Lemma fallbacks_resumed_fallback k p s v j tr :
  waiting_for k s = Some (FallbackSend p) ->
  (S (fallbacks (mkState v (resumed k s) j tr)) <= fallbacks s)%nat.
Proof.
  unfold fallbacks, resumed, waiting_for. cbn [suspended].
  induction (suspended s) as [|[i a] l IH]; [discriminate|].
  cbn [find filter fst snd].
  destruct (i =? k)%nat eqn:E; cbn [negb].
  - intros [= ->]. cbn [filter snd List.length].
    pose proof (fallbacks_resumed k (mkState v l j tr) v j tr) as H.
    unfold fallbacks, resumed in H. cbn [suspended] in H. lia.
  - intros H. specialize (IH H). cbn [filter snd].
    destruct a; cbn [List.length]; lia.
Qed.

Lemma fallbacks_snoc v l j tr k a :
  fallbacks (mkState v (l ++ [(k, a)]) j tr)
  = (fallbacks (mkState v l j tr)
     + match a with FallbackSend _ => 1 | _ => 0 end)%nat.
Proof.
  unfold fallbacks. cbn [suspended]. rewrite filter_app, length_app.
  destruct a; reflexivity.
Qed.

Lemma settled_resumed m k s v j tr :
  progressMsg v = Some m ->
  settled_on m s -> settled_on m (mkState v (resumed k s) j tr).
Proof.
  intros Hv [_ H]. split; [exact Hv|]. unfold resumed. cbn [suspended].
  rewrite Forall_forall in *. intros x Hx. apply filter_In in Hx.
  apply H, Hx.
Qed.

Lemma bump_progressMsg p v : progressMsg (bump p v) = progressMsg v.
Proof. destruct p; reflexivity. Qed.

Ltac count_events :=
  unfold new_messages, failed_edits; cbn [filter List.length suspended]; lia.

(** With a message recorded and no first send suspended, an occurrence
    leaves the message, aims its edit at it, and sends a new message
    only as a fallback. *)
Lemma occur_settled_on m o s :
  settled_on m s ->
  settled_on m (occur o s) /\
  exists added,
    log (occur o s) = log s ++ added /\
    Forall (eq (message_id m)) (edit_targets added) /\
    (new_messages added + fallbacks (occur o s)
     <= fallbacks s + failed_edits added)%nat.
Proof.
  intros Hs. pose proof Hs as [Hm Hall].
  destruct o as [t res|k r|k r]; cbn [occur].
  - destruct (shouldUpdate (closure s) (extractPercent res) t).
    + rewrite Hm. split.
      * split; [exact Hm|]. cbn [suspended]. apply Forall_app. split; [exact Hall|].
        constructor; [reflexivity|constructor].
      * exists []. rewrite app_nil_r. cbn [log]. split; [reflexivity|].
        split; [constructor|]. rewrite fallbacks_snoc.
        unfold fallbacks at 1. cbn [suspended]. fold (fallbacks s). count_events.
    + split; [exact Hs|]. exists []. rewrite app_nil_r. cbn [log].
      split; [reflexivity|]. split; [constructor|].
      unfold fallbacks. count_events.
  - destruct (waiting_for k s) as [[p|target p|p]|] eqn:Ew.
    + exfalso. apply waiting_for_In in Ew. rewrite Forall_forall in Hall.
      exact (Hall _ Ew).
    + split; [exact Hs|]. exists []. rewrite app_nil_r.
      split; [reflexivity|]. split; [constructor|]. count_events.
    + destruct r as [sent|e].
      * split; [apply settled_resumed; [now rewrite bump_progressMsg|exact Hs]|].
        eexists. cbn [log]. split; [reflexivity|]. split; [constructor|].
        pose proof (fallbacks_resumed_fallback k p s
                      (bump p (closure s)) (invoked s)
                      (log s ++ [Reply (Processing p) (Ok sent)]) Ew).
        count_events.
      * split; [apply settled_resumed; [exact Hm|exact Hs]|].
        eexists. cbn [log]. split; [reflexivity|]. split; [constructor|].
        pose proof (fallbacks_resumed_fallback k p s (closure s) (invoked s)
                      (log s ++ [Reply (Processing p) (Throw e);
                                 Warn (message e)]) Ew).
        count_events.
    + split; [exact Hs|]. exists []. rewrite app_nil_r.
      split; [reflexivity|]. split; [constructor|]. count_events.
  - destruct (waiting_for k s) as [[p|target p|p]|] eqn:Ew.
    + split; [exact Hs|]. exists []. rewrite app_nil_r.
      split; [reflexivity|]. split; [constructor|]. count_events.
    + assert (Ht : target = message_id m).
      { apply waiting_for_In in Ew. rewrite Forall_forall in Hall.
        exact (Hall _ Ew). }
      destruct r as [u|e].
      * split; [apply settled_resumed; [now rewrite bump_progressMsg|exact Hs]|].
        eexists. cbn [log]. split; [reflexivity|].
        split; [cbn; constructor; [now rewrite Ht|constructor]|].
        pose proof (fallbacks_resumed k s (bump p (closure s)) (invoked s)
                      (log s ++ [EditMessageText target (Processing p) (Ok u)])).
        count_events.
      * split.
        -- split; [exact Hm|]. cbn [suspended]. apply Forall_app. split.
           ++ apply (settled_resumed m k s (closure s) (invoked s) (log s) Hm Hs).
           ++ constructor; [exact I|constructor].
        -- eexists. cbn [log]. split; [reflexivity|].
           split; [cbn; constructor; [now rewrite Ht|constructor]|].
           rewrite fallbacks_snoc.
           pose proof (fallbacks_resumed k s (closure s) (invoked s)
                         (log s ++ [EditMessageText target (Processing p)
                                      (Throw e)])).
           count_events.
    + split; [exact Hs|]. exists []. rewrite app_nil_r.
      split; [reflexivity|]. split; [constructor|]. count_events.
    + split; [exact Hs|]. exists []. rewrite app_nil_r.
      split; [reflexivity|]. split; [constructor|]. count_events.
Qed.

Lemma run_settled_on m schedule : forall s,
  settled_on m s ->
  settled_on m (run schedule s) /\
  exists added,
    log (run schedule s) = log s ++ added /\
    Forall (eq (message_id m)) (edit_targets added) /\
    (new_messages added + fallbacks (run schedule s)
     <= fallbacks s + failed_edits added)%nat.
Proof.
  induction schedule as [|o rest IH]; intros s Hs.
  - split; [exact Hs|]. exists []. rewrite app_nil_r.
    split; [reflexivity|]. split; [constructor|].
    change (run [] s) with s. count_events.
  - destruct (occur_settled_on m o s Hs) as (H1 & a1 & L1 & T1 & N1).
    destruct (IH _ H1) as (H2 & a2 & L2 & T2 & N2).
    change (run (o :: rest) s) with (run rest (occur o s)).
    split; [exact H2|]. exists (a1 ++ a2).
    split; [now rewrite L2, L1, app_assoc|].
    split.
    + rewrite edit_targets_app. apply Forall_app. now split.
    + rewrite new_messages_app, failed_edits_app. lia.
Qed.

Lemma settling_feed ticks v :
  closure (settling ticks v) = fst (feed ticks (v, [])) /\
  log (settling ticks v) = snd (feed ticks (v, [])) /\
  suspended (settling ticks v) = [].
Proof. unfold settling. rewrite run_in_turn. now repeat split. Qed.


Lemma settling_single w res v :
  closure (settling [(w, res)] v) = fst (step w res v) /\
  log (settling [(w, res)] v) = snd (step w res v).
Proof.
  unfold settling. cbn [in_turn]. rewrite in_turn_step. now split.
Qed.

(** What one invocation that settles at once does, by cases. *)
Lemma step_cases w res v :
  (shouldUpdate v (extractPercent res) (now w) = false /\
   step w res v = (v, [])) \/
  (shouldUpdate v (extractPercent res) (now w) = true /\
   lastSentTime (fst (step w res v)) = now w /\
   ((exists p, extractPercent res = Some p /\
               notifications (snd (step w res v)) = [Processing (Some p)] /\
               emitted_percents (snd (step w res v)) = [p] /\
               lastPercent (fst (step w res v)) = p) \/
    (emitted_percents (snd (step w res v)) = [] /\
     lastPercent (fst (step w res v)) = lastPercent v))).
Proof.
  unfold step.
  destruct (shouldUpdate v (extractPercent res) (now w)); [right|left; auto].
  split; [reflexivity|].
  destruct (progressMsg v) as [m|]; [destruct (edit w) as [u|e]|];
    try destruct (reply w) as [sent|e'];
    destruct (extractPercent res) as [p|]; cbn;
    (split; [reflexivity|]); try (right; split; reflexivity);
    left; exists p; repeat split; reflexivity.
Qed.

Lemma shown_emitted ticks : forall v,
  List.map snd (shown ticks v) = emitted_percents (snd (feed ticks (v, []))).
Proof.
  induction ticks as [|[w res] rest IH]; intros v; [reflexivity|].
  rewrite feed_cons. cbn [shown snd]. rewrite map_app, emitted_percents_app, IH.
  f_equal. rewrite map_map. cbn [snd]. apply map_id.
Qed.

(** Each percent shown is at least 5 above the one shown before it, or
    comes at least 15000 ms after it. *)
Lemma shown_spaced ticks : forall v t0,
  t0 <= lastSentTime v ->
  Forall (fun t => lastSentTime v <= now (fst t)) ticks ->
  clock_monotone ticks ->
  HdRel spaced (t0, lastPercent v) (shown ticks v) /\
  Sorted spaced (shown ticks v).
Proof.
  induction ticks as [|[w res] rest IH]; intros v t0 H0 Hf Hm.
  - split; constructor.
  - inversion Hf as [|? ? Hw Hrest]; subst. cbn [fst] in Hw.
    inversion Hm as [|? ? Hm1 Hm2]; subst. cbn [fst] in Hm2.
    cbn [shown].
    destruct (step_cases w res v)
      as [[Hn E] | (Hs & Ht & [(p & Hp & _ & Ep & El) | (Ep & El)])].
    + rewrite E. cbn [fst snd emitted_percents notifications flat_map List.map app].
      apply IH; assumption.
    + rewrite Ep. cbn [List.map app].
      destruct (IH (fst (step w res v)) (now w)) as [I1 I2];
        [rewrite Ht; lia | rewrite Ht; exact Hm2 | exact Hm1 |].
      rewrite El in I1.
      split; constructor; [|exact I2|exact I1].
      unfold spaced. cbn [fst snd].
      unfold shouldUpdate in Hs. rewrite Hp in Hs.
      apply orb_true_iff in Hs. destruct Hs as [Hs|Hs]; [left; exact Hs|].
      right. apply Z.leb_le in Hs. lia.
    + rewrite Ep. cbn [List.map app].
      destruct (IH (fst (step w res v)) t0) as [I1 I2];
        [rewrite Ht; lia | rewrite Ht; exact Hm2 | exact Hm1 |].
      rewrite El in I1. now split.
Qed.

(** The throttle: a known percent that is not at least 5 above
    [lastPercent] is held back while fewer than 15000 ms have passed
    since [lastSentTime]. *)
Lemma invoke_held_back s t res p :
  extractPercent res = Some p ->
  PrimFloat.leb MIN_DELTA (p - lastPercent (closure s))%float = false ->
  t - lastSentTime (closure s) < MIN_INTERVAL_MS ->
  occur (Invoke t res) s
  = mkState (closure s) (suspended s) (S (invoked s)) (log s).
Proof.
  intros Hp Hd Ht. cbn [occur]. unfold shouldUpdate. rewrite Hp, Hd.
  cbn [orb]. apply Z.ltb_lt in Ht. rewrite Z.leb_antisym, Ht. reflexivity.
Qed.

(** Once 15000 ms have passed it is emitted, whatever it is, and it
    becomes [lastPercent] when the text is delivered. *)
Lemma step_time_trigger w res v p :
  extractPercent res = Some p ->
  MIN_INTERVAL_MS <= now w - lastSentTime v ->
  existsb is_send (snd (step w res v)) = true /\
  lastSentTime (fst (step w res v)) = now w /\
  (notifications (snd (step w res v)) <> [] ->
   emitted_percents (snd (step w res v)) = [p] /\
   lastPercent (fst (step w res v)) = p).
Proof.
  intros Hp Ht. unfold step, shouldUpdate. rewrite Hp.
  apply Z.leb_le in Ht. rewrite Ht, orb_true_r.
  destruct (progressMsg v) as [m|]; [destruct (edit w) as [u|e]|];
    try destruct (reply w) as [sent|e']; cbn;
    (split; [reflexivity|split; [reflexivity|]]);
    intros H; try (now destruct H); split; reflexivity.
Qed.

(** An invocation never changes [lastPercent] when it starts, and one
    whose percent is unknown does not change it when its send or its
    edit settles. *)
Lemma unknown_leaves_lastPercent s :
  (forall t res,
     lastPercent (closure (occur (Invoke t res) s)) = lastPercent (closure s) /\
     (forall a, In a (List.map snd (suspended (occur (Invoke t res) s))) ->
        In a (List.map snd (suspended s)) \/
        percent_of a = extractPercent res)) /\
  (forall k a,
     waiting_for k s = Some a -> percent_of a = None ->
     (forall r,
        lastPercent (closure (occur (SendSettles k r) s))
        = lastPercent (closure s)) /\
     (forall r,
        lastPercent (closure (occur (EditSettles k r) s))
        = lastPercent (closure s) /\
        (forall b, waiting_for k (occur (EditSettles k r) s) = Some b ->
           percent_of b = None))).
Proof.
  split.
  - intros t res. cbn [occur].
    destruct (shouldUpdate (closure s) (extractPercent res) t);
      cbn [closure suspended]; (split; [reflexivity|]); intros a Ha;
      [|now left].
    rewrite map_app in Ha. apply in_app_or in Ha. destruct Ha as [Ha|Ha];
      [now left|right].
    cbn in Ha. destruct Ha as [<-|[]].
    destruct (progressMsg (closure s)); reflexivity.
  - intros k a Hw Hp. split.
    + intros r. cbn [occur]. rewrite Hw.
      destruct a as [p|target p|p]; cbn in Hp; subst;
        try destruct r; reflexivity.
    + intros r. cbn [occur]. rewrite Hw.
      destruct a as [p|target p|p]; cbn in Hp; subst.
      * split; [reflexivity|]. intros b Hb. rewrite Hw in Hb. now injection Hb as <-.
      * destruct r as [u|e]; cbn [closure]; (split; [reflexivity|]).
        -- intros b Hb. apply waiting_for_In in Hb. cbn [suspended] in Hb.
           unfold resumed in Hb. apply filter_In in Hb. destruct Hb as [_ Hb].
           cbn in Hb. now rewrite Nat.eqb_refl in Hb.
        -- intros b Hb. apply waiting_for_In in Hb. cbn [suspended] in Hb.
           apply in_app_or in Hb. destruct Hb as [Hb|Hb].
           ++ unfold resumed in Hb. apply filter_In in Hb. destruct Hb as [_ Hb].
              cbn in Hb. now rewrite Nat.eqb_refl in Hb.
           ++ cbn in Hb. destruct Hb as [[= <-]|[]]. reflexivity.
      * split; [reflexivity|]. intros b Hb. rewrite Hw in Hb. now injection Hb as <-.
Qed.

End OverlapFacts.

(* ------------------------------------------------------------------ *)
(** ** Percent from a log line *)
(* ------------------------------------------------------------------ *)

Section PercentToken.
Import JS.

(** Items that capture nothing leave the capture as it is. *)
Lemma matches_no_capture re : forall s c c',
  Forall (fun it => cap it = false) re -> matches re s c c' -> c' = c.
Proof.
  induction re as [|it re IH]; intros s c c' Hall H; inversion H; subst.
  - reflexivity.
  - inversion Hall as [|? ? Hc Hrest]; subst.
    match goal with Hm : matches re _ _ _ |- _ =>
      rewrite Hc in Hm; exact (IH _ _ _ Hrest Hm) end.
Qed.

(** The capture of [/(\d{1,3})\s?%/] is one to three digits. *)
Lemma percent_capture s d :
  occurs re_percent s d ->
  forallb is_digit d = true /\ (1 <= List.length d <= 3)%nat.
Proof.
  intros [k [_ H]]. unfold re_percent in H.
  inversion H as [|it re s' c c' n Hlo Hhi Hlen Hall Hm]; subst.
  cbn [cap cls lo hi] in *.
  apply matches_no_capture in Hm; [|repeat constructor]. subst d.
  split; [exact Hall|].
  specialize (Hhi 3%nat eq_refl).
  rewrite length_firstn. lia.
Qed.

Lemma span_digits_all d :
  forallb is_digit d = true -> span_digits d = (d, []).
Proof.
  induction d as [|c d IH]; intros H; cbn [span_digits].
  - reflexivity.
  - cbn [forallb] in H. apply andb_true_iff in H. destruct H as [Hc Hd].
    rewrite Hc, (IH Hd). reflexivity.
Qed.

Lemma is_digit_range c : is_digit c = true -> 0 <= digit_val c <= 9.
Proof.
  unfold is_digit, digit_val. intros H. apply andb_true_iff in H.
  destruct H as [H1 H2]. apply N.leb_le in H1. apply N.leb_le in H2. lia.
Qed.

Lemma digits_val_small d :
  forallb is_digit d = true -> (1 <= List.length d <= 3)%nat ->
  0 <= digits_val d <= 999.
Proof.
  intros H L. unfold digits_val.
  destruct d as [|a [|b [|c [|x d]]]]; cbn [List.length] in L; try lia;
    cbn [forallb] in H;
    repeat match goal with
           | H : _ && _ = true |- _ => apply andb_true_iff in H; destruct H
           | H : is_digit _ = true |- _ => apply is_digit_range in H
           end; cbn [fold_left]; lia.
Qed.

(** Capping an integer between 0 and 999 to [0, 100], on numbers. *)
Lemma clamp_of_Z n :
  0 <= n <= 999 ->
  Math_min 100%float (Math_max 0%float (of_Z n)) = of_Z (Z.min 100 n).
Proof.
  intros H. destruct n as [|p|p]; [reflexivity| |lia].
  do 10 (destruct p as [p|p|]; [ | |reflexivity]); try lia.
Qed.

(** The percent a ["NN%"] token gives: its digits, capped at 100. *)
Lemma percent_of_token s d :
  occurs re_percent s d ->
  0 <= digits_val d <= 999 /\
  Math_min 100%float (Math_max 0%float (parseInt d))
  = of_Z (Z.min 100 (digits_val d)).
Proof.
  intros H. destruct (percent_capture s d H) as [Hd Hl].
  assert (B := digits_val_small d Hd Hl). split; [exact B|].
  unfold parseInt. rewrite (span_digits_all d Hd).
  destruct d as [|c d]; [cbn in Hl; lia|].
  apply clamp_of_Z, B.
Qed.

End PercentToken.

(* ------------------------------------------------------------------ *)
(** ** The fallback chains *)
(* ------------------------------------------------------------------ *)

Import Replicate Chain.

Ltac chain_unfold :=
  unfold chat, media, handler, chat_body, media_body, t2i_fallback, call,
    say, console_warn, record, modify, await, ret, try_catch, bind.

Ltac chain_simpl :=
  cbv beta iota zeta delta
    [fst snd no_answer safeFirst or_else andb negb orb
     HF_SPACE_URL HUGGINGFACE_API_KEY hfModelUrl REPLICATE_API_KEY repModel
     RUNWAY_API_KEY media_REPLICATE_API_KEY media_repModel
     STABILITY_KEY PIXABAY_KEY].

(** Split on whatever the evaluation is stuck on. *)
Ltac chain_case :=
  match goal with
  | |- context [match ?x with _ => _ end] =>
      lazymatch x with
      | context [match _ with _ => _ end] => fail
      | _ => destruct x eqn:?
      end
  end.

Ltac chain_eval :=
  chain_unfold; repeat first [ progress chain_simpl | chain_case ].

Section ChainFacts.
Local Open Scope string_scope.

(** The outer [catch] turns whatever a branch throws into a reply. *)
Lemma handler_never_throws body t : exists m, fst (handler body t) = Ok m.
Proof.
  unfold handler, try_catch, ret.
  destruct (body t) as [[m|e] t']; cbn; eauto.
Qed.

Section Chat.
Variable J : payload -> string.







End Chat.







(** ** What a chain in the words of the specification does *)




Section ChainFailures.
Variable J : payload -> string.



End ChainFailures.


(** The handler reaches its returned send, and settles as that send
    does. *)
Lemma handler_settles body t sent :
  exists m, fst (handler body t) = Ok m /\
            settle sent (handler body t) = sent m.
Proof.
  destruct (handler_never_throws body t) as [m Hm].
  exists m. split; [exact Hm|]. unfold settle. now rewrite Hm.
Qed.

End ChainFacts.

(* ================================================================== *)
(** * The claims of the specification *)
(* ================================================================== *)

Import Replicate.
Open Scope string_scope.
Open Scope list_scope.

(* ------------------------------------------------------------------ *)
(** ** C1: a failed status fetch *)
(* ------------------------------------------------------------------ *)

(** C1, as stated, fails: a status fetch that fails is not skipped.  On
    the script "the first fetch is rejected, the second would report
    [succeeded]" the run ends at the first iteration with the fetch error,
    after one fetch; the same script without the failing tick returns the
    prediction. *)
Example fetch_error_is_not_skipped :
  let down := mkTick 1000 (Throw (mkError "socket hang up")) tt in
  let done := mkTick 4000 (Ok Sample.succeeded) tt in
  fst (pollReplicatePrediction 600 Sample.stringify
         (@None (callback unit unit)) 0 [down; done] tt)
  = mkRun (Thrown (mkError "socket hang up")) 1
  /\ fst (pollReplicatePrediction 600 Sample.stringify
            (@None (callback unit unit)) 0 [done] tt)
     = mkRun (Returned Sample.succeeded) 1.
Proof. split; reflexivity. Qed.

(** C1, amended: a status fetch that fails ends the polling run at that
    iteration with the fetch error: the callback is not invoked for it
    and no further fetch is made.  A run ends unsuccessfully only on
    deadline expiry, on an explicit [failed] status, or on a failed
    status fetch. *)
Theorem fetch_error_ends_polling
  (timeout : Z) (stringify : payload -> string) {W St : Type}
  (cb : option (callback W St)) (start : Z)
  (pre : list (tick W)) (t : tick W) (post : list (tick W)) (s : St)
  (e : Error) :
  Forall (fun u => before_deadline timeout start u /\ keeps_polling u) pre ->
  before_deadline timeout start t ->
  fetched t = Throw e ->
  pollReplicatePrediction timeout stringify cb start (pre ++ t :: post) s
  = (mkRun (Thrown e) (S (List.length pre)),
     snd (pollReplicatePrediction timeout stringify cb start pre s))
  /\ forall script s' e',
       result_of (fst (pollReplicatePrediction timeout stringify cb start
                         script s')) = Thrown e' ->
       e' = timed_out \/
       (exists u res, In u script /\ fetched u = Ok res /\
                      status res = "failed" /\ e' = job_failed stringify res) \/
       (exists u, In u script /\ fetched u = Throw e').
Proof.
  intros Hpre Ht He. split.
  - unfold pollReplicatePrediction.
    exact (loop_fetch_error timeout stringify cb start pre t post s 0%nat e
             Hpre Ht He).
  - intros script s' e' H.
    exact (loop_thrown timeout stringify cb start script s' 0%nat e' H).
Qed.

Lemma fetch_error_ends_polling_witness :
  let busy := mkTick 1000 (Ok (Sample.running_at "0.25")) tt in
  let down := mkTick 4000 (Throw (mkError "socket hang up")) tt in
  pollReplicatePrediction 600 Sample.stringify
    (@None (callback unit unit)) 0 ([busy] ++ down :: []) tt
  = (mkRun (Thrown (mkError "socket hang up")) 2,
     snd (pollReplicatePrediction 600 Sample.stringify
            (@None (callback unit unit)) 0 [busy] tt)).
Proof.
  intros busy down.
  refine (proj1 (fetch_error_ends_polling 600 Sample.stringify None 0
                   [busy] down [] tt (mkError "socket hang up") _ _ _)).
  - repeat constructor.
    + unfold before_deadline. cbn. lia.
    + exists (Sample.running_at "0.25"). split; reflexivity.
  - unfold before_deadline. cbn. lia.
  - reflexivity.
Defined.

(* ------------------------------------------------------------------ *)
(** ** C5: the deadline *)
(* ------------------------------------------------------------------ *)

(** C5: a polling run that is still going when the clock, read at the
    top of the loop, shows more than the timeout since the start of
    polling ends with the time-out error, whatever statuses and progress
    the earlier fetches reported; it makes no fetch in that iteration or
    after it.  A run whose iterations each take at least a fixed
    positive time, and whose prediction never reaches a final status,
    does end this way. *)
Theorem deadline_ends_run_with_timeout :
  (forall (timeout : Z) (stringify : payload -> string) (W St : Type)
          (cb : option (callback W St)) (start : Z)
          (pre : list (tick W)) (t : tick W) (post : list (tick W)) (s : St),
     Forall keeps_polling pre ->
     timeout * 1000 < clock t - start ->
     let r := fst (pollReplicatePrediction timeout stringify cb start
                     (pre ++ t :: post) s) in
     result_of r = Thrown timed_out /\ (fetches r <= List.length pre)%nat)
  /\ (forall (timeout : Z) (stringify : payload -> string) (W St : Type)
             (cb : option (callback W St)) (start interval : Z)
             (script : list (tick W)) (s : St),
        0 < interval -> 0 <= timeout ->
        Forall keeps_polling script ->
        advancing interval start script ->
        (Z.to_nat (timeout * 1000 / interval) + 1 < List.length script)%nat ->
        result_of (fst (pollReplicatePrediction timeout stringify cb start
                          script s)) = Thrown timed_out).
Proof.
  split.
  - intros timeout stringify W St cb start pre t post s Hpre Ht.
    exact (loop_deadline timeout stringify cb start pre t post s 0%nat Hpre Ht).
  - intros timeout stringify W St cb start interval script s Hi Ht Hk Ha Hlen.
    set (i := (Z.to_nat (timeout * 1000 / interval) + 1)%nat) in *.
    destruct (nth_error script i) as [t|] eqn:E;
      [|apply nth_error_None in E; lia].
    assert (Hc : timeout * 1000 < clock t - start).
    { specialize (Ha i t E).
      assert (D := Z.mul_succ_div_gt (timeout * 1000) interval Hi).
      assert (P : 0 <= timeout * 1000 / interval)
        by (apply Z.div_pos; lia).
      assert (Z.of_nat i = Z.succ (timeout * 1000 / interval))
        by (subst i; lia).
      nia. }
    destruct (nth_error_split script i E) as (pre & post & -> & Hl).
    apply Forall_app in Hk. destruct Hk as [Hpre _].
    exact (proj1 (loop_deadline timeout stringify cb start pre t post s 0%nat
                    Hpre Hc)).
Qed.

Lemma deadline_ends_run_with_timeout_witness :
  let script := [mkTick 1000 (Ok (Sample.running_at "0.25")) tt;
                 mkTick 300000 (Ok (Sample.running_at "0.5")) tt;
                 mkTick 599000 (Ok (Sample.running_at "0.75")) tt;
                 mkTick 602000 (Ok (Sample.running_at "0.9")) tt;
                 mkTick 605000 (Ok Sample.succeeded) tt] in
  result_of (fst (pollReplicatePrediction 600 Sample.stringify
                    (@None (callback unit unit)) 1000 script tt))
  = Thrown timed_out
  /\ result_of (fst (pollReplicatePrediction 6 Sample.stringify
                       (@None (callback unit unit)) 0
                       [mkTick 0 (Ok Sample.quiet) tt;
                        mkTick 3000 (Ok Sample.quiet) tt;
                        mkTick 6000 (Ok Sample.quiet) tt;
                        mkTick 9000 (Ok Sample.quiet) tt] tt))
     = Thrown timed_out.
Proof.
  intros script. split.
  - refine (proj1 (proj1 deadline_ends_run_with_timeout 600 Sample.stringify
                     unit unit None 1000
                     [mkTick 1000 (Ok (Sample.running_at "0.25")) tt;
                      mkTick 300000 (Ok (Sample.running_at "0.5")) tt;
                      mkTick 599000 (Ok (Sample.running_at "0.75")) tt]
                     (mkTick 602000 (Ok (Sample.running_at "0.9")) tt)
                     [mkTick 605000 (Ok Sample.succeeded) tt] tt _ _)).
    + repeat constructor; eexists; split; reflexivity.
    + cbn. lia.
  - refine (proj2 deadline_ends_run_with_timeout 6 Sample.stringify
              unit unit None 0 3000 _ tt _ _ _ _ _).
    + lia.
    + lia.
    + repeat constructor; eexists; split; reflexivity.
    + intros [|[|[|[|[|i]]]]] t E; cbn in E; try discriminate;
        injection E as <-; cbn; lia.
    + cbn. lia.
Defined.

(* ------------------------------------------------------------------ *)
(** ** C8: failures of the progress callback *)
(* ------------------------------------------------------------------ *)

(** C8: a failure inside the progress callback never aborts polling.
    The run of the polling loop (how it ends, after how many fetches) is
    the same for every two callbacks, whatever either does to its store
    and on whichever ticks it throws, and the same as without a
    callback; a callback that throws on every tick still lets the loop
    reach the [succeeded] status.  The notifier's own [onProgress] never
    throws: a rejected send or edit ends in [console.warn]. *)
Theorem progress_failure_never_aborts_polling :
  (forall (timeout : Z) (stringify : payload -> string) (W St1 St2 : Type)
          (cb1 : option (callback W St1)) (cb2 : option (callback W St2))
          (start : Z) (script : list (tick W)) (s1 : St1) (s2 : St2),
     fst (pollReplicatePrediction timeout stringify cb1 start script s1)
     = fst (pollReplicatePrediction timeout stringify cb2 start script s2))
  /\ (let throwing : callback unit nat :=
        fun _ _ n => (Throw (mkError "boom"), S n) in
      pollReplicatePrediction 600 Sample.stringify (Some throwing) 0
        [mkTick 0 (Ok (Sample.running_at "0.25")) tt;
         mkTick 3000 (Ok Sample.succeeded) tt] 0%nat
      = (mkRun (Returned Sample.succeeded) 2, 2%nat))
  /\ (forall (w : Notifier.world) (res : payload) (s : Notifier.store),
        fst (Notifier.onProgress w res s) = Ok tt).
Proof.
  split; [|split].
  - intros. apply loop_ignores_callback.
  - reflexivity.
  - intros w res [v tr]. rewrite onProgress_step. reflexivity.
Qed.

(* ------------------------------------------------------------------ *)
(** ** C3: the order of the emitted percent values *)
(* ------------------------------------------------------------------ *)

Import Notifier Overlap.

(** C3, as stated, fails: the emitted percent values can go down.  A
    fresh notifier invoked with [{progress: 0.5}], whose send goes
    through, and 15000 ms later with [{progress: 0.2}], whose edit goes
    through, shows 50 and then 20, and [lastPercent] ends at 20. *)
Example lower_percent_is_emitted :
  let schedule :=
    [Invoke 1700000000000 (Sample.running_at "0.5");
     SendSettles 0 (Ok (mkMessage 7));
     Invoke 1700000015000 (Sample.running_at "0.2");
     EditSettles 1 (Ok tt)] in
  emitted_percents (log (run schedule (idle 0 fresh))) = [50%float; 20%float]
  /\ PrimFloat.ltb 20 50 = true
  /\ lastPercent (closure (run schedule (idle 0 fresh))) = 20%float
  /\ suspended (run schedule (idle 0 fresh)) = [].
Proof. repeat split; reflexivity. Qed.

(** C3, amended.  When every invocation's send and edit settle before
    the next invocation ([settling]): the known percent values the
    notifier emits are, in order, among those of the payloads it is
    fed, so they never decrease when those never decrease; and, on a
    clock that does not go back, each emitted percent is at least 5
    above the one emitted before it or comes at least 15000 ms after
    it.  Whatever the invocations in flight: a known percent that is
    not at least 5 above [lastPercent] (a lower one, such as 20 after
    50) is held back while fewer than 15000 ms have passed since the
    last emission (the invocation does nothing); once 15000 ms have
    passed it is emitted whatever it is, and it becomes [lastPercent]
    when the text is delivered.  An invocation whose percent is unknown
    changes [lastPercent] neither when it starts nor when its send or
    edit settles. *)
Theorem emitted_percents_throttled :
  (forall (ticks : list (world * payload)) (v : vars),
     (non_decreasing (known_percents ticks) ->
      non_decreasing (emitted_percents (log (settling ticks v))))
     /\ (forall p, In p (emitted_percents (log (settling ticks v))) ->
                   In p (known_percents ticks))
     /\ emitted_percents (log (settling ticks v))
        = List.map snd (shown ticks v)
     /\ (clock_monotone ticks ->
         Forall (fun t => lastSentTime v <= now (fst t)) ticks ->
         Sorted spaced (shown ticks v)))
  /\ (forall (s : state) (t : Z) (res : payload) (p : JS.number),
        extractPercent res = Some p ->
        PrimFloat.leb MIN_DELTA (p - lastPercent (closure s))%float = false ->
        t - lastSentTime (closure s) < MIN_INTERVAL_MS ->
        occur (Invoke t res) s
        = mkState (closure s) (suspended s) (S (invoked s)) (log s))
  /\ (forall (s : state) (t : Z) (res : payload) (p : JS.number),
        extractPercent res = Some p ->
        MIN_INTERVAL_MS <= t - lastSentTime (closure s) ->
        (exists a,
           suspended (occur (Invoke t res) s)
           = suspended s ++ [(invoked s, a)] /\ percent_of a = Some p) /\
        lastSentTime (closure (occur (Invoke t res) s)) = t)
  /\ (forall (w : world) (res : payload) (v : vars) (p : JS.number),
        extractPercent res = Some p ->
        MIN_INTERVAL_MS <= now w - lastSentTime v ->
        notifications (log (settling [(w, res)] v)) <> [] ->
        emitted_percents (log (settling [(w, res)] v)) = [p] /\
        lastPercent (closure (settling [(w, res)] v)) = p)
  /\ (forall (s : state) (t : Z) (res : payload),
        lastPercent (closure (occur (Invoke t res) s))
        = lastPercent (closure s))
  /\ (forall (s : state) (k : nat) (a : awaited),
        waiting_for k s = Some a -> percent_of a = None ->
        (forall r, lastPercent (closure (occur (SendSettles k r) s))
                   = lastPercent (closure s)) /\
        (forall r, lastPercent (closure (occur (EditSettles k r) s))
                   = lastPercent (closure s) /\
                   (forall b, waiting_for k (occur (EditSettles k r) s) = Some b ->
                              percent_of b = None))).
Proof.
  split; [|split; [|split; [|split; [|split]]]].
  - intros ticks v. destruct (settling_feed ticks v) as (_ & -> & _).
    split; [|split; [|split]].
    + intros H. apply emitted_sorted, H.
    + intros p H. exact (emitted_among_known ticks v p H).
    + symmetry. apply shown_emitted.
    + intros Hm Hf.
      exact (proj2 (shown_spaced ticks v (lastSentTime v) (Z.le_refl _) Hf Hm)).
  - exact invoke_held_back.
  - intros s t res p Hp Ht. cbn [occur]. unfold shouldUpdate. rewrite Hp.
    apply Z.leb_le in Ht. rewrite Ht, orb_true_r.
    cbn [closure suspended]. split; [|reflexivity].
    destruct (progressMsg (closure s)) as [m|]; eexists; split; reflexivity.
  - intros w res v p Hp Ht. destruct (settling_single w res v) as [-> ->].
    exact (proj2 (proj2 (step_time_trigger w res v p Hp Ht))).
  - intros s t res. exact (proj1 (proj1 (unknown_leaves_lastPercent s) t res)).
  - intros s. exact (proj2 (unknown_leaves_lastPercent s)).
Qed.

Lemma emitted_percents_throttled_witness :
  let t0 := 1700000000000 in
  let ticks := [(Sample.delivering t0 7, Sample.running_at "0.2");
                (Sample.delivering (t0 + 3000) 8, Sample.quiet);
                (Sample.delivering (t0 + 6000) 9, Sample.running_at "0.5")] in
  let shown50 := mkState (mkVars 50%float t0 (Some (mkMessage 7))) [] 1
                   [Reply (Processing (Some 50%float)) (Ok (mkMessage 7))] in
  let late := (Sample.delivering (t0 + 15000) 8, Sample.running_at "0.2") in
  let unknown := mkState (mkVars 50%float (t0 + 15000) (Some (mkMessage 7)))
                   [(1%nat, Edit 7 None)] 2 [] in
  (non_decreasing (emitted_percents (log (settling ticks initial))) /\
   Sorted spaced (shown ticks initial))
  /\ occur (Invoke (t0 + 14999) (Sample.running_at "0.2")) shown50
     = mkState (closure shown50) (suspended shown50) 2 (log shown50)
  /\ ((exists a,
         suspended (occur (Invoke (t0 + 15000) (Sample.running_at "0.2")) shown50)
         = suspended shown50 ++ [(1%nat, a)] /\ percent_of a = Some 20%float) /\
      lastSentTime (closure (occur (Invoke (t0 + 15000)
                                      (Sample.running_at "0.2")) shown50))
      = t0 + 15000)
  /\ (emitted_percents (log (settling [late] (closure shown50))) = [20%float] /\
      lastPercent (closure (settling [late] (closure shown50))) = 20%float)
  /\ lastPercent (closure (occur (EditSettles 1 (Ok tt)) unknown)) = 50%float.
Proof.
  intros t0 ticks shown50 late unknown.
  pose proof emitted_percents_throttled as (T1 & T2 & T3 & T4 & _ & T6).
  split; [|split; [|split; [|split]]].
  - destruct (T1 ticks initial) as (A & _ & _ & B). split.
    + apply A. repeat constructor.
    + apply B.
      * repeat constructor; cbn; lia.
      * repeat constructor; cbn; lia.
  - refine (T2 shown50 _ _ 20%float _ _ _); reflexivity.
  - refine (T3 shown50 _ _ 20%float _ _); [reflexivity|].
    vm_compute. discriminate.
  - refine (T4 (Sample.delivering (t0 + 15000) 8) (Sample.running_at "0.2")
              (closure shown50) 20%float eq_refl _ _).
    + vm_compute. discriminate.
    + intros K. vm_compute in K. discriminate K.
  - exact (proj1 (proj2 (T6 unknown 1%nat (Edit 7 None) eq_refl eq_refl)
                    (Ok tt))).
Defined.

(* ------------------------------------------------------------------ *)
(** ** C4: the emission decision *)
(* ------------------------------------------------------------------ *)

(** C4: one invocation of the notifier tries to show an update (a send
    or an edit) if and only if the percent is known and exceeds
    [lastPercent] by at least 5, or at least 15000 ms have passed since
    [lastSentTime], known percent or not.  With [lastPercent = 10] and
    the last emission 3000 ms ago, 16% is shown at once and 13% is not;
    13% is shown once 15000 ms have passed. *)
Theorem emission_decision :
  (forall (w : world) (res : payload) (v : vars) (tr : list event),
     exists v' evs,
       onProgress w res (v, tr) = (Ok tt, (v', tr ++ evs)) /\
       (existsb is_send evs = true <->
        (exists p, extractPercent res = Some p /\
                   PrimFloat.leb 5 (p - lastPercent v) = true) \/
        15000 <= now w - lastSentTime v))
  /\ (let v := mkVars 10%float 1700000000000 (Some (mkMessage 7)) in
      onProgress (Sample.delivering 1700000003000 8)
        (Sample.running_at "0.16") (v, [])
      = (Ok tt, (mkVars 16%float 1700000003000 (Some (mkMessage 7)),
                 [EditMessageText 7 (Processing (Some 16%float)) (Ok tt)]))
      /\ onProgress (Sample.delivering 1700000003000 8)
           (Sample.running_at "0.13") (v, [])
         = (Ok tt, (v, []))
      /\ onProgress (Sample.delivering 1700000015000 8)
           (Sample.running_at "0.13") (v, [])
         = (Ok tt, (mkVars 13%float 1700000015000 (Some (mkMessage 7)),
                    [EditMessageText 7 (Processing (Some 13%float)) (Ok tt)]))
      /\ onProgress (Sample.delivering 1700000015000 8) Sample.quiet (v, [])
         = (Ok tt, (mkVars 10%float 1700000015000 (Some (mkMessage 7)),
                    [EditMessageText 7 (Processing None) (Ok tt)]))).
Proof.
  split.
  - intros w res v tr.
    exists (fst (step w res v)), (snd (step w res v)).
    split; [apply onProgress_step|].
    assert (D : shouldUpdate v (extractPercent res) (now w) = true <->
                (exists p, extractPercent res = Some p /\
                           PrimFloat.leb 5 (p - lastPercent v) = true) \/
                15000 <= now w - lastSentTime v).
    { unfold shouldUpdate, MIN_DELTA, MIN_INTERVAL_MS.
      rewrite orb_true_iff, Z.leb_le.
      destruct (extractPercent res) as [p|].
      - split.
        + intros [H|H]; [left; exists p; auto | right; exact H].
        + intros [[q [[= <-] H]]|H]; [left; exact H | right; exact H].
      - split.
        + intros [H|H]; [discriminate H | right; exact H].
        + intros [[q [[=] _]]|H]. right; exact H. }
    rewrite <- D. unfold step.
    destruct (shouldUpdate v (extractPercent res) (now w)).
    + destruct (progressMsg v); [destruct (edit w)|]; destruct (reply w);
        cbn; tauto.
    + cbn. tauto.
  - repeat split; reflexivity.
Qed.

(* ------------------------------------------------------------------ *)
(** ** C6: percent extraction *)
(* ------------------------------------------------------------------ *)

Lemma lastLog_snoc earlier line :
  lastLog (earlier ++ [LogString line]) = LogString line.
Proof.
  unfold lastLog. rewrite map_app. cbn [List.map]. rewrite last_last.
  destruct line; reflexivity.
Qed.

(** C6: the percent of a payload is taken, in this order, from
    (1) a numeric [progress] field, times 100 and rounded;
    (2) a numeric [metrics.progress] field, likewise;
    (3) the leftmost ["NN%"] token (one to three digits, at most one
        white space, a percent sign) in the last log line: its digits,
        capped at 100;
    (4) the leftmost [progress[:=]<float>] token in that line: the
        float, times 100 and rounded when it is at most 1, then rounded
        and kept within 0 and 100;
    and is unknown when none applies.  [{progress: 0.42}] gives 42. *)
Theorem percent_extraction_priority :
  (forall res p,
     progress res = Some p ->
     extractPercent res = Some (JS.Math_round (p * 100)%float))
  /\ (forall res p,
        progress res = None -> metrics_progress res = Some p ->
        extractPercent res = Some (JS.Math_round (p * 100)%float))
  /\ (forall res earlier line d,
        progress res = None -> metrics_progress res = None ->
        logs res = Some (earlier ++ [LogString line]) ->
        JS.occurs JS.re_percent line d ->
        exists d', JS.first_occurrence JS.re_percent line d' /\
                   0 <= JS.digits_val d' <= 999 /\
                   extractPercent res
                   = Some (JS.of_Z (Z.min 100 (JS.digits_val d'))))
  /\ (forall res earlier line c,
        progress res = None -> metrics_progress res = None ->
        logs res = Some (earlier ++ [LogString line]) ->
        (forall d, ~ JS.occurs JS.re_percent line d) ->
        JS.occurs JS.re_progress line c ->
        exists c', JS.first_occurrence JS.re_progress line c' /\
                   let p := JS.parseFloat c' in
                   let p := if PrimFloat.leb p 1 then JS.Math_round (p * 100)%float
                            else p in
                   extractPercent res
                   = Some (JS.Math_min 100%float
                             (JS.Math_max 0%float (JS.Math_round p))))
  /\ (forall res,
        progress res = None -> metrics_progress res = None ->
        (logs res = None \/
         (exists ls b, logs res = Some ls /\ lastLog ls = LogOther b) \/
         (exists ls line, logs res = Some ls /\ lastLog ls = LogString line /\
                          (forall d, ~ JS.occurs JS.re_percent line d) /\
                          (forall c, ~ JS.occurs JS.re_progress line c))) ->
        extractPercent res = None)
  /\ (extractPercent (Sample.running_at "0.42") = Some 42%float
      /\ extractPercent
           (mkPayload "processing" (Some (JS.decimal "0.42"))
              (Some (JS.decimal "0.9")) (Some [LogString (JS.lit "10%")]) [])
         = Some 42%float
      /\ extractPercent
           (mkPayload "processing" None (Some (JS.decimal "0.9"))
              (Some [LogString (JS.lit "10%")]) [])
         = Some 90%float
      /\ extractPercent
           (Sample.logging ["step 1: 10%"] "progress: 0.9, step 2: 45 % done")
         = Some 45%float
      /\ extractPercent (Sample.logging ["10%"] "Progress= 0.9") = Some 90%float
      /\ extractPercent (Sample.logging [] "progress:73.6") = Some 74%float
      /\ extractPercent (Sample.logging ["10%"] "still working") = None
      /\ extractPercent Sample.quiet = None).
Proof.
  split; [|split; [|split; [|split; [|split]]]].
  - intros res p H. unfold extractPercent. rewrite H. reflexivity.
  - intros res p H1 H2. unfold extractPercent. rewrite H1, H2. reflexivity.
  - intros res earlier line d H1 H2 H3 H4.
    destruct (regex_match_complete _ _ _ H4) as [d' E].
    assert (O := regex_match_leftmost _ _ _ E).
    destruct (percent_of_token line d' (first_occurrence_occurs _ _ _ O))
      as [B C].
    exists d'. split; [exact O | split; [exact B|]].
    unfold extractPercent. rewrite H1, H2, H3, lastLog_snoc.
    unfold percent_of_log. rewrite E, C. reflexivity.
  - intros res earlier line c H1 H2 H3 H4 H5.
    destruct (regex_match_complete _ _ _ H5) as [c' E].
    exists c'. split; [exact (regex_match_leftmost _ _ _ E)|].
    cbv zeta. unfold extractPercent. rewrite H1, H2, H3, lastLog_snoc.
    unfold percent_of_log.
    rewrite (proj2 (regex_match_none _ _) H4), E. reflexivity.
  - intros res H1 H2 H. unfold extractPercent. rewrite H1, H2.
    destruct H as [H | [(ls & b & H & L) | (ls & line & H & L & N1 & N2)]];
      rewrite H; [reflexivity | rewrite L; reflexivity |].
    rewrite L. unfold percent_of_log.
    rewrite (proj2 (regex_match_none _ _) N1), (proj2 (regex_match_none _ _) N2).
    reflexivity.
  - repeat split; reflexivity.
Qed.

Lemma percent_extraction_priority_witness :
  (exists d', JS.first_occurrence JS.re_percent
                (JS.lit "downloading 45% done") d' /\
              0 <= JS.digits_val d' <= 999 /\
              extractPercent (Sample.logging ["start"] "downloading 45% done")
              = Some (JS.of_Z (Z.min 100 (JS.digits_val d'))))
  /\ extractPercent (Sample.logging [] "no number here") = None.
Proof.
  split.
  - refine (proj1 (proj2 (proj2 percent_extraction_priority))
              (Sample.logging ["start"] "downloading 45% done")
              [LogString (JS.lit "start")] (JS.lit "downloading 45% done")
              (JS.lit "45") eq_refl eq_refl eq_refl _).
    apply regex_match_sound. reflexivity.
  - refine (proj1 (proj2 (proj2 (proj2 (proj2 percent_extraction_priority))))
              (Sample.logging [] "no number here") eq_refl eq_refl _).
    right. right. exists [LogString (JS.lit "no number here")],
      (JS.lit "no number here").
    repeat split; try reflexivity; apply regex_match_none; reflexivity.
Defined.

(* ------------------------------------------------------------------ *)
(** ** C9: how many notifications a run without percent emits *)
(* ------------------------------------------------------------------ *)




(* ------------------------------------------------------------------ *)
(** ** C10: the recorded progress message *)
(* ------------------------------------------------------------------ *)





(* ------------------------------------------------------------------ *)
(** ** C2: every candidate fails *)
(* ------------------------------------------------------------------ *)

Import Chain.




(* ------------------------------------------------------------------ *)
(** ** C7: how the chains treat a failed candidate *)
(* ------------------------------------------------------------------ *)




(* ================================================================== *)
(** * Further properties of the code *)
(* ================================================================== *)

Import PollTrace NotifierCount.

(* ------------------------------------------------------------------ *)
(** ** The polling run and its callback *)
(* ------------------------------------------------------------------ *)

Section PollTraceFacts.

Variable TIMEOUT : Z.
Variable stringify : payload -> string.
Context {W St : Type}.
Variable cb : option (callback W St).

Lemma notified_snoc (ticks : list (tick W)) t s :
  notified cb (ticks ++ [t]) s
  = match fetched t with
    | Ok res => notify cb (cb_world t) res (notified cb ticks s)
    | Throw _ => notified cb ticks s
    end.
Proof. unfold notified. rewrite fold_left_app. reflexivity. Qed.

(** The store at the end of a run is what the callback made of the
    payloads fetched during it. *)
Lemma loop_notified start script : forall s n,
  let r := poll_loop TIMEOUT stringify cb start script s n in
  (n <= fetches (fst r) <= n + List.length script)%nat /\
  snd r = notified cb (firstn (fetches (fst r) - n) script) s.
Proof.
  induction script as [|t rest IH]; intros s n; cbn zeta.
  - cbn. split; [lia|]. rewrite Nat.sub_diag. reflexivity.
  - cbn [poll_loop].
    destruct (deadline_passed TIMEOUT start (clock t)).
    { cbn. split; [lia|]. rewrite Nat.sub_diag. reflexivity. }
    destruct (fetched t) as [res|e] eqn:Hf.
    + destruct (status res =? "succeeded")%string.
      { cbn [fst snd fetches List.length]. split; [lia|].
        replace (S n - n)%nat with 1%nat by lia. cbn. rewrite Hf. reflexivity. }
      destruct (status res =? "failed")%string.
      { cbn [fst snd fetches List.length]. split; [lia|].
        replace (S n - n)%nat with 1%nat by lia. cbn. rewrite Hf. reflexivity. }
      specialize (IH (notify cb (cb_world t) res s) (S n)). cbn zeta in IH.
      destruct IH as [Hn Hs]. cbn [List.length]. split; [lia|].
      rewrite Hs.
      set (k := fetches _) in *.
      replace (k - n)%nat with (S (k - S n)) by lia.
      cbn [firstn notified fold_left]. rewrite Hf. reflexivity.
    + cbn [fst snd fetches List.length]. split; [lia|].
      replace (S n - n)%nat with 1%nat by lia. cbn. rewrite Hf. reflexivity.
Qed.

Lemma loop_continuing start pre : forall rest s n,
  Forall (continuing TIMEOUT start) pre ->
  poll_loop TIMEOUT stringify cb start (pre ++ rest) s n
  = poll_loop TIMEOUT stringify cb start rest (notified cb pre s)
      (n + List.length pre).
Proof.
  induction pre as [|u pre IH]; intros rest s n H.
  - cbn. rewrite Nat.add_0_r. reflexivity.
  - inversion H as [|? ? [Hu [res [Hf Hi]]] Hrest]; subst. cbn [app].
    rewrite (loop_in_flight TIMEOUT stringify cb start u _ s n res
               (deadline_passed_false TIMEOUT start (clock u) Hu) Hf Hi).
    rewrite (IH rest _ (S n) Hrest). cbn [notified fold_left List.length].
    rewrite Hf. f_equal. lia.
Qed.

(** What a run returns, traced back to the script. *)
Lemma loop_returned start script : forall s n res,
  result_of (fst (poll_loop TIMEOUT stringify cb start script s n))
  = Returned res ->
  exists pre t post,
    script = pre ++ t :: post /\ Forall (continuing TIMEOUT start) pre /\
    before_deadline TIMEOUT start t /\ fetched t = Ok res /\
    status res = "succeeded".
Proof.
  induction script as [|t rest IH]; intros s n res H.
  - discriminate H.
  - cbn [poll_loop] in H.
    destruct (deadline_passed TIMEOUT start (clock t)) eqn:Hd; [discriminate H|].
    assert (Hb : before_deadline TIMEOUT start t).
    { unfold before_deadline. unfold deadline_passed in Hd.
      apply Z.ltb_ge in Hd. exact Hd. }
    destruct (fetched t) as [res'|e] eqn:Hf; [|discriminate H].
    destruct (status res' =? "succeeded")%string eqn:Hs.
    + cbn in H. injection H as <-. exists [], t, rest.
      apply String.eqb_eq in Hs. repeat split; auto.
    + destruct (status res' =? "failed")%string eqn:Hs'; [discriminate H|].
      destruct (IH _ _ _ H) as (pre & u & post & -> & Hpre & Hu & Hfu & Hst).
      exists (t :: pre), u, post. repeat split; auto.
      constructor; [|exact Hpre]. split; [exact Hb|].
      exists res'. split; [exact Hf|]. unfold in_flight. rewrite Hs, Hs'.
      reflexivity.
Qed.

Lemma loop_pending start script : forall s n,
  result_of (fst (poll_loop TIMEOUT stringify cb start script s n)) = Pending ->
  Forall (continuing TIMEOUT start) script.
Proof.
  induction script as [|t rest IH]; intros s n H.
  - constructor.
  - cbn [poll_loop] in H.
    destruct (deadline_passed TIMEOUT start (clock t)) eqn:Hd; [discriminate H|].
    assert (Hb : before_deadline TIMEOUT start t).
    { unfold before_deadline. unfold deadline_passed in Hd.
      apply Z.ltb_ge in Hd. exact Hd. }
    destruct (fetched t) as [res'|e] eqn:Hf; [|discriminate H].
    destruct (status res' =? "succeeded")%string eqn:Hs; [discriminate H|].
    destruct (status res' =? "failed")%string eqn:Hs'; [discriminate H|].
    constructor; [|exact (IH _ _ H)]. split; [exact Hb|].
    exists res'. split; [exact Hf|]. unfold in_flight. rewrite Hs, Hs'.
    reflexivity.
Qed.

End PollTraceFacts.

(** X1: the progress callback is handed every payload the run fetches,
    in the order of the fetches, and nothing else: the store at the end
    of a run is the one the callback makes of the payloads of the ticks
    that were fetched, the last one included (the payload that ends the
    run is reported before the run returns or throws); a fetch that is
    rejected reports nothing. *)
Theorem callback_sees_every_fetched_payload
  (timeout : Z) (stringify : payload -> string) (W St : Type)
  (cb : option (callback W St)) (start : Z) (script : list (tick W)) (s : St) :
  let r := pollReplicatePrediction timeout stringify cb start script s in
  (fetches (fst r) <= List.length script)%nat /\
  snd r = notified cb (firstn (fetches (fst r)) script) s.
Proof.
  cbn zeta. unfold pollReplicatePrediction.
  destruct (loop_notified timeout stringify cb start script s 0%nat) as [H1 H2].
  cbn zeta in *. rewrite Nat.sub_0_r in H2. split; [lia | exact H2].
Qed.

(** X2: a run returns a payload exactly when that payload is the first
    one fetched with status [succeeded], every tick before it was read
    before the deadline and fetched a payload that is neither
    [succeeded] nor [failed], and its own tick is read before the
    deadline.  A run is still polling at the end of a script exactly
    when every tick of the script is of that kind. *)
Theorem run_returns_first_succeeded_payload
  (timeout : Z) (stringify : payload -> string) (W St : Type)
  (cb : option (callback W St)) (start : Z) (script : list (tick W)) (s : St) :
  (forall res,
     result_of (fst (pollReplicatePrediction timeout stringify cb start script s))
     = Returned res <->
     exists pre t post,
       script = pre ++ t :: post /\ Forall (continuing timeout start) pre /\
       before_deadline timeout start t /\ fetched t = Ok res /\
       status res = "succeeded")
  /\ (result_of (fst (pollReplicatePrediction timeout stringify cb start script s))
      = Pending <-> Forall (continuing timeout start) script).
Proof.
  unfold pollReplicatePrediction. split.
  - intros res. split.
    + apply loop_returned.
    + intros (pre & t & post & -> & Hpre & Ht & Hf & Hs).
      rewrite (loop_continuing timeout stringify cb start pre (t :: post) s 0%nat Hpre).
      cbn [poll_loop]. rewrite (deadline_passed_false timeout start (clock t) Ht), Hf.
      apply String.eqb_eq in Hs. rewrite Hs. reflexivity.
  - split.
    + apply loop_pending.
    + intros H.
      rewrite <- (app_nil_r script).
      rewrite (loop_continuing timeout stringify cb start script [] s 0%nat H).
      reflexivity.
Qed.

(* ------------------------------------------------------------------ *)
(** ** The notifier: new messages and the range of a log percent *)
(* ------------------------------------------------------------------ *)

Section Flood.

(** One invocation sends a new message only as the first message or
    after a rejected edit. *)
Lemma step_new_messages w res v :
  match progressMsg v with
  | Some _ =>
      (new_messages (snd (step w res v)) <= failed_edits (snd (step w res v)))%nat
  | None =>
      failed_edits (snd (step w res v)) = 0%nat /\
      ((new_messages (snd (step w res v)) = 0%nat) \/
       (new_messages (snd (step w res v)) = 1%nat /\
        exists m, progressMsg (fst (step w res v)) = Some m))
  end.
Proof.
  unfold step.
  destruct (shouldUpdate v (extractPercent res) (now w)).
  - destruct (progressMsg v) as [m|] eqn:Hm.
    + destruct (edit w); [|destruct (reply w)]; cbn; lia.
    + destruct (reply w) as [sent|e]; cbn; split; auto.
      right. split; [reflexivity|]. exists sent.
      destruct (extractPercent res); reflexivity.
  - destruct (progressMsg v); cbn; auto.
Qed.

Lemma feed_new_messages ticks : forall v,
  (new_messages (snd (feed ticks (v, [])))
   <= match progressMsg v with Some _ => 0 | None => 1 end
      + failed_edits (snd (feed ticks (v, []))))%nat.
Proof.
  induction ticks as [|[w res] rest IH]; intros v.
  - cbn. lia.
  - rewrite feed_cons. cbn [snd]. rewrite new_messages_app, failed_edits_app.
    assert (H := step_new_messages w res v).
    specialize (IH (fst (step w res v))).
    destruct (progressMsg v) as [m|] eqn:Hm.
    + rewrite (step_progressMsg_kept w res v m Hm) in IH. lia.
    + destruct H as [H0 [H1 | [H1 [m Hp]]]].
      * destruct (progressMsg (fst (step w res v))); lia.
      * rewrite Hp in IH. lia.
Qed.

Lemma ltb_leb x y : PrimFloat.ltb x y = true -> PrimFloat.leb x y = true.
Proof.
  rewrite FloatAxioms.ltb_spec, FloatAxioms.leb_spec. unfold SFltb, SFleb.
  destruct (SFcompare (Prim2SF x) (Prim2SF y)) as [[]|]; auto; discriminate.
Qed.

(** Capping leaves NaN or a number from 0 to 100. *)
Lemma clamp_range x :
  let r := JS.Math_min 100%float (JS.Math_max 0%float x) in
  JS.is_nan r = true \/
  (PrimFloat.leb 0 r = true /\ PrimFloat.leb r 100 = true).
Proof.
  cbn zeta. unfold JS.Math_max.
  change (JS.is_nan 0%float) with false. cbn [orb].
  destruct (JS.is_nan x) eqn:Hx.
  - left. reflexivity.
  - destruct (PrimFloat.ltb 0 x) eqn:H0.
    + unfold JS.Math_min. change (JS.is_nan 100%float) with false.
      cbn [orb]. rewrite Hx.
      destruct (PrimFloat.ltb x 100) eqn:H1.
      * right. split; apply ltb_leb; assumption.
      * right. split; reflexivity.
    + right. split; reflexivity.
Qed.

End Flood.

(** X3: the notifier does not flood the chat with new messages.  When
    the send or edit of every invocation settles before the next
    invocation, the new messages it sends successfully are at most one
    more than the edits that were rejected.  Whatever the order in which
    sends and edits settle, once a message is recorded and no first send
    is pending, a new message is sent only after an edit has been
    rejected: the new messages added, with the fallback sends still
    pending, are at most the rejected edits added, with the fallback
    sends pending before.  Without that the bound fails: three
    invocations that start while the first send is pending send three
    new messages, with no edit rejected. *)
Theorem new_messages_bounded_by_failed_edits :
  (forall ticks : list (world * payload),
     (new_messages (Overlap.log (Overlap.settling ticks initial))
      <= 1 + failed_edits (Overlap.log (Overlap.settling ticks initial)))%nat)
  /\ (forall (m : Message) (s : Overlap.state)
             (schedule : list Overlap.occurrence),
        Overlap.settled_on m s ->
        exists added : list Notifier.event,
          Overlap.log (Overlap.run schedule s)
          = (Overlap.log s ++ added)%list /\
          (new_messages added + Overlap.fallbacks (Overlap.run schedule s)
           <= Overlap.fallbacks s + failed_edits added)%nat)
  /\ (let t0 := 1700000000000 in
      let schedule :=
        [Overlap.Invoke t0 (Sample.running_at "0.1");
         Overlap.Invoke (t0 + 3000) (Sample.running_at "0.2");
         Overlap.Invoke (t0 + 6000) (Sample.running_at "0.3");
         Overlap.SendSettles 0 (Ok (mkMessage 7));
         Overlap.SendSettles 1 (Ok (mkMessage 8));
         Overlap.SendSettles 2 (Ok (mkMessage 9))] in
      let s := Overlap.run schedule (Overlap.idle 0 fresh) in
      new_messages (Overlap.log s) = 3%nat /\
      failed_edits (Overlap.log s) = 0%nat).
Proof.
  split; [|split].
  - intros ticks.
    destruct (settling_feed ticks initial) as (_ & -> & _).
    exact (feed_new_messages ticks initial).
  - intros m s schedule H.
    destruct (run_settled_on m schedule s H) as (_ & added & H1 & _ & H2).
    now exists added.
  - split; reflexivity.
Qed.

Lemma new_messages_bounded_by_failed_edits_witness :
  let recorded :=
    Overlap.mkState (mkVars 10%float 1700000000000 (Some (mkMessage 7)))
      [(1%nat, Overlap.Edit 7 (Some 50%float))] 2
      [Reply (Processing (Some 10%float)) (Ok (mkMessage 7))] in
  let schedule :=
    [Overlap.EditSettles 1 (Throw (mkError "message to edit not found"));
     Overlap.Invoke 1700000030000 (Sample.running_at "0.7");
     Overlap.SendSettles 1 (Ok (mkMessage 8));
     Overlap.EditSettles 2 (Ok tt)] in
  exists added : list Notifier.event,
    Overlap.log (Overlap.run schedule recorded)
    = (Overlap.log recorded ++ added)%list /\
    (new_messages added + Overlap.fallbacks (Overlap.run schedule recorded)
     <= Overlap.fallbacks recorded + failed_edits added)%nat.
Proof.
  intros recorded schedule.
  refine (proj1 (proj2 new_messages_bounded_by_failed_edits)
            (mkMessage 7) recorded schedule _).
  split; [reflexivity|]. repeat constructor.
Defined.

(** X4: a percent read from a log line is never outside 0..100: it is a
    number from 0 to 100, or NaN (the text captured after 'progress',
    such as a lone '.', need not be a number).  So is the percent of a
    payload that has neither [progress] nor [metrics.progress]. *)
Theorem log_percent_within_bounds :
  (forall (line : JS.jsstring) (p : JS.number),
     percent_of_log line = Some p ->
     JS.is_nan p = true \/
     (PrimFloat.leb 0 p = true /\ PrimFloat.leb p 100 = true))
  /\ (forall (res : payload) (p : JS.number),
        progress res = None -> metrics_progress res = None ->
        extractPercent res = Some p ->
        JS.is_nan p = true \/
        (PrimFloat.leb 0 p = true /\ PrimFloat.leb p 100 = true)).
Proof.
  assert (A : forall line p, percent_of_log line = Some p ->
     JS.is_nan p = true \/
     (PrimFloat.leb 0 p = true /\ PrimFloat.leb p 100 = true)).
  { intros line p H. unfold percent_of_log in H.
    destruct (JS.regex_match JS.re_percent line).
    - injection H as <-. apply clamp_range.
    - destruct (JS.regex_match JS.re_progress line); [|discriminate H].
      injection H as <-. apply clamp_range. }
  split; [exact A|].
  intros res p H1 H2 H. unfold extractPercent in H. rewrite H1, H2 in H.
  destruct (logs res); [|discriminate H].
  destruct (lastLog l); [|discriminate H]. exact (A _ _ H).
Qed.

Lemma log_percent_within_bounds_witness :
  (percent_of_log (JS.lit "step 999% done") = Some 100%float /\
   (JS.is_nan 100%float = true \/
    (PrimFloat.leb 0 100 = true /\ PrimFloat.leb 100 100 = true)))
  /\ (extractPercent (Sample.logging [] "progress: 42.7") = Some 43%float /\
      (JS.is_nan 43%float = true \/
       (PrimFloat.leb 0 43 = true /\ PrimFloat.leb 43 100 = true))).
Proof.
  split; (split; [reflexivity|]).
  - exact (proj1 log_percent_within_bounds (JS.lit "step 999% done")
             100%float eq_refl).
  - exact (proj2 log_percent_within_bounds
             (Sample.logging [] "progress: 42.7") 43%float
             eq_refl eq_refl eq_refl).
Defined.

(* ------------------------------------------------------------------ *)
(** ** The chat and media chains: who answers, who is called *)
(* ------------------------------------------------------------------ *)

(** A membership in a list of constants none of which it is. *)
Ltac in_absurd K :=
  cbn in K; repeat (destruct K as [K|K]; [discriminate K|]); exact K.

Section ChainAnswers.

Lemma includes_In l s : includes l s = true -> In s l.
Proof.
  unfold includes. intros H. apply existsb_exists in H.
  destruct H as [x [Hx E]]. apply String.eqb_eq in E. subst. exact Hx.
Qed.

Lemma media_calls_configured env w sub input :
  (In Runway (calls (snd (media env w sub input))) ->
   In sub runwayModes /\ RUNWAY_API_KEY env = true) /\
  (In ReplicateCreate (calls (snd (media env w sub input))) ->
   In sub repModes /\ media_REPLICATE_API_KEY env = true /\
   media_repModel env = true) /\
  (In Stability (calls (snd (media env w sub input))) ->
   sub = "t2i" /\ STABILITY_KEY env = true) /\
  (In Pixabay (calls (snd (media env w sub input))) ->
   sub = "t2i" /\ PIXABAY_KEY env = true).
Proof.
  assert (H : forall r, r = media env w sub input ->
    (In Runway (calls (snd r)) ->
     In sub runwayModes /\ RUNWAY_API_KEY env = true) /\
    (In ReplicateCreate (calls (snd r)) ->
     In sub repModes /\ media_REPLICATE_API_KEY env = true /\
     media_repModel env = true) /\
    (In Stability (calls (snd r)) -> sub = "t2i" /\ STABILITY_KEY env = true) /\
    (In Pixabay (calls (snd r)) -> sub = "t2i" /\ PIXABAY_KEY env = true)).
  { chain_eval; intros r ->; cbn;
      repeat match goal with |- _ /\ _ => split end; intros K;
      try (exfalso; in_absurd K);
      repeat match goal with
             | H : (_ =? _) = true |- _ => apply String.eqb_eq in H
             | H : _ && _ = true |- _ => apply andb_true_iff in H; destruct H
             | H : includes _ _ = true |- _ => apply includes_In in H
             | |- _ /\ _ => split
             end; subst; cbn in *; try assumption; try congruence;
      try reflexivity. }
  exact (H _ eq_refl).
Qed.

Section Chat.

Variable J : payload -> string.

Lemma chat_hfSpace_answers env w a :
  HF_SPACE_URL env = true -> hfSpace w = Ok a -> truthy a = true ->
  chat J env w = (Ok (Text (withPrefix a)), [Call HfSpace]).
Proof.
  intros H1 H2 H3. destruct env as [b1 b2 b3 b4 b5]. cbn in H1. subst b1.
  chain_unfold. repeat (chain_simpl; rewrite ?H2, ?H3). reflexivity.
Qed.

Lemma chat_hfApi_answers env w a :
  In HfApi (calls (snd (chat J env w))) -> hfApi w = Ok a -> truthy a = true ->
  fst (chat J env w) = Ok (Text (withPrefix a)) /\
  ~ In ReplicateCreate (calls (snd (chat J env w))) /\
  ~ In Wiki (calls (snd (chat J env w))).
Proof.
  intros Hin H2 H3.
  assert (H : forall r, r = chat J env w ->
    In HfApi (calls (snd r)) ->
    fst r = Ok (Text (withPrefix a)) /\
    ~ In ReplicateCreate (calls (snd r)) /\ ~ In Wiki (calls (snd r))).
  { chain_unfold.
    repeat first [ progress chain_simpl | progress rewrite ?H2, ?H3
                 | chain_case ];
      intros r ->; cbn; intros K;
      try (exfalso; in_absurd K);
      (split; [reflexivity | split; intros K'; in_absurd K']). }
  exact (H _ eq_refl Hin).
Qed.

Lemma chat_replicate_answers env w polled x rest :
  In ReplicatePoll (calls (snd (chat J env w))) ->
  repPoll w = Ok polled -> output polled = x :: rest -> truthy x = true ->
  fst (chat J env w) = Ok (Text (withPrefix x)) /\
  ~ In Wiki (calls (snd (chat J env w))).
Proof.
  intros Hin H2 H3 H4.
  assert (H : forall r, r = chat J env w ->
    In ReplicatePoll (calls (snd r)) ->
    fst r = Ok (Text (withPrefix x)) /\ ~ In Wiki (calls (snd r))).
  { chain_unfold.
    repeat first [ progress chain_simpl | progress rewrite ?H2, ?H3, ?H4
                 | chain_case ];
      intros r ->; cbn; intros K;
      try (exfalso; in_absurd K);
      (split; [reflexivity | intros K'; in_absurd K']). }
  exact (H _ eq_refl Hin).
Qed.

Lemma chat_wiki_last env w :
  In Wiki (calls (snd (chat J env w))) ->
  fst (chat J env w) = Ok (last_resort w) /\
  In Duck (calls (snd (chat J env w))).
Proof.
  unfold last_resort.
  assert (H : forall r, r = chat J env w ->
    In Wiki (calls (snd r)) ->
    fst r = Ok (Text (withPrefix
                  (wiki w ++ nl ++ nl ++ "Duck summary:" ++ nl ++ duck w)))
    /\ In Duck (calls (snd r))).
  { chain_eval; intros r ->; cbn; intros K;
      try (exfalso; in_absurd K);
      (split; [reflexivity | repeat first [left; reflexivity | right]]). }
  exact (H _ eq_refl).
Qed.

Lemma chat_calls_configured env w :
  (In HfSpace (calls (snd (chat J env w))) -> HF_SPACE_URL env = true) /\
  (In HfApi (calls (snd (chat J env w))) ->
   HUGGINGFACE_API_KEY env = true /\ hfModelUrl env = true) /\
  (In ReplicateCreate (calls (snd (chat J env w))) ->
   REPLICATE_API_KEY env = true /\ repModel env = true) /\
  (In ReplicatePoll (calls (snd (chat J env w))) ->
   exists c i, repCreate w = Ok c /\ id c = Some i).
Proof.
  assert (H : forall r, r = chat J env w ->
    (In HfSpace (calls (snd r)) -> HF_SPACE_URL env = true) /\
    (In HfApi (calls (snd r)) ->
     HUGGINGFACE_API_KEY env = true /\ hfModelUrl env = true) /\
    (In ReplicateCreate (calls (snd r)) ->
     REPLICATE_API_KEY env = true /\ repModel env = true) /\
    (In ReplicatePoll (calls (snd r)) ->
     exists c i, repCreate w = Ok c /\ id c = Some i)).
  { chain_eval; intros r ->; cbn;
      repeat match goal with |- _ /\ _ => split end; intros K;
      try (exfalso; in_absurd K);
      repeat match goal with
             | H : _ && _ = true |- _ => apply andb_true_iff in H; destruct H
             | |- _ /\ _ => split
             end; subst; cbn in *; try congruence; eauto. }
  exact (H _ eq_refl).
Qed.


(** X6: in the chat branch the first provider that answers ends the
    chain.  An answer of the Hugging Face Space is the reply and nothing
    else is called; an answer of the Hugging Face API is the reply and
    neither Replicate nor Wikipedia is called; an output of the polled
    Replicate job is the reply and Wikipedia is not called; and whenever
    Wikipedia is called, DuckDuckGo is called too and the reply is the
    text made of their two summaries. *)
Theorem chat_first_answer_wins (env : chat_env) (w : chat_world) :
  (forall a,
     HF_SPACE_URL env = true -> hfSpace w = Ok a -> truthy a = true ->
     chat J env w = (Ok (Text (withPrefix a)), [Call HfSpace])) /\
  (forall a,
     In HfApi (calls (snd (chat J env w))) ->
     hfApi w = Ok a -> truthy a = true ->
     fst (chat J env w) = Ok (Text (withPrefix a)) /\
     ~ In ReplicateCreate (calls (snd (chat J env w))) /\
     ~ In Wiki (calls (snd (chat J env w)))) /\
  (forall polled x rest,
     In ReplicatePoll (calls (snd (chat J env w))) ->
     repPoll w = Ok polled -> output polled = x :: rest -> truthy x = true ->
     fst (chat J env w) = Ok (Text (withPrefix x)) /\
     ~ In Wiki (calls (snd (chat J env w)))) /\
  (In Wiki (calls (snd (chat J env w))) ->
   fst (chat J env w) = Ok (last_resort w) /\
   In Duck (calls (snd (chat J env w)))).
Proof.
  split; [|split; [|split]].
  - intros a. apply chat_hfSpace_answers.
  - intros a. apply chat_hfApi_answers.
  - intros polled x rest. apply chat_replicate_answers.
  - apply chat_wiki_last.
Qed.

(** X7: no provider is called without its configuration or for a mode
    of another provider.  In the chat branch the Space needs its URL,
    the API its key and a model URL, Replicate its key and a model, and
    the job is polled only when the prediction was created with an id.
    In the media branch Runway is called only for its six modes and with
    its key, Replicate only for its five modes with its key and a model,
    Stability and Pixabay only for [t2i] and with their keys. *)
Theorem providers_need_configuration
  (env : chat_env) (w : chat_world)
  (menv : media_env) (mw : media_world) (sub input : string) :
  ((In HfSpace (calls (snd (chat J env w))) -> HF_SPACE_URL env = true) /\
   (In HfApi (calls (snd (chat J env w))) ->
    HUGGINGFACE_API_KEY env = true /\ hfModelUrl env = true) /\
   (In ReplicateCreate (calls (snd (chat J env w))) ->
    REPLICATE_API_KEY env = true /\ repModel env = true) /\
   (In ReplicatePoll (calls (snd (chat J env w))) ->
    exists c i, repCreate w = Ok c /\ id c = Some i)) /\
  ((In Runway (calls (snd (media menv mw sub input))) ->
    In sub runwayModes /\ RUNWAY_API_KEY menv = true) /\
   (In ReplicateCreate (calls (snd (media menv mw sub input))) ->
    In sub repModes /\ media_REPLICATE_API_KEY menv = true /\
    media_repModel menv = true) /\
   (In Stability (calls (snd (media menv mw sub input))) ->
    sub = "t2i" /\ STABILITY_KEY menv = true) /\
   (In Pixabay (calls (snd (media menv mw sub input))) ->
    sub = "t2i" /\ PIXABAY_KEY menv = true)).
Proof.
  split; [apply chat_calls_configured | apply media_calls_configured].
Qed.

End Chat.

End ChainAnswers.

Lemma chat_first_answer_wins_witness :
  let env := mkChatEnv true true true true true in
  let w := mkChatWorld (Throw (mkError "HF Space did not return output"))
             (Ok "Hello from the API")
             (Ok (mkCreated (Some "p1") [])) (Ok Sample.succeeded) "W" "D" in
  fst (chat Sample.stringify env w) = Ok (Text (withPrefix "Hello from the API"))
  /\ ~ In ReplicateCreate (calls (snd (chat Sample.stringify env w)))
  /\ ~ In Wiki (calls (snd (chat Sample.stringify env w))).
Proof.
  intros env w.
  refine (proj1 (proj2 (chat_first_answer_wins Sample.stringify env w))
            "Hello from the API" _ eq_refl eq_refl).
  cbn. right. left. reflexivity.
Defined.

Lemma providers_need_configuration_witness :
  let env := mkChatEnv false true true false false in
  let w := mkChatWorld (Ok "unused") (Ok "Hello from the API")
             (Ok (mkCreated None [])) (Ok Sample.succeeded) "W" "D" in
  let menv := mkMediaEnv false false false true true in
  let mw := mkMediaWorld (Ok None) (Ok (mkCreated None []))
              (Ok Sample.succeeded)
              (Throw (mkError "Request failed with status code 401"))
              (Ok ["https://pixabay.com/cat.jpg"]) (Ok tt) in
  (HUGGINGFACE_API_KEY env = true /\ hfModelUrl env = true) /\
  ("t2i" = "t2i" /\ PIXABAY_KEY menv = true).
Proof.
  intros env w menv mw.
  pose proof (providers_need_configuration Sample.stringify env w menv mw
                "t2i" "a cat") as ((_ & Hapi & _) & (_ & _ & _ & Hpix)).
  split.
  - apply Hapi. cbn. left. reflexivity.
  - apply Hpix. cbn. right. left. reflexivity.
Defined.

(* ------------------------------------------------------------------ *)
(** ** Splitting, joining and trimming *)
(* ------------------------------------------------------------------ *)

Section TextFacts.
Import JS Text.

Lemma split_not_nil (sep : char) (s : jsstring) : split sep s <> [].
Proof.
  destruct s as [|c s]; cbn; [discriminate|].
  destruct (c =? sep)%N; [discriminate|].
  destruct (split sep s); discriminate.
Qed.

Lemma split_cons_sep (sep : char) (s : jsstring) :
  split sep (sep :: s) = [] :: split sep s.
Proof. cbn. now rewrite N.eqb_refl. Qed.

Lemma split_cons_other (sep c : char) (s : jsstring) :
  c <> sep ->
  split sep (c :: s) = (c :: hd [] (split sep s)) :: tl (split sep s).
Proof.
  intros H. cbn. apply N.eqb_neq in H. rewrite H.
  pose proof (split_not_nil sep s).
  destruct (split sep s); [congruence|reflexivity].
Qed.

Lemma join_cons (sep : char) (x : jsstring) (l : list jsstring) :
  l <> [] -> join sep (x :: l) = x ++ sep :: join sep l.
Proof. destruct l; [congruence|reflexivity]. Qed.

Lemma join_split (sep : char) (s : jsstring) : join sep (split sep s) = s.
Proof.
  induction s as [|c s IH]; [reflexivity|].
  destruct (N.eq_dec c sep) as [->|Hc].
  - rewrite split_cons_sep, join_cons by apply split_not_nil.
    cbn. now rewrite IH.
  - rewrite split_cons_other by assumption.
    pose proof (split_not_nil sep s) as Hn.
    destruct (split sep s) as [|p rest]; [congruence|].
    cbn [hd tl]. destruct rest as [|q rest].
    + cbn in *. now rewrite IH.
    + change (join sep ((c :: p) :: q :: rest))
        with (c :: (p ++ sep :: join sep (q :: rest))).
      change (join sep (p :: q :: rest))
        with (p ++ sep :: join sep (q :: rest)) in IH.
      now rewrite IH.
Qed.

Lemma split_app_sep (sep : char) (w s : jsstring) :
  ~ In sep w -> split sep (w ++ sep :: s) = w :: split sep s.
Proof.
  induction w as [|c w IH]; intros H.
  - apply split_cons_sep.
  - cbn [app]. rewrite split_cons_other by (intros ->; apply H; now left).
    rewrite IH by (intros K; apply H; now right). reflexivity.
Qed.

Lemma split_no_sep (sep : char) (w : jsstring) :
  ~ In sep w -> split sep w = [w].
Proof.
  induction w as [|c w IH]; intros H; [reflexivity|].
  rewrite split_cons_other by (intros ->; apply H; now left).
  rewrite IH by (intros K; apply H; now right). reflexivity.
Qed.

Lemma split_pieces (sep : char) (s : jsstring) :
  Forall (fun p => ~ In sep p) (split sep s).
Proof.
  induction s as [|c s IH]; [repeat constructor; tauto|].
  destruct (N.eq_dec c sep) as [->|Hc].
  - rewrite split_cons_sep. constructor; [tauto|assumption].
  - rewrite split_cons_other by assumption.
    pose proof (split_not_nil sep s) as Hn.
    destruct (split sep s) as [|p rest]; [congruence|].
    inversion IH; subst. cbn [hd tl]. constructor; [|assumption].
    intros [K|K]; [congruence|tauto].
Qed.

Lemma split_join (sep : char) (l : list jsstring) :
  l <> [] -> Forall (fun p => ~ In sep p) l -> split sep (join sep l) = l.
Proof.
  induction l as [|x l IH]; [congruence|]. intros _ H.
  inversion H as [|? ? Hx Hl]; subst.
  destruct l as [|y l].
  - cbn. now apply split_no_sep.
  - rewrite join_cons by discriminate.
    rewrite split_app_sep by assumption.
    rewrite IH; [reflexivity|discriminate|assumption].
Qed.

(** A string holds the separator exactly when it splits into more
    than one piece. *)
Lemma split_single (sep : char) (s : jsstring) :
  tl (split sep s) = [] <-> ~ In sep s.
Proof.
  split.
  - intros H K. apply in_split in K. destruct K as (a & b & ->).
    assert (Hp : exists w r, a ++ sep :: b = w ++ sep :: r /\ ~ In sep w).
    { clear H. induction a as [|c a IH].
      - exists [], b. split; [reflexivity|tauto].
      - destruct (N.eq_dec c sep) as [->|Hc].
        + exists [], (a ++ sep :: b). split; [reflexivity|tauto].
        + destruct IH as (w & r & E & Hw). exists (c :: w), r.
          split; [cbn; now rewrite E|].
          intros [K|K]; [congruence|tauto]. }
    destruct Hp as (w & r & E & Hw). rewrite E, split_app_sep in H by assumption.
    cbn in H. now apply (split_not_nil sep r).
  - intros H. now rewrite split_no_sep.
Qed.

Lemma trimStart_head (s : jsstring) :
  match trimStart s with
  | c :: _ => is_space c = false
  | [] => True
  end.
Proof.
  induction s as [|c s IH]; [exact I|].
  cbn. destruct (is_space c) eqn:E; [assumption|exact E].
Qed.

Lemma trimStart_fixed (s : jsstring) :
  match s with c :: _ => is_space c = false | [] => True end ->
  trimStart s = s.
Proof. destruct s as [|c s]; [reflexivity|]. cbn. now intros ->. Qed.

(** What [trimStart] keeps is the end of the string. *)
Lemma trimStart_suffix (s : jsstring) :
  exists pre, s = pre ++ trimStart s /\ forallb is_space pre = true.
Proof.
  induction s as [|c s (pre & E & H)].
  - now exists [].
  - cbn. destruct (is_space c) eqn:Ec.
    + exists (c :: pre). cbn. rewrite Ec, H. split; [now rewrite <- E|reflexivity].
    + now exists [].
Qed.

Lemma trimEnd_last (s : jsstring) :
  match rev (trimEnd s) with
  | c :: _ => is_space c = false
  | [] => True
  end.
Proof.
  unfold trimEnd. rewrite rev_involutive. apply trimStart_head.
Qed.

Lemma trimEnd_prefix (s : jsstring) :
  exists post, s = trimEnd s ++ post /\ forallb is_space post = true.
Proof.
  unfold trimEnd. destruct (trimStart_suffix (rev s)) as (pre & E & H).
  exists (rev pre). split.
  - apply (f_equal (@rev _)) in E. rewrite rev_involutive, rev_app_distr in E.
    exact E.
  - rewrite forallb_forall in *. intros x Hx. apply H. now apply in_rev.
Qed.

(** The trimmed string neither begins nor ends with white space. *)
Lemma trim_ends (s : jsstring) :
  match trim s with c :: _ => is_space c = false | [] => True end /\
  match rev (trim s) with c :: _ => is_space c = false | [] => True end.
Proof.
  unfold trim. split; [|apply trimEnd_last].
  pose proof (trimStart_head s) as H.
  destruct (trimEnd_prefix (trimStart s)) as (post & E & Hp).
  destruct (trimEnd (trimStart s)) as [|c t] eqn:Et; [exact I|].
  rewrite E in H. exact H.
Qed.

Lemma trimEnd_fixed (s : jsstring) :
  match rev s with c :: _ => is_space c = false | [] => True end ->
  trimEnd s = s.
Proof.
  intros H. unfold trimEnd. rewrite trimStart_fixed by assumption.
  apply rev_involutive.
Qed.

Lemma trim_fixed (s : jsstring) :
  match s with c :: _ => is_space c = false | [] => True end ->
  match rev s with c :: _ => is_space c = false | [] => True end ->
  trim s = s.
Proof.
  intros H1 H2. unfold trim. rewrite trimStart_fixed by assumption.
  now apply trimEnd_fixed.
Qed.

Lemma trim_idempotent (s : jsstring) : trim (trim s) = trim s.
Proof. apply trim_fixed; apply trim_ends. Qed.

Lemma is_space_space : is_space space = true.
Proof. reflexivity. Qed.

Lemma text_eqb_eq (s t : jsstring) : eqb s t = true <-> s = t.
Proof.
  revert t. induction s as [|a s IH]; intros [|b t]; cbn; try (split; congruence).
  rewrite andb_true_iff, N.eqb_eq, IH. split; [intros []; congruence|].
  intros E; injection E; auto.
Qed.

Lemma text_eqb_refl (s : jsstring) : eqb s s = true.
Proof. now apply text_eqb_eq. Qed.

Lemma truthy_nonempty (s : jsstring) : truthy s = true <-> s <> [].
Proof. destruct s; cbn; split; congruence. Qed.

End TextFacts.

(* ------------------------------------------------------------------ *)
(** ** The words of a command *)
(* ------------------------------------------------------------------ *)

Section CommandFacts.
Import JS Text Command.

Variable toLowerCase : jsstring -> jsstring.

Lemma parts_of_words (text : option jsstring) (cmd r : jsstring) :
  raw_of text = cmd ++ space :: r -> ~ In space cmd ->
  parts_of text = split space r.
Proof.
  intros E H. unfold parts_of. rewrite E, split_app_sep by assumption.
  reflexivity.
Qed.

Lemma dispatch_usage (text : option jsstring) :
  dispatch toLowerCase text = Usage <-> parts_of text = [].
Proof.
  unfold dispatch. destruct (parts_of text) as [|p0 ps]; [tauto|].
  split; [|discriminate].
  repeat match goal with
         | |- context [if ?b then _ else _] => destruct b; try discriminate
         end.
Qed.

Lemma rest_of_words (m r : jsstring) :
  ~ In space m -> rest_of (split space (m ++ space :: r)) = trim r.
Proof.
  intros H. unfold rest_of. rewrite split_app_sep by assumption.
  cbn [tl]. now rewrite join_split.
Qed.

Lemma tail_of_words (m c r : jsstring) :
  ~ In space m -> ~ In space c ->
  tail_of (split space (m ++ space :: c ++ space :: r)) = r.
Proof.
  intros Hm Hc. unfold tail_of. rewrite !split_app_sep by assumption.
  cbn [skipn]. apply join_split.
Qed.

End CommandFacts.

Section ParseTheorems.
Import JS Text Command.

Variable toLowerCase : jsstring -> jsstring.

(** X8: a message that holds nothing but the command word, whatever the
    white space around it, is answered with the usage text, and no
    other message is. *)
Theorem only_the_command_gets_usage (text : option jsstring) :
  dispatch toLowerCase text = Usage <-> ~ In space (raw_of text).
Proof.
  rewrite dispatch_usage. unfold parts_of. apply split_single.
Qed.

(** X9: the words of a command are handed on as typed.  The mode is the
    word after the first space; [rest] is all that follows the next
    space, trimmed; and with a second argument before it, the text
    after that is kept as it is, inner runs of spaces included. *)
Theorem command_words (text : option jsstring) (cmd m r : jsstring) :
  raw_of text = cmd ++ space :: m ++ space :: r ->
  ~ In space cmd -> ~ In space m ->
  hd [] (parts_of text) = m /\
  rest_of (parts_of text) = trim r /\
  (forall c msg, r = c ++ space :: msg -> ~ In space c ->
     nth_error (parts_of text) 1 = Some c /\ tail_of (parts_of text) = msg).
Proof.
  intros E Hc Hm. rewrite (parts_of_words text cmd _ E Hc).
  split; [|split].
  - now rewrite split_app_sep.
  - now apply rest_of_words.
  - intros c msg -> Hcc. split.
    + now rewrite !split_app_sep.
    + now apply tail_of_words.
Qed.

(** X10: two spaces after the command word make the mode the empty word,
    and the message is answered as an unknown mode, whatever follows. *)
Theorem empty_mode_is_unknown (text : option jsstring) (cmd r : jsstring) :
  raw_of text = cmd ++ space :: space :: r ->
  ~ In space cmd ->
  toLowerCase [] = [] ->
  dispatch toLowerCase text = Unknown.
Proof.
  intros E Hc Hl. unfold dispatch.
  rewrite (parts_of_words text cmd _ E Hc), split_cons_sep, Hl.
  reflexivity.
Qed.

Variable HF_MODEL_MAP : jsstring -> bool.

Lemma split_length_one (s : jsstring) :
  (1 <? List.length (split space s))%nat = false -> split space s = [s].
Proof.
  intros H. apply Nat.ltb_ge in H.
  pose proof (join_split space s) as J.
  pose proof (split_not_nil space s) as Hn.
  destruct (split space s) as [|p [|q l]]; [congruence| |cbn in H; lia].
  cbn in J. now rewrite J.
Qed.

Lemma split_head_tail (s : jsstring) :
  (1 <? List.length (split space s))%nat = true ->
  s = hd [] (split space s) ++ space :: join space (tl (split space s)).
Proof.
  intros H. apply Nat.ltb_lt in H.
  pose proof (join_split space s) as J.
  destruct (split space s) as [|p [|q l]]; cbn in H; try lia.
  cbn [hd tl]. now rewrite <- J.
Qed.

Lemma no_trailing_space (s : jsstring) (w : jsstring) :
  match rev s with c :: _ => is_space c = false | [] => True end ->
  s <> w ++ [space].
Proof.
  intros H ->. rewrite rev_app_distr in H. cbn in H. discriminate.
Qed.

(** X11: the chat branch never answers 'Provide prompt after model name.':
    what follows the mode is either empty, and the usage text is sent,
    or it yields a prompt that is not empty.  A lone word is the prompt
    for the default model, also when it is the name of a model. *)
Theorem chat_prompt_never_missing (parts : list jsstring) :
  (chat_request_of toLowerCase HF_MODEL_MAP (rest_of parts) = ChatUsage /\
   rest_of parts = []) \/
  (exists modelKey prompt,
     chat_request_of toLowerCase HF_MODEL_MAP (rest_of parts)
       = ChatPrompt modelKey prompt /\
     prompt <> [] /\
     (~ In space (rest_of parts) ->
      modelKey = lit "llama2" /\ prompt = rest_of parts)).
Proof.
  unfold chat_request_of.
  destruct (trim_ends (join space (tl parts))) as [_ Hend].
  fold (rest_of parts) in Hend.
  destruct (rest_of parts) as [|c0 rest0] eqn:Er; [left; now split|right].
  set (rest := c0 :: rest0) in *.
  change (negb (truthy rest)) with false. cbv iota.
  destruct (1 <? List.length (split space rest))%nat eqn:Hl.
  - destruct (HF_MODEL_MAP (toLowerCase (hd [] (split space rest)))) eqn:Hm;
      cbn [andb].
    + pose proof (split_head_tail rest Hl) as E.
      destruct (join space (tl (split space rest))) as [|p0 ps] eqn:Ej.
      * exfalso. exact (no_trailing_space rest _ Hend E).
      * cbn [truthy negb]. eexists _, _. split; [reflexivity|].
        split; [discriminate|]. intros Hs. exfalso. apply Hs.
        rewrite E. apply in_or_app. right. now left.
    + change (negb (truthy rest)) with false. cbv iota.
      eexists _, _. split; [reflexivity|]. split; [discriminate|]. now split.
  - cbn [andb]. change (negb (truthy rest)) with false. cbv iota.
    eexists _, _. split; [reflexivity|]. split; [discriminate|]. now split.
Qed.

(** X12: the translate branch takes the first word as the target language
    exactly when more text follows and the word has at most three
    characters; the rest is then the text to translate.  When the
    translation fails, the text comes back as it was sent. *)
Theorem translate_language_word (w t : jsstring) :
  ~ In space w ->
  (translate_args (w ++ space :: t)
     = if (List.length w <=? 3)%nat then (w, t)
       else (lit "en", w ++ space :: t)) /\
  translate_args w = (lit "en", w) /\
  (forall lib rest e,
     rest <> [] ->
     lib (snd (translate_args rest)) (fst (translate_args rest)) = Throw e ->
     translate lib rest = withPrefix (snd (translate_args rest))).
Proof.
  intros Hw. split; [|split].
  - unfold translate_args. rewrite split_app_sep by assumption.
    cbn [hd tl]. rewrite join_split.
    pose proof (split_not_nil space t) as Hn.
    destruct (split space t) as [|p l]; [congruence|]. reflexivity.
  - unfold translate_args. now rewrite split_no_sep.
  - intros lib rest e Hr Hl. unfold translate.
    destruct rest as [|c r]; [congruence|]. cbn [truthy negb].
    destruct (translate_args (c :: r)) as [to text]. cbn [fst snd] in *.
    unfold translateUnofficial. now rewrite Hl.
Qed.

End ParseTheorems.

(* ------------------------------------------------------------------ *)
(** ** The conversation memory *)
(* ------------------------------------------------------------------ *)

Section MemoryFacts.
Import JS Memory.

Lemma update_same {V} (f : jsstring -> option V) (k : jsstring) (v : option V) :
  update f k v k = v.
Proof. unfold update. now rewrite text_eqb_refl. Qed.

Lemma update_other {V} (f : jsstring -> option V) (k k' : jsstring)
  (v : option V) :
  k <> k' -> update f k v k' = f k'.
Proof.
  intros H. unfold update. destruct (Text.eqb k k') eqn:E; [|reflexivity].
  apply text_eqb_eq in E. congruence.
Qed.

Lemma key_of_inj (a b : jsstring) : key_of a = key_of b -> a = b.
Proof. unfold key_of. apply app_inv_head. Qed.

Variable usingRedis : bool.
Variable JSON_stringify : history -> jsstring.
Variable JSON_parse : jsstring -> result history.

Lemma getMemory_cache (down : option Error) (chatId : jsstring) (s : stores) :
  usingRedis = false ->
  getMemory usingRedis JSON_parse down chatId s
  = (Ok (or_empty (memCache s (key_of chatId))), s).
Proof. intros ->. reflexivity. Qed.

Lemma getMemory_redis (chatId : jsstring) (s : stores) (h : history) :
  usingRedis = true ->
  stored JSON_parse (redis_db s (key_of chatId)) h ->
  getMemory usingRedis JSON_parse None chatId s = (Ok h, s).
Proof.
  intros -> H. unfold getMemory, stored in *.
  cbv beta iota zeta delta [bind try_catch redis_get ret await].
  destruct (redis_db s (key_of chatId)) as [[|c t]|]; subst; try reflexivity.
  now rewrite H.
Qed.

Lemma getMemory_down (e : Error) (chatId : jsstring) (s : stores) :
  usingRedis = true ->
  fst (getMemory usingRedis JSON_parse (Some e) chatId s)
  = Ok (or_empty (memCache s (key_of chatId))).
Proof. intros ->. reflexivity. Qed.

Lemma getMemory_unparsable (chatId : jsstring) (s : stores) (c : char)
  (t : jsstring) (e : Error) :
  usingRedis = true ->
  redis_db s (key_of chatId) = Some (c :: t) ->
  JSON_parse (c :: t) = Throw e ->
  getMemory usingRedis JSON_parse None chatId s
  = (Ok (or_empty (memCache s (key_of chatId))),
     mkStores (redis_db s) (memCache s)
       (warnings s ++ [("Redis get failed:"%string, message e)])).
Proof.
  intros -> H1 H2. unfold getMemory.
  cbv beta iota zeta delta [bind try_catch redis_get ret await console_warn cache_get].
  rewrite H1, H2. reflexivity.
Qed.

Lemma saveMemory_cache (down : option Error) (chatId : jsstring) (h : history)
  (s : stores) :
  usingRedis = false ->
  saveMemory usingRedis JSON_stringify down chatId h s
  = (Ok tt, mkStores (redis_db s)
              (update (memCache s) (key_of chatId) (Some h)) (warnings s)).
Proof. intros ->. reflexivity. Qed.

Lemma saveMemory_redis (chatId : jsstring) (h : history) (s : stores) :
  usingRedis = true ->
  saveMemory usingRedis JSON_stringify None chatId h s
  = (Ok tt, mkStores (update (redis_db s) (key_of chatId)
                        (Some (JSON_stringify h)))
              (memCache s) (warnings s)).
Proof. intros ->. reflexivity. Qed.

Lemma saveMemory_down (e : Error) (chatId : jsstring) (h : history)
  (s : stores) :
  usingRedis = true ->
  saveMemory usingRedis JSON_stringify (Some e) chatId h s
  = (Ok tt, mkStores (redis_db s)
              (update (memCache s) (key_of chatId) (Some h))
              (warnings s ++ [("Redis set failed:"%string, message e)])).
Proof. intros ->. reflexivity. Qed.

Lemma clearMemory_cache (down : option Error) (chatId : jsstring) (s : stores) :
  usingRedis = false ->
  clearMemory usingRedis down chatId s
  = (Ok tt, mkStores (redis_db s)
              (update (memCache s) (key_of chatId) None) (warnings s)).
Proof. intros ->. reflexivity. Qed.

Lemma clearMemory_redis (chatId : jsstring) (s : stores) :
  usingRedis = true ->
  clearMemory usingRedis None chatId s
  = (Ok tt, mkStores (update (redis_db s) (key_of chatId) None)
              (memCache s) (warnings s)).
Proof. intros ->. reflexivity. Qed.

Lemma getMemory_other (down : option Error) (chatId : jsstring)
  (s s' : stores) :
  redis_db s' (key_of chatId) = redis_db s (key_of chatId) ->
  memCache s' (key_of chatId) = memCache s (key_of chatId) ->
  fst (getMemory usingRedis JSON_parse down chatId s')
  = fst (getMemory usingRedis JSON_parse down chatId s).
Proof.
  intros H1 H2. unfold getMemory.
  cbv beta iota zeta delta [bind try_catch redis_get ret await console_warn cache_get].
  destruct usingRedis; [|cbn [fst memCache]; now rewrite H2].
  destruct down as [e|]; [cbn [fst memCache]; now rewrite H2|].
  rewrite H1.
  destruct (redis_db s (key_of chatId)) as [[|c t]|]; try reflexivity.
  destruct (JSON_parse (c :: t)); [reflexivity|].
  cbn [fst memCache]. now rewrite H2.
Qed.

Lemma getMemory_resolves (down : option Error) (chatId : jsstring)
  (s : stores) :
  exists r, fst (getMemory usingRedis JSON_parse down chatId s) = Ok r.
Proof.
  destruct usingRedis eqn:Eu; [|eexists; reflexivity].
  destruct down as [e|]; [eexists; reflexivity|].
  unfold getMemory.
  cbv beta iota zeta delta [bind try_catch redis_get ret await console_warn cache_get].
  destruct (redis_db s (key_of chatId)) as [[|c t]|];
    try (eexists; reflexivity).
  destruct (JSON_parse (c :: t)); eexists; reflexivity.
Qed.

Lemma saveMemory_resolves (down : option Error) (chatId : jsstring)
  (h : history) (s : stores) :
  fst (saveMemory usingRedis JSON_stringify down chatId h s) = Ok tt.
Proof. destruct usingRedis, down; reflexivity. Qed.

Lemma clearMemory_resolves (down : option Error) (chatId : jsstring)
  (s : stores) :
  fst (clearMemory usingRedis down chatId s) = Ok tt.
Proof. destruct usingRedis, down; reflexivity. Qed.

(** X13: the three memory functions never throw.  A read that Redis
    rejects, or that finds a text that does not parse, is logged and
    answered from the in-process cache. *)
Theorem memory_never_throws (down : option Error) (chatId : jsstring)
  (h : history) (s : stores) :
  (exists r, fst (getMemory usingRedis JSON_parse down chatId s) = Ok r) /\
  fst (saveMemory usingRedis JSON_stringify down chatId h s) = Ok tt /\
  fst (clearMemory usingRedis down chatId s) = Ok tt /\
  (forall e, usingRedis = true ->
     down = Some e \/
     (down = None /\
      exists c t, redis_db s (key_of chatId) = Some (c :: t) /\
                  JSON_parse (c :: t) = Throw e) ->
     fst (getMemory usingRedis JSON_parse down chatId s)
     = Ok (or_empty (memCache s (key_of chatId))) /\
     warnings (snd (getMemory usingRedis JSON_parse down chatId s))
     = warnings s ++ [("Redis get failed:"%string, message e)]).
Proof.
  split; [apply getMemory_resolves|].
  split; [apply saveMemory_resolves|].
  split; [apply clearMemory_resolves|].
  intros e Eu [->|(-> & c & t & K1 & K2)].
  - rewrite Eu. split; reflexivity.
  - rewrite (getMemory_unparsable chatId s c t e Eu K1 K2).
    split; reflexivity.
Qed.

Lemma clearMemory_down (e : Error) (chatId : jsstring) (s : stores) :
  usingRedis = true ->
  clearMemory usingRedis (Some e) chatId s
  = (Ok tt, mkStores (redis_db s)
              (update (memCache s) (key_of chatId) None)
              (warnings s ++ [("Redis del failed:"%string, message e)])).
Proof. intros ->. reflexivity. Qed.

Lemma healthy_cases (down1 down2 : option Error) :
  healthy usingRedis down1 down2 ->
  usingRedis = false \/ (usingRedis = true /\ down1 = None /\ down2 = None).
Proof.
  intros [Eu|[-> ->]]; [now left|].
  destruct (bool_dec usingRedis true) as [Eu|Eu]; [now right|].
  left. now apply not_true_is_false.
Qed.

Lemma read_after_save (down1 down2 : option Error) (chatId : jsstring)
  (h : history) (s : stores) :
  healthy usingRedis down1 down2 ->
  (usingRedis = true -> readable JSON_stringify JSON_parse h) ->
  fst (getMemory usingRedis JSON_parse down2 chatId
         (snd (saveMemory usingRedis JSON_stringify down1 chatId h s)))
  = Ok h.
Proof.
  intros Hs Hr. destruct (healthy_cases _ _ Hs) as [Eu|(Eu & -> & ->)].
  - rewrite saveMemory_cache by assumption. cbn [snd].
    rewrite getMemory_cache by assumption. cbn [fst memCache].
    now rewrite update_same.
  - destruct (Hr Eu) as [Hn Hp].
    rewrite saveMemory_redis by assumption. cbn [snd].
    rewrite (getMemory_redis chatId _ h); [reflexivity|assumption|].
    unfold stored. cbn [redis_db]. rewrite update_same.
    destruct (JSON_stringify h); [congruence|assumption].
Qed.

Lemma read_after_clear (down1 down2 : option Error) (chatId : jsstring)
  (s : stores) :
  healthy usingRedis down1 down2 ->
  fst (getMemory usingRedis JSON_parse down2 chatId
         (snd (clearMemory usingRedis down1 chatId s)))
  = Ok [].
Proof.
  intros Hs. destruct (healthy_cases _ _ Hs) as [Eu|(Eu & -> & ->)].
  - rewrite clearMemory_cache by assumption. cbn [snd].
    rewrite getMemory_cache by assumption. cbn [fst memCache].
    now rewrite update_same.
  - rewrite clearMemory_redis by assumption. cbn [snd].
    rewrite (getMemory_redis chatId _ []); [reflexivity|assumption|].
    unfold stored. cbn [redis_db]. now rewrite update_same.
Qed.

(** A write or a clear for one chat leaves what is read for another. *)
Lemma read_other_chat (down1 down2 : option Error) (chatId other : jsstring)
  (h : history) (s : stores) :
  other <> chatId ->
  fst (getMemory usingRedis JSON_parse down2 other
         (snd (saveMemory usingRedis JSON_stringify down1 chatId h s)))
  = fst (getMemory usingRedis JSON_parse down2 other s) /\
  fst (getMemory usingRedis JSON_parse down2 other
         (snd (clearMemory usingRedis down1 chatId s)))
  = fst (getMemory usingRedis JSON_parse down2 other s).
Proof.
  intros Ho.
  assert (Hk : key_of chatId <> key_of other).
  { intros K. apply key_of_inj in K. congruence. }
  destruct (bool_dec usingRedis true) as [Eu|Eu];
    [destruct down1 as [e|]|apply not_true_is_false in Eu];
    split; apply getMemory_other;
    rewrite ?saveMemory_cache, ?saveMemory_redis, ?saveMemory_down,
            ?clearMemory_cache, ?clearMemory_redis, ?clearMemory_down
      by assumption;
    cbn [snd redis_db memCache]; rewrite ?update_other by assumption;
    reflexivity.
Qed.

(** X14: as long as Redis is not in use or carries out the commands, a
    history that is saved is read back and a history that is cleared
    reads back empty; and whatever Redis does, saving or clearing the
    history of one chat leaves what is read for every other chat. *)
Theorem saved_history_is_read_back (down1 down2 : option Error)
  (chatId : jsstring) (h : history) (s : stores) :
  healthy usingRedis down1 down2 ->
  let saved := snd (saveMemory usingRedis JSON_stringify down1 chatId h s) in
  let cleared := snd (clearMemory usingRedis down1 chatId s) in
  ((usingRedis = true -> readable JSON_stringify JSON_parse h) ->
   fst (getMemory usingRedis JSON_parse down2 chatId saved) = Ok h) /\
  fst (getMemory usingRedis JSON_parse down2 chatId cleared) = Ok [] /\
  (forall other d1 d2, other <> chatId ->
     fst (getMemory usingRedis JSON_parse d2 other
            (snd (saveMemory usingRedis JSON_stringify d1 chatId h s)))
     = fst (getMemory usingRedis JSON_parse d2 other s) /\
     fst (getMemory usingRedis JSON_parse d2 other
            (snd (clearMemory usingRedis d1 chatId s)))
     = fst (getMemory usingRedis JSON_parse d2 other s)).
Proof.
  intros Hs. cbv zeta. split; [|split].
  - now apply read_after_save.
  - now apply read_after_clear.
  - intros other d1 d2 Ho. now apply read_other_chat.
Qed.

(** X15: with Redis in use, a history saved while Redis rejects the write
    is not what a later read that Redis answers returns: the read gives
    what Redis held before.  And a history that Redis stored is not
    what a read that Redis rejects returns: that read gives what the
    cache held before. *)
Theorem redis_outage_hides_history (e : Error) (chatId : jsstring)
  (h old : history) (s : stores) :
  usingRedis = true ->
  (stored JSON_parse (redis_db s (key_of chatId)) old ->
   fst (getMemory usingRedis JSON_parse None chatId
          (snd (saveMemory usingRedis JSON_stringify (Some e) chatId h s)))
   = Ok old) /\
  fst (getMemory usingRedis JSON_parse (Some e) chatId
         (snd (saveMemory usingRedis JSON_stringify None chatId h s)))
  = Ok (or_empty (memCache s (key_of chatId))).
Proof.
  intros Eu. split.
  - intros Hs. rewrite saveMemory_down by assumption. cbn [snd].
    now rewrite (getMemory_redis chatId _ old).
  - rewrite saveMemory_redis by assumption. cbn [snd].
    now rewrite getMemory_down.
Qed.

(** X16: a chat turn appends the prompt and the answer, in this order, to
    the history it read, and nothing is ever dropped from the front: when
    Redis is not in use, or carries out the commands, the history read
    after the turn is the one read before it with the two entries
    added; the context handed to the providers is built from the whole
    history and the prompt. *)
Theorem chat_turn_appends (down1 down2 down3 : option Error)
  (chain : jsstring -> jsstring -> jsstring) (chatId prompt : jsstring)
  (old : history) (s : stores) :
  fst (getMemory usingRedis JSON_parse down1 chatId s) = Ok old ->
  let asked := old ++ [mkEntry (lit "user") prompt] in
  let answer := chain (context_of asked) prompt in
  let after := asked ++ [mkEntry (lit "assistant") answer] in
  healthy usingRedis down2 down3 ->
  (usingRedis = true -> readable JSON_stringify JSON_parse after) ->
  let r := chat_turn usingRedis JSON_stringify JSON_parse down1 down2 chain
             chatId prompt s in
  fst r = Ok (Text.withPrefix answer) /\
  fst (getMemory usingRedis JSON_parse down3 chatId (snd r)) = Ok after.
Proof.
  intros Hg asked answer after Hs Hr r. subst r.
  unfold chat_turn, bind.
  destruct (getMemory usingRedis JSON_parse down1 chatId s) as [[m|x] s1] eqn:Eg;
    cbn [fst] in Hg; [|discriminate].
  injection Hg as ->. fold asked. fold answer. fold after.
  pose proof (saveMemory_resolves down2 chatId after s1) as K.
  pose proof (read_after_save down2 down3 chatId after s1 Hs Hr) as R.
  destruct (saveMemory usingRedis JSON_stringify down2 chatId after s1)
    as [[[]|x] s2]; cbn [fst snd] in *; [|discriminate].
  split; [reflexivity|exact R].
Qed.

End MemoryFacts.

(* ------------------------------------------------------------------ *)
(** ** The candidates of a Hugging Face Space *)
(* ------------------------------------------------------------------ *)

Section HfSpaceFacts.
Import JS HfSpace.

Variable post : jsstring -> result response.

Lemma try_each_step (url : jsstring) (urls : list jsstring) (t : requests) :
  try_each post (url :: urls) t
  = match post url with
    | Ok resp =>
        match output_of resp with
        | Some out => (Ok out, t ++ [url])
        | None => try_each post urls (t ++ [url])
        end
    | Throw _ => try_each post urls (t ++ [url])
    end.
Proof.
  cbn [try_each].
  cbv beta iota zeta delta [bind try_catch axios_post modify await ret].
  destruct (post url) as [resp|e]; [|reflexivity].
  cbv beta iota. now destruct (output_of resp).
Qed.

Lemma try_each_spec (urls : list jsstring) (t : requests) :
  (exists pre url rest out,
     urls = pre ++ url :: rest /\ Forall (unusable post) pre /\
     answers post url out /\
     try_each post urls t = (Ok out, t ++ pre ++ [url])) \/
  (Forall (unusable post) urls /\
   try_each post urls t
   = (Throw (mkError "HF Space did not return output"), t ++ urls)).
Proof.
  revert t. induction urls as [|url urls IH]; intros t.
  - right. split; [constructor|]. cbn. now rewrite app_nil_r.
  - rewrite try_each_step.
    assert (Hnext : unusable post url ->
      (exists pre url0 rest out,
         url :: urls = pre ++ url0 :: rest /\ Forall (unusable post) pre /\
         answers post url0 out /\
         try_each post urls (t ++ [url]) = (Ok out, t ++ pre ++ [url0])) \/
      (Forall (unusable post) (url :: urls) /\
       try_each post urls (t ++ [url])
       = (Throw (mkError "HF Space did not return output"), t ++ url :: urls))).
    { intros Hu. destruct (IH (t ++ [url])) as
          [(pre & url0 & rest & out & E & Hp & Ha & R)|(Hall & R)].
      - left. exists (url :: pre), url0, rest, out.
        split; [now rewrite E|]. split; [now constructor|].
        split; [assumption|]. rewrite R. now rewrite <- app_assoc.
      - right. split; [now constructor|]. rewrite R. now rewrite <- app_assoc. }
    destruct (post url) as [resp|e] eqn:Ep.
    + destruct (output_of resp) as [out|] eqn:Eo.
      * left. exists [], url, urls, out. split; [reflexivity|].
        split; [constructor|]. split; [|reflexivity].
        exists resp. now split.
      * apply Hnext. unfold unusable. now rewrite Ep.
    + apply Hnext. unfold unusable. now rewrite Ep.
Qed.

Lemma strip_slash_added (u : jsstring) : strip_slash (u ++ [47%N]) = u.
Proof.
  unfold strip_slash. rewrite rev_app_distr. cbn. apply rev_involutive.
Qed.

(** X17: [callHfSpace] posts to the three candidate addresses in their
    order and stops at the first whose response holds an output, which
    it returns; a request that fails, or a response without output,
    moves on to the next; when none answers, the error is the fixed
    'HF Space did not return output', whatever went wrong.  A slash at
    the end of the address makes no difference, and without an address
    no request is made. *)
Theorem hf_space_first_usable_candidate (c : char) (u : jsstring) :
  let urls := candidates (strip_slash (c :: u)) in
  let r := callHfSpace post (Some (c :: u)) [] in
  ((exists pre url rest out,
      urls = pre ++ url :: rest /\ Forall (unusable post) pre /\
      answers post url out /\ r = (Ok out, pre ++ [url])) \/
   (Forall (unusable post) urls /\
    r = (Throw (mkError "HF Space did not return output"), urls))) /\
  (strip_slash (c :: u) = c :: u ->
   callHfSpace post (Some ((c :: u) ++ [47%N])) [] = r) /\
  callHfSpace post None [] = (Throw (mkError "HF_SPACE_URL not configured"), []) /\
  callHfSpace post (Some []) []
  = (Throw (mkError "HF_SPACE_URL not configured"), []).
Proof.
  cbv zeta. split; [|split; [|split; reflexivity]].
  - unfold callHfSpace. apply (try_each_spec _ []).
  - intros H. unfold callHfSpace. cbn [app].
    change (c :: u ++ [47%N]) with ((c :: u) ++ [47%N]).
    now rewrite strip_slash_added, H.
Qed.

End HfSpaceFacts.

(* ------------------------------------------------------------------ *)
(** ** The admin commands *)
(* ------------------------------------------------------------------ *)

Section AdminFacts.
Import JS Text Command.

Variable OWNER_ID : option number.
Variable ADMIN_IDS : list number.
Variable usingRedis : bool.
Variable JSON_stringify : Memory.history -> jsstring.
Variable JSON_parse : jsstring -> result Memory.history.
Variable String_of : number -> jsstring.

(** X18: a user who is not an administrator gets 'Admin only command.'
    from each of the three admin commands, and nothing else happens: no
    message is posted and the memory is neither read nor changed.  Such
    is every user whose id is 0 or NaN, whatever the lists hold, and
    every user who is neither the owner nor listed in [ADMIN_IDS]. *)
Theorem admin_commands_need_admin (userId : number) :
  truthy_number userId = false \/
  ((forall owner, OWNER_ID = Some owner -> PrimFloat.eqb userId owner = false)
   /\ includes ADMIN_IDS userId = false) ->
  forall (failure : option Error) (parts : list jsstring) (s : bot_state),
    post OWNER_ID ADMIN_IDS failure userId parts s = (Ok admin_only, s) /\
    clear_memory OWNER_ID ADMIN_IDS usingRedis String_of failure userId parts s
    = (Ok admin_only, s) /\
    export_memory OWNER_ID ADMIN_IDS usingRedis JSON_stringify JSON_parse
      String_of failure userId parts s
    = (Ok admin_only, s).
Proof.
  intros Hu failure parts s.
  assert (H : isAdmin OWNER_ID ADMIN_IDS userId = false).
  { unfold isAdmin. destruct Hu as [Hu|[Ho Hl]]; [now rewrite Hu|].
    destruct (truthy_number userId); [|reflexivity]. cbn [negb].
    destruct OWNER_ID as [owner|]; [|exact Hl].
    rewrite (Ho owner eq_refl), andb_false_r. exact Hl. }
  unfold post, clear_memory, export_memory. rewrite H. now repeat split.
Qed.

Variable toLowerCase : jsstring -> jsstring.

(** X19: what an administrator posts reaches the channel as typed: for
    the message [<command> post <channel> <message>] one message goes to
    the channel, the prefix followed by the message text with its inner
    spacing kept, and the reply names the channel; when sending fails,
    nothing is posted and the reply carries the error. *)
Theorem admin_post_is_verbatim (userId : number) (text : option jsstring)
  (cmd m channel msg : jsstring) (s : bot_state) :
  isAdmin OWNER_ID ADMIN_IDS userId = true ->
  raw_of text = cmd ++ space :: m ++ space :: channel ++ space :: msg ->
  ~ In space cmd -> ~ In space m -> ~ In space channel ->
  channel <> [] -> msg <> [] ->
  toLowerCase m = lit "post" ->
  dispatch toLowerCase text = Post /\
  post OWNER_ID ADMIN_IDS None userId (parts_of text) s
  = (Ok (withPrefix (lit "Posted to " ++ channel)),
     mkBot (memory s) (posted s ++ [(channel, withPrefix msg)])) /\
  (forall e,
     post OWNER_ID ADMIN_IDS (Some e) userId (parts_of text) s
     = (Ok (withPrefix (lit "Failed to post: " ++ lit (message e))), s)).
Proof.
  intros Ha E Hc Hm Hch Hn Hmsg Hl.
  assert (Hp : parts_of text = m :: channel :: split space msg).
  { rewrite (parts_of_words text cmd _ E Hc).
    now rewrite !split_app_sep. }
  assert (H0 : hd [] (parts_of text) = m) by now rewrite Hp.
  assert (H3 : nth_error (parts_of text) 1 = Some channel) by now rewrite Hp.
  assert (H4 : tail_of (parts_of text) = msg).
  { rewrite Hp. unfold tail_of. cbn [skipn]. apply join_split. }
  split; [|split].
  - unfold dispatch. destruct (parts_of text) as [|p0 ps] eqn:Ep.
    + cbn in H3. discriminate.
    + cbn [hd] in H0. subst p0. rewrite Hl. reflexivity.
  - unfold post, second. rewrite Ha, H3, H4. cbn [negb].
    destruct channel as [|c0 ch]; [congruence|].
    destruct msg as [|m0 ms]; [congruence|]. reflexivity.
  - intros e. unfold post, second. rewrite Ha, H3, H4. cbn [negb].
    destruct channel as [|c0 ch]; [congruence|].
    destruct msg as [|m0 ms]; [congruence|]. reflexivity.
Qed.

(** X20: after an administrator has cleared the memory of a chat, an
    export of it shows the empty history, as long as Redis is not in use
    or carries out the commands; both commands name the same chat, the
    one given or else the administrator's own. *)
Theorem admin_clear_then_export (userId : number) (parts : list jsstring)
  (down1 down2 : option Error) (s : bot_state) :
  isAdmin OWNER_ID ADMIN_IDS userId = true ->
  Memory.healthy usingRedis down1 down2 ->
  let target := target_of String_of userId parts in
  let cleared :=
    clear_memory OWNER_ID ADMIN_IDS usingRedis String_of down1 userId parts s in
  fst cleared = Ok (withPrefix (lit "Cleared memory for " ++ target)) /\
  posted (snd cleared) = posted s /\
  fst (export_memory OWNER_ID ADMIN_IDS usingRedis JSON_stringify JSON_parse
         String_of down2 userId parts (snd cleared))
  = Ok (withPrefix (lit "Memory for " ++ target ++ lit ":" ++ [10%N]
                    ++ firstn 4000 (JSON_stringify []))).
Proof.
  intros Ha Hh target cleared. subst cleared.
  unfold clear_memory, export_memory. rewrite Ha. cbn [negb]. fold target.
  unfold bind, on_memory, ret.
  pose proof (clearMemory_resolves usingRedis down1 target (memory s)) as Hc.
  pose proof (read_after_clear usingRedis JSON_parse down1 down2 target
                (memory s) Hh) as Hg.
  destruct (Memory.clearMemory usingRedis down1 target (memory s))
    as [[[]|x] s1]; cbn [fst snd] in *; [|discriminate].
  cbn [memory]. 
  destruct (Memory.getMemory usingRedis JSON_parse down2 target s1)
    as [[h|x] s2]; cbn [fst snd] in *; [|discriminate].
  injection Hg as ->. now repeat split.
Qed.

End AdminFacts.

(* ------------------------------------------------------------------ *)
(** ** The tts and replicate branches *)
(* ------------------------------------------------------------------ *)

Section SpeechFacts.
Import Replicate Speech.






End SpeechFacts.

Section DirectFacts.
Import Replicate Chain Direct.

Variable JSON_stringify : payload -> string.
Variable JSON_stringify_created : created -> string.
Variable process_env : string -> option string.

(** X22: the replicate branch always gets as far as the send it
    returns, and the handler settles as that send does: it throws to
    its caller exactly when that send is rejected.  Without a model
    under the given name the branch makes no call and the message names
    the variable.  When the prediction cannot be created, or the send of
    the 'job started' text is rejected, or the job fails or is not done
    in time, the message carries the error; in the first two cases the
    job is not polled. *)
Theorem direct_replicate_reports_errors (w : direct_world) (name prompt : string)
  (sent : answer_msg -> result unit) :
  truthy name = true -> truthy prompt = true ->
  (exists m,
     fst (replicate JSON_stringify JSON_stringify_created process_env
            w (Some name) prompt) = Ok m /\
     settle sent (replicate JSON_stringify JSON_stringify_created process_env
                    w (Some name) prompt) = sent m) /\
  (or_else (process_env name) None = None ->
   replicate JSON_stringify JSON_stringify_created process_env
     w (Some name) prompt
   = (Ok (Text (withPrefix ("No replicate model found in env as " ++ name))),
      [])) /\
  (forall model e,
     or_else (process_env name) None = Some model ->
     direct_fails w e ->
     fst (replicate JSON_stringify JSON_stringify_created process_env
            w (Some name) prompt)
     = Ok (Text (withPrefix ("Replicate error: " ++ message e))) /\
     (direct_repCreate w = Throw e \/ direct_started w = Throw e ->
      ~ In ReplicatePoll
          (calls (snd (replicate JSON_stringify JSON_stringify_created
                         process_env w (Some name) prompt))))).
Proof.
  intros Hn Hp.
  split; [apply handler_settles|].
  unfold replicate, handler, replicate_body, say, call, record.
  cbv beta iota zeta delta [bind try_catch ret await modify].
  rewrite Hn, Hp. cbn [negb orb].
  destruct w as [rc rp st]. unfold direct_fails.
  cbn [direct_repCreate direct_repPoll direct_started].
  split.
  - intros ->. reflexivity.
  - intros model e -> [->|(c & i & -> & Hi & [->|[-> ->]])];
      cbv beta iota zeta delta [fst snd]; rewrite ?Hi;
      (split; [reflexivity|]); cbn; intros K K';
      try (repeat (destruct K' as [K'|K']; [discriminate K'|]); exact K');
      destruct K as [K|K]; discriminate K.
Qed.

End DirectFacts.

(* ------------------------------------------------------------------ *)
(** ** The properties at sample inputs *)
(* ------------------------------------------------------------------ *)

Section CommandExamples.
Import JS Text Command.

Lemma command_words_witness :
  let text := Some (lit "  /ai post @news Hello   world, again ") in
  hd [] (parts_of text) = lit "post" /\
  rest_of (parts_of text) = trim (lit "@news Hello   world, again") /\
  (forall c msg,
     lit "@news Hello   world, again" = c ++ space :: msg -> ~ In space c ->
     nth_error (parts_of text) 1 = Some c /\ tail_of (parts_of text) = msg).
Proof.
  intros text.
  refine (command_words text (lit "/ai") (lit "post")
            (lit "@news Hello   world, again") eq_refl _ _);
    cbn; intros K; repeat (destruct K as [K|K]; [discriminate K|]); exact K.
Defined.

Lemma empty_mode_is_unknown_witness :
  dispatch SampleText.lower (Some (lit "/ai  chat hello")) = Unknown.
Proof.
  refine (empty_mode_is_unknown SampleText.lower (Some (lit "/ai  chat hello"))
            (lit "/ai") (lit "chat hello") eq_refl _ eq_refl).
  cbn; intros K; repeat (destruct K as [K|K]; [discriminate K|]); exact K.
Defined.

Lemma translate_language_word_witness :
  (translate_args (lit "the" ++ space :: lit "cat sat")
     = if (List.length (lit "the") <=? 3)%nat then (lit "the", lit "cat sat")
       else (lit "en", lit "the" ++ space :: lit "cat sat")) /\
  translate_args (lit "the") = (lit "en", lit "the") /\
  (forall lib rest e,
     rest <> [] ->
     lib (snd (translate_args rest)) (fst (translate_args rest)) = Throw e ->
     translate lib rest = withPrefix (snd (translate_args rest))).
Proof.
  refine (translate_language_word (lit "the") (lit "cat sat") _).
  cbn; intros K; repeat (destruct K as [K|K]; [discriminate K|]); exact K.
Defined.

End CommandExamples.

Section MemoryExamples.
Import JS Memory.

Lemma saved_history_is_read_back_witness :
  let h := [mkEntry (lit "user") (lit "hi");
            mkEntry (lit "assistant") (lit "hello")] in
  let stringify := fun _ : history => lit "[{},{}]" in
  let parse := fun _ : jsstring => Ok h in
  let saved := snd (saveMemory true stringify None (lit "42") h empty) in
  let cleared := snd (clearMemory true None (lit "42") saved) in
  fst (getMemory true parse None (lit "42") saved) = Ok h /\
  fst (getMemory true parse None (lit "42") cleared) = Ok [] /\
  fst (getMemory true parse None (lit "7") saved) = Ok [].
Proof.
  intros h stringify parse saved cleared.
  split; [|split].
  - refine (proj1 (saved_history_is_read_back true stringify parse None None
                     (lit "42") h empty _) _).
    + right. split; reflexivity.
    + intros _. split; [discriminate|reflexivity].
  - refine (proj1 (proj2 (saved_history_is_read_back true stringify parse
                            None None (lit "42") h saved _))).
    right. split; reflexivity.
  - refine (eq_trans
              (proj1 (proj2 (proj2 (saved_history_is_read_back true stringify
                                      parse None None (lit "42") h empty _))
                        (lit "7") None None _)) eq_refl).
    + right. split; reflexivity.
    + discriminate.
Defined.

Lemma redis_outage_hides_history_witness :
  let h := [mkEntry (lit "user") (lit "hi");
            mkEntry (lit "assistant") (lit "hello")] in
  let stringify := fun _ : history => lit "[{},{}]" in
  let parse := fun _ : jsstring => Ok h in
  let down := mkError "Connection is closed." in
  fst (getMemory true parse None (lit "42")
         (snd (saveMemory true stringify (Some down) (lit "42") h empty)))
  = Ok [] /\
  fst (getMemory true parse (Some down) (lit "42")
         (snd (saveMemory true stringify None (lit "42") h empty)))
  = Ok [].
Proof.
  intros h stringify parse down.
  pose proof (redis_outage_hides_history true stringify parse down (lit "42")
                h [] empty eq_refl) as [H1 H2].
  split; [exact (H1 eq_refl)|exact H2].
Defined.

Lemma chat_turn_appends_witness :
  let stringify := fun _ : history => lit "[{},{}]" in
  let parse := fun _ : jsstring => Ok [] in
  let chain := fun context prompt : jsstring => lit "You said: " ++ context in
  let r := chat_turn false stringify parse None None chain
             (lit "42") (lit "hi") empty in
  fst r = Ok (Text.withPrefix (lit "You said: user: hi")) /\
  fst (getMemory false parse None (lit "42") (snd r))
  = Ok [mkEntry (lit "user") (lit "hi");
        mkEntry (lit "assistant") (lit "You said: user: hi")].
Proof.
  intros stringify parse chain.
  refine (chat_turn_appends false stringify parse None None None chain
            (lit "42") (lit "hi") [] empty eq_refl _ _).
  - left. reflexivity.
  - discriminate.
Defined.

End MemoryExamples.

Section HfSpaceExamples.
Import JS HfSpace.

Lemma hf_space_first_usable_candidate_witness :
  let post := fun url : jsstring =>
    if Text.eqb url (lit "https://me-chat.hf.space/api/predict")
    then Ok (Json (Some [lit "Hello"]) None)
    else Throw (mkError "Request failed with status code 404") in
  callHfSpace post (Some (lit "https://me-chat.hf.space/")) []
  = callHfSpace post (Some (lit "https://me-chat.hf.space")) [] /\
  callHfSpace post (Some (lit "https://me-chat.hf.space")) []
  = (Ok (lit "Hello"),
     [lit "https://me-chat.hf.space/run/predict";
      lit "https://me-chat.hf.space/api/predict"]).
Proof.
  intros post. split; [|reflexivity].
  exact (proj1 (proj2 (hf_space_first_usable_candidate post 104%N
                         (lit "ttps://me-chat.hf.space"))) eq_refl).
Defined.

End HfSpaceExamples.

Section AdminExamples.
Import JS Text Command.

Lemma admin_commands_need_admin_witness :
  let s := mkBot Memory.empty [] in
  let parts := [lit "post"; lit "@news"; lit "hello"] in
  let stringify := fun _ : Memory.history => lit "[]" in
  let parse := fun _ : jsstring => Ok [] in
  let String_of := fun _ : number => lit "7" in
  (post (Some 42%float) [43%float] None 7%float parts s = (Ok admin_only, s) /\
   clear_memory (Some 42%float) [43%float] false String_of None 7%float parts s
   = (Ok admin_only, s) /\
   export_memory (Some 42%float) [43%float] false stringify parse String_of
     None 7%float parts s
   = (Ok admin_only, s)) /\
  (includes [0%float] 0%float = true /\
   post None [0%float] None 0%float parts s = (Ok admin_only, s)).
Proof.
  intros s parts stringify parse String_of. split.
  - refine (admin_commands_need_admin (Some 42%float) [43%float] false
              stringify parse String_of 7%float (or_intror (conj _ eq_refl))
              None parts s).
    intros owner E. injection E as <-. reflexivity.
  - split; [reflexivity|].
    exact (proj1 (admin_commands_need_admin None [0%float] false
                    stringify parse String_of 0%float (or_introl eq_refl)
                    None parts s)).
Defined.

Lemma admin_post_is_verbatim_witness :
  let s := mkBot Memory.empty [] in
  let text := Some (lit "/ai POST @news Hello   world") in
  dispatch SampleText.lower text = Post /\
  post (Some 42%float) [43%float] None 43%float (parts_of text) s
  = (Ok (withPrefix (lit "Posted to @news")),
     mkBot Memory.empty [(lit "@news", withPrefix (lit "Hello   world"))]) /\
  (forall e,
     post (Some 42%float) [43%float] (Some e) 43%float (parts_of text) s
     = (Ok (withPrefix (lit "Failed to post: " ++ lit (message e))), s)).
Proof.
  intros s text.
  refine (admin_post_is_verbatim (Some 42%float) [43%float] SampleText.lower
            43%float text (lit "/ai") (lit "POST") (lit "@news")
            (lit "Hello   world") s eq_refl eq_refl _ _ _ _ _ eq_refl);
    try discriminate;
    cbn; intros K; repeat (destruct K as [K|K]; [discriminate K|]); exact K.
Defined.

Lemma admin_clear_then_export_witness :
  let h := [Memory.mkEntry (lit "user") (lit "hi")] in
  let stringify := fun m : Memory.history =>
    match m with [] => lit "[]" | _ => lit "[{}]" end in
  let parse := fun _ : jsstring => Ok h in
  let String_of := fun _ : number => lit "42" in
  let s := mkBot (snd (Memory.saveMemory false stringify None (lit "42") h
                         Memory.empty)) [] in
  let cleared :=
    clear_memory (Some 42%float) [] false String_of None 42%float
      [lit "clear_memory"] s in
  fst (export_memory (Some 42%float) [] false stringify parse String_of None
         42%float [lit "export_memory"] s)
  = Ok (withPrefix (lit "Memory for 42:" ++ [10%N] ++ lit "[{}]")) /\
  fst cleared = Ok (withPrefix (lit "Cleared memory for 42")) /\
  fst (export_memory (Some 42%float) [] false stringify parse String_of None
         42%float [lit "export_memory"] (snd cleared))
  = Ok (withPrefix (lit "Memory for 42:" ++ [10%N] ++ lit "[]")).
Proof.
  intros h stringify parse String_of s cleared.
  split; [reflexivity|].
  pose proof (admin_clear_then_export (Some 42%float) [] false stringify parse
                String_of 42%float [lit "clear_memory"] None None s eq_refl
                (or_introl eq_refl)) as (H1 & _ & H3).
  split; [exact H1|exact H3].
Defined.

End AdminExamples.

Section BranchExamples.
Import Speech.


End BranchExamples.

Section DirectExamples.
Import Direct.

Lemma direct_replicate_reports_errors_witness :
  let process_env := fun name : string =>
    if (name =? "REPLICATE_IMAGE_MODEL")%string then Some "stability-ai/sdxl"
    else None in
  let stringify_created := fun _ : created => "{}" in
  let blocked := mkError "403: Forbidden: bot was blocked by the user" in
  let sent := fun _ : answer_msg => Throw blocked in
  let w := mkDirectWorld (Ok (mkCreated (Some "p1") []))
             (Throw (job_failed Sample.stringify Sample.failed)) (Ok tt) in
  let unsent := mkDirectWorld (Ok (mkCreated (Some "p1") []))
                  (Ok Sample.succeeded) (Throw blocked) in
  replicate Sample.stringify stringify_created process_env w
    (Some "MODEL") "a cat"
  = (Ok (Text (withPrefix "No replicate model found in env as MODEL")), []) /\
  (fst (replicate Sample.stringify stringify_created process_env w
          (Some "REPLICATE_IMAGE_MODEL") "a cat")
   = Ok (Text (withPrefix "Replicate error: Replicate job failed: {}")) /\
   settle sent (replicate Sample.stringify stringify_created process_env w
                  (Some "REPLICATE_IMAGE_MODEL") "a cat")
   = Throw blocked) /\
  replicate Sample.stringify stringify_created process_env unsent
    (Some "REPLICATE_IMAGE_MODEL") "a cat"
  = (Ok (Text (withPrefix
          "Replicate error: 403: Forbidden: bot was blocked by the user")),
     [Call ReplicateCreate;
      Say (Text (withPrefix "Replicate job started, polling until done..."))]).
Proof.
  intros process_env stringify_created blocked sent w unsent.
  split; [|split; [split|]].
  - exact (proj1 (proj2 (direct_replicate_reports_errors Sample.stringify
                           stringify_created process_env w "MODEL" "a cat"
                           sent eq_refl eq_refl)) eq_refl).
  - refine (proj1 (proj2 (proj2 (direct_replicate_reports_errors
                            Sample.stringify stringify_created process_env w
                            "REPLICATE_IMAGE_MODEL" "a cat" sent
                            eq_refl eq_refl))
              "stability-ai/sdxl" (job_failed Sample.stringify Sample.failed)
              eq_refl _)).
    right. exists (mkCreated (Some "p1") []), "p1". repeat split.
    right. split; reflexivity.
  - reflexivity.
  - reflexivity.
Defined.

End DirectExamples.
